(** * redditapi6: the fetch / classify / paginate loop of [script.js]

    A shallow embedding of [getAccessToken] and [fetchPosts] and the
    properties of the loop: what a run returns, how many page requests it
    issues, where every delivered post ends up, and when it sleeps.

    Modelling conventions.
    - JavaScript strings are [string]s, byte strings in UTF-8;
      [toLowerCase] lowers the ASCII letters. For the suffix tests of the
      script this is exact: no other character lowers to a question mark
      or to one of the letters of the four suffixes, but for U+0130, which
      lowers to an [i] and a combining dot that none of the suffixes
      holds.
    - [undefined] and [null] are [None]; a field that is present holds a
      string.
    - JavaScript integers are [Z]; array lengths are [nat], injected into
      [Z] where the script compares them with a number.
    - Objects have an identity ([oid]): [posts.indexOf(post)] compares
      references, and the objects that [response.json()] builds are
      pairwise distinct.
    - The network, the token endpoint and [window.confirm] are oracles of
      an environment [Env]; every interaction of a run with them, every
      status-bar update and every sleep is logged in the run's [trace].
    - [btoa] throws on a string with a code unit above 0xFF, before the
      token request is made; [btoa_defined] tells when it does not. *)

From Stdlib Require Import ZArith List String Ascii Bool Lia.
From Stdlib Require Import Relations DecimalString.
Import ListNotations.

Local Open Scope string_scope.
Local Open Scope list_scope.
Local Open Scope Z_scope.

(** ** JavaScript strings *)

Module JsString.

Definition lower_ascii (c : ascii) : ascii :=
  let n := nat_of_ascii c in
  if ((65 <=? n) && (n <=? 90))%nat then ascii_of_nat (n + 32) else c.

(** [s.toLowerCase()] *)
Fixpoint toLowerCase (s : string) : string :=
  match s with
  | EmptyString => EmptyString
  | String c r => String (lower_ascii c) (toLowerCase r)
  end.

(** [s.split('?')[0]]: what stands before the first question mark. *)
Fixpoint split_query_head (s : string) : string :=
  match s with
  | EmptyString => EmptyString
  | String c r =>
      if Ascii.eqb c "?" then EmptyString else String c (split_query_head r)
  end.

(** [s.endsWith(suffix)] *)
Definition endsWith (s suffix : string) : bool :=
  let n := String.length s in
  let m := String.length suffix in
  ((m <=? n)%nat && String.eqb (substring (n - m) m s) suffix)%bool.

(** A template literal's rendering of an integer. *)
Definition of_Z (z : Z) : string := NilZero.string_of_int (Z.to_int z).

(** Truthiness of a value that is a string, [undefined] or [null]. *)
Definition truthy (v : option string) : bool :=
  match v with
  | Some (String _ _) => true
  | _ => false
  end.

(** [a || b] on such values. *)
Definition or_else (a b : option string) : option string :=
  if truthy a then a else b.

(** [btoa(s)] returns the base64 text of [s] when every code unit of [s]
    is at most 0xFF and throws an [InvalidCharacterError] otherwise. In
    UTF-8 the code points up to U+00FF are written with bytes below 0xC4,
    and every code point above them has a lead byte from 0xC4 on. *)
Fixpoint btoa_defined (s : string) : bool :=
  match s with
  | EmptyString => true
  | String c r => ((nat_of_ascii c <? 196)%nat && btoa_defined r)%bool
  end.

End JsString.

Import JsString.

(** ** Listing items *)

Record Source := { source_url : option string }.
Record GifVariant := { gif_source : option Source }.
Record Variants := { gif : option GifVariant }.
Record Image := { source : option Source; variants : option Variants }.
Record Preview := { images : option (list Image) }.

(** The fields of a listing item that the script reads. *)
Record PostData := {
  url : option string;
  permalink : string;
  title : string;
  preview : option Preview
}.

(** An object of the page array: its identity (the number of the page
    request that delivered it and its index in that page) and its fields. *)
Record Post := { oid : nat * nat; data : PostData }.

Definition oid_eqb (a b : nat * nat) : bool :=
  (Nat.eqb (fst a) (fst b) && Nat.eqb (snd a) (snd b))%bool.

(** [post.url = u] *)
Definition set_url (post : Post) (u : string) : Post :=
  {| oid := oid post;
     data := {| url := Some u;
                permalink := permalink (data post);
                title := title (data post);
                preview := preview (data post) |} |}.

Definition opt_bind {A B : Type} (o : option A) (f : A -> option B) : option B :=
  match o with
  | Some a => f a
  | None => None
  end.

Notation "o ?. f" := (opt_bind o f) (at level 49, left associativity).

(** [post.preview?.images?.[0]] *)
Definition first_image (d : PostData) : option Image :=
  Some d ?. preview ?. images ?. (fun l => nth_error l 0).

(** [post.preview?.images?.[0]?.source?.url] *)
Definition image_source_url (d : PostData) : option string :=
  first_image d ?. source ?. source_url.

(** [post.preview?.images?.[0]?.variants?.gif?.source?.url] *)
Definition gif_source_url (d : PostData) : option string :=
  first_image d ?. variants ?. gif ?. gif_source ?. source_url.

(** Lines 80-82: the first truthy of the two preview addresses, else the
    empty string. *)
Definition previewUrl (d : PostData) : string :=
  match or_else (or_else (image_source_url d) (gif_source_url d)) (Some "") with
  | Some s => s
  | None => ""
  end.

(** Lines 64-72 and 83-89: lowercase, cut the query string, test the four
    suffixes. *)
Definition has_media_suffix (u : string) : bool :=
  let urlLower := split_query_head (toLowerCase u) in
  endsWith urlLower ".gif" || endsWith urlLower ".jpg" ||
  endsWith urlLower ".jpeg" || endsWith urlLower ".png".

(** ** The outside world and what a run does to it *)

(** What the [try] blocks of [getAccessToken] and [fetchPosts] can catch. *)
Inductive Exn :=
| ApiError (message : string)   (* [throw new Error(data.error)] *)
| TransportError                (* [fetch] or [response.json()] rejects *)
| TypeError                     (* a property read on [undefined] *)
| InvalidCharacterError.        (* [btoa] on a code unit above 0xFF *)

(** The answer of the token endpoint. *)
Inductive TokenResponse :=
| TokenFail
| TokenError (error : string)
| TokenData (access_token : option string).

(** The answer of the listing endpoint: a failed transport, a body with a
    truthy [error] field, or a listing [{data: {children, after}}]. *)
Inductive Response :=
| ListingFail
| ListingError (error : string)
| Listing (children : list PostData) (next : option string).

Definition is_failure (r : Response) : bool :=
  match r with
  | Listing _ _ => false
  | _ => true
  end.

(** The texts that [updateStatus] is called with. *)
Inductive Status :=
| FetchingToken
| TokenRetrieved
| ErrorToken (e : Exn)
| FetchingPosts
| FetchedSoFar (n : nat) (limit : Z)
| StoppedNoImages
| Success (n : nat)
| ErrorFetching (e : Exn).

Inductive Event :=
| EvStatus (message : Status) (isError : bool)
| EvToken (r : TokenResponse)
| EvFetch (url : string) (r : Response)
| EvConfirm (answer : bool)
| EvSleep (ms : Z).

Record Env := {
  (** the token endpoint, asked with the two credentials *)
  token_endpoint : string -> string -> TokenResponse;
  (** the listing endpoint: the number of page requests made before this
      one, the bearer token and the address *)
  listing_endpoint : nat -> string -> string -> Response;
  (** [window.confirm]: the number of prompts shown before this one *)
  confirm : nat -> bool
}.

Definition is_fetch (e : Event) : bool :=
  match e with EvFetch _ _ => true | _ => false end.

Definition is_sleep (e : Event) : bool :=
  match e with EvSleep _ => true | _ => false end.

Definition is_confirm (e : Event) : bool :=
  match e with EvConfirm _ => true | _ => false end.

Definition is_approval (e : Event) : bool :=
  match e with EvConfirm true => true | _ => false end.

Definition count (f : Event -> bool) (tr : list Event) : nat :=
  List.length (filter f tr).

(** The number of page requests a trace holds. *)
Definition fetch_count (tr : list Event) : nat := count is_fetch tr.

(** ** The state of a run *)

Record RunState := {
  mediaPosts : list Post;
  nonMediaPosts : list Post;
  after : option string;
  requestCount : Z;
  trace : list Event
}.

Definition push_media (post : Post) (st : RunState) : RunState :=
  {| mediaPosts := mediaPosts st ++ [post];
     nonMediaPosts := nonMediaPosts st;
     after := after st; requestCount := requestCount st; trace := trace st |}.

Definition push_nonMedia (posts : list Post) (st : RunState) : RunState :=
  {| mediaPosts := mediaPosts st;
     nonMediaPosts := nonMediaPosts st ++ posts;
     after := after st; requestCount := requestCount st; trace := trace st |}.

Definition set_after (next : option string) (st : RunState) : RunState :=
  {| mediaPosts := mediaPosts st; nonMediaPosts := nonMediaPosts st;
     after := next; requestCount := requestCount st; trace := trace st |}.

Definition incr_requestCount (st : RunState) : RunState :=
  {| mediaPosts := mediaPosts st; nonMediaPosts := nonMediaPosts st;
     after := after st; requestCount := requestCount st + 1; trace := trace st |}.

Definition emit (e : Event) (st : RunState) : RunState :=
  {| mediaPosts := mediaPosts st; nonMediaPosts := nonMediaPosts st;
     after := after st; requestCount := requestCount st;
     trace := trace st ++ [e] |}.

Definition updateStatus (message : Status) (isError : bool) : RunState -> RunState :=
  emit (EvStatus message isError).

(** [mediaPosts.length] as a number. *)
Definition media_length (st : RunState) : Z := Z.of_nat (List.length (mediaPosts st)).

(** How a block of statements ends. *)
Inductive Completion :=
| Normal (st : RunState)
| Break (st : RunState)
| Throw (e : Exn) (st : RunState).

Definition state_of (c : Completion) : RunState :=
  match c with
  | Normal st | Break st | Throw _ st => st
  end.

(** ** Arrays of posts *)

(** [data.data.children.map(child => child.data)] for the page that request
    number [k] delivered: fresh objects, one per child, in order. *)
Definition posts_of (k : nat) (children : list PostData) : list Post :=
  map (fun id => {| oid := (k, fst id); data := snd id |})
      (combine (seq 0 (List.length children)) children).

Fixpoint indexOf_from (i : Z) (posts : list Post) (post : Post) : Z :=
  match posts with
  | [] => -1
  | p :: rest =>
      if oid_eqb (oid p) (oid post) then i else indexOf_from (i + 1) rest post
  end.

(** [posts.indexOf(post)]: the first index that holds the same object. *)
Definition indexOf (posts : list Post) (post : Post) : Z :=
  indexOf_from 0 posts post.

(** [posts.slice(start)] *)
Definition slice (posts : list Post) (start : Z) : list Post :=
  if start <? 0
  then skipn (List.length posts - Z.to_nat (- start)) posts
  else skipn (Z.to_nat start) posts.

(** ** The loop of [fetchPosts] *)

(** [limit === 1 ? 3 : Math.max(3, limit * 3)] *)
Definition maxRequests (limit : Z) : Z :=
  if limit =? 1 then 3 else Z.max 3 (limit * 3).

(** [Math.min(limit + 5, 100)] *)
Definition batchSize (limit : Z) : Z := Z.min (limit + 5) 100.

(** Lines 42-45. *)
Definition baseUrl (subreddit sort : string) (limit : Z)
    (timeFilter : option string) : string :=
  let base := ("https://oauth.reddit.com/r/" ++ subreddit ++ "/" ++ sort
               ++ ".json?limit=" ++ of_Z (batchSize limit))%string in
  if (String.eqb sort "top" && truthy timeFilter)%bool
  then (base ++ "&t=" ++ match timeFilter with Some t => t | None => "" end)%string
  else base.

(** Lines 63-99: one post of the page is looked at and pushed on one of the
    two lists. [post.url.toLowerCase()] throws when there is no [url]. *)
Definition classify_post (limit : Z) (post : Post) (st : RunState) : Completion :=
  match url (data post) with
  | None => Throw TypeError st
  | Some u =>
      if has_media_suffix u then
        if media_length st <? limit
        then Normal (push_media post st)
        else Normal (push_nonMedia [post] st)
      else
        let previewUrl := previewUrl (data post) in
        if has_media_suffix previewUrl then
          if media_length st <? limit
          then Normal (push_media (set_url post previewUrl) st)
          else Normal (push_nonMedia [post] st)
        else Normal (push_nonMedia [post] st)
  end.

(** Lines 62-106: [for (const post of posts)], [todo] being the posts not
    yet visited. *)
Fixpoint for_posts (limit : Z) (posts todo : list Post) (st : RunState)
    : Completion :=
  match todo with
  | [] => Normal st
  | post :: todo' =>
      match classify_post limit post st with
      | Normal st1 =>
          if media_length st1 >=? limit
          then Normal (push_nonMedia (slice posts (indexOf posts post + 1)) st1)
          else for_posts limit posts todo' st1
      | other => other
      end
  end.

Section Loop.

Variable env : Env.
Variable token : string.
Variable base : string.     (* [baseUrl] *)
Variable limit : Z.

(** Line 48: the condition of the [while]. *)
Definition loop_condition (st : RunState) : bool :=
  (media_length st <? limit) && (requestCount st <? maxRequests limit).

(** Lines 113-122: the prompt after the third page of a run for one post
    that has found none. *)
Definition stall_check (st : RunState) : Completion :=
  if (limit =? 1) && (requestCount st =? 2) && (media_length st =? 0) then
    let continueFetching := confirm env (count is_confirm (trace st)) in
    let st := emit (EvConfirm continueFetching) st in
    if negb continueFetching
    then Break (updateStatus StoppedNoImages true st)
    else Normal st
  else Normal st.

(** Lines 124-131: the cursor moves on, the request is counted, and the
    run sleeps one second unless the listing is at its end. *)
Definition advance (next : option string) (st : RunState) : Completion :=
  let st := set_after next st in
  let st := incr_requestCount st in
  if negb (truthy next) then Break st
  else
    let st := updateStatus
                (FetchedSoFar (List.length (mediaPosts st)) limit) false st in
    Normal (emit (EvSleep 1000) st).

(** Line 49: the address that the next page is asked at. *)
Definition page_url (st : RunState) : string :=
  match after st with
  | Some (String c a) => (base ++ "&after=" ++ String c a)%string
  | _ => base
  end.

(** Lines 50-55: the answer to the next page request. *)
Definition page_response (st : RunState) : Response :=
  listing_endpoint env (fetch_count (trace st)) token (page_url st).

(** The state after the request of line 50. *)
Definition fetched (st : RunState) : RunState :=
  emit (EvFetch (page_url st) (page_response st)) st.

(** The prompt of line 115 is shown: the third iteration of a run for
    one post that has found none. *)
Definition stall_fires (st : RunState) : Prop :=
  limit = 1 /\ requestCount st = 2 /\ media_length st = 0.

(** Lines 49-131: the body of the [while]. [Normal] is the end of the
    body, from where the condition is tested again. *)
Definition while_body (st : RunState) : Completion :=
  let k := fetch_count (trace st) in
  let response := page_response st in
  let st := fetched st in
  match response with
  | ListingFail => Throw TransportError st
  | ListingError error => Throw (ApiError error) st
  | Listing children next =>
      let posts := posts_of k children in
      if (List.length posts =? 0)%nat then Break st
      else
        match for_posts limit posts posts st with
        | Normal st =>
            if media_length st >=? limit then Break st
            else
              match stall_check st with
              | Normal st => advance next st
              | other => other
              end
        | other => other
        end
  end.

(** Lines 48-132. A [Break] of the body ends the loop normally. *)
Fixpoint while_loop (fuel : nat) (st : RunState) : option Completion :=
  if loop_condition st then
    match fuel with
    | O => None
    | S fuel' =>
        match while_body st with
        | Normal st' => while_loop fuel' st'
        | Break st' => Some (Normal st')
        | Throw e st' => Some (Throw e st')
        end
    end
  else Some (Normal st).

End Loop.

(** ** [getAccessToken] and [fetchPosts] *)

Definition empty_state (tr : list Event) : RunState :=
  {| mediaPosts := []; nonMediaPosts := []; after := Some "";
     requestCount := 0; trace := tr |}.

(** Lines 8-27. The trace is carried in a state whose lists stay empty.
    The argument of [fetch] is evaluated before the call: when [btoa]
    throws on line 14 no request is made, and the [catch] of lines 23-25
    reports the error and returns [null]. *)
Definition getAccessToken (env : Env) (clientId clientSecret : string)
    (st : RunState) : option string * RunState :=
  let st := updateStatus FetchingToken false st in
  if btoa_defined (clientId ++ ":" ++ clientSecret)%string then
    let response := token_endpoint env clientId clientSecret in
    let st := emit (EvToken response) st in
    match response with
    | TokenFail => (None, updateStatus (ErrorToken TransportError) true st)
    | TokenError error => (None, updateStatus (ErrorToken (ApiError error)) true st)
    | TokenData access_token => (access_token, updateStatus TokenRetrieved false st)
    end
  else (None, updateStatus (ErrorToken InvalidCharacterError) true st).

(** What [fetchPosts] resolves to, with the trace of the run. *)
Record Result := {
  res_mediaPosts : list Post;
  res_nonMediaPosts : list Post;
  res_trace : list Event
}.

(** Lines 31-135: the [try] block. Both [return]s complete it normally,
    the early one of line 34 with the two lists still empty; [Throw] carries
    the state in which the exception was raised. *)
Definition try_block (env : Env) (clientId clientSecret subreddit sort : string)
    (limit : Z) (timeFilter : option string) (fuel : nat)
    : option Completion :=
  let st := updateStatus FetchingPosts false (empty_state []) in
  let (token, st) := getAccessToken env clientId clientSecret st in
  match token with
  | Some (String c t) =>
      match while_loop env (String c t)
                       (baseUrl subreddit sort limit timeFilter)
                       limit fuel (empty_state (trace st)) with
      | None => None
      | Some (Throw e st') => Some (Throw e st')
      | Some done =>
          let st' := state_of done in
          Some (Normal (updateStatus (Success (List.length (mediaPosts st')))
                                     false st'))
      end
  | _ => Some (Normal st)
  end.

(** Lines 30-140, with [fuel] iterations of the loop at most: the [catch]
    block reports the error and returns two empty lists. *)
Definition fetchPosts_fuel (env : Env) (clientId clientSecret subreddit sort : string)
    (limit : Z) (timeFilter : option string) (fuel : nat) : option Result :=
  match try_block env clientId clientSecret subreddit sort limit timeFilter fuel with
  | None => None
  | Some (Throw e st) =>
      let st := updateStatus (ErrorFetching e) true st in
      Some {| res_mediaPosts := []; res_nonMediaPosts := [];
              res_trace := trace st |}
  | Some done =>
      let st := state_of done in
      Some {| res_mediaPosts := mediaPosts st;
              res_nonMediaPosts := nonMediaPosts st;
              res_trace := trace st |}
  end.

(** [fetchPosts]: the budget [maxRequests] is all the fuel the loop needs
    ([fetchPosts_total]). *)
Definition fetchPosts (env : Env) (clientId clientSecret subreddit sort : string)
    (limit : Z) (timeFilter : option string) : option Result :=
  fetchPosts_fuel env clientId clientSecret subreddit sort limit timeFilter
                  (Z.to_nat (maxRequests limit)).

(** [displayMedia], line 160: the limit that the page passes to
    [fetchPosts]. *)
Definition clamp_limit (limitInput : Z) : Z := Z.min (Z.max limitInput 1) 100.

(** ** Executions as sequences of elementary updates *)

(** The elementary updates of the run state that the loop is made of: the
    push of one classified post, the bulk push of line 103, the two
    assignments of lines 125-126, and a logged interaction. *)
Inductive prim_step (limit : Z) : RunState -> RunState -> Prop :=
| step_classify post st st' :
    classify_post limit post st = Normal st' -> prim_step limit st st'
| step_bulk posts st : prim_step limit st (push_nonMedia posts st)
| step_after next st : prim_step limit st (set_after next st)
| step_incr st : prim_step limit st (incr_requestCount st)
| step_emit e st : prim_step limit st (emit e st).

(** [path limit st st']: [st'] comes after [st] in an execution. *)
Definition path (limit : Z) : RunState -> RunState -> Prop :=
  clos_refl_trans RunState (prim_step limit).

(** The states of the runs with this limit: whatever follows the state in
    which [fetchPosts] starts. *)
Definition reachable (limit : Z) (st : RunState) : Prop :=
  path limit (empty_state []) st.

(** ** What a trace tells *)

(** The posts that the pages of a trace delivered, in arrival order; [k]
    is the number of the first page request of the trace. *)
Fixpoint delivered_from (k : nat) (tr : list Event) : list Post :=
  match tr with
  | [] => []
  | EvFetch _ (Listing children _) :: tr' =>
      posts_of k children ++ delivered_from (S k) tr'
  | EvFetch _ _ :: tr' => delivered_from (S k) tr'
  | _ :: tr' => delivered_from k tr'
  end.

Definition delivered (tr : list Event) : list Post := delivered_from 0 tr.

Definition mem_oid (o : nat * nat) (l : list (nat * nat)) : bool :=
  existsb (oid_eqb o) l.

(** Is this object one of [mediaPosts]? *)
Definition in_media (media : list Post) (p : Post) : bool :=
  mem_oid (oid p) (map oid media).

(** The run ended in the [catch] block of [fetchPosts]. *)
Definition reports_error (tr : list Event) : bool :=
  existsb (fun e => match e with
                    | EvStatus (ErrorFetching _) _ => true
                    | _ => false
                    end) tr.

(** What a trace holds after its last page request ([[]] when it has
    none). *)
Fixpoint after_last_fetch (tr : list Event) : list Event :=
  match tr with
  | [] => []
  | e :: tr' =>
      if existsb is_fetch tr' then after_last_fetch tr'
      else if is_fetch e then tr' else []
  end.

(** A sleep follows the last page request of the trace. *)
Definition sleeps_after_last_fetch (tr : list Event) : bool :=
  existsb is_sleep (after_last_fetch tr).

(** ** Three worlds to run the script in *)

Module Examples.

Definition link (u : string) : PostData :=
  {| url := Some u; permalink := "/r/pics/comments/1"; title := "a link";
     preview := None |}.

Definition with_preview (u : string) (src : option string)
    (gifsrc : option string) : PostData :=
  {| url := Some u; permalink := "/r/pics/comments/2"; title := "a preview";
     preview :=
       Some {| images :=
         Some [ {| source := Some {| source_url := src |};
                   variants :=
                     Some {| gif := Some {| gif_source :=
                               Some {| source_url := gifsrc |} |} |} |} ] |} |}.

(** No [url] at all. *)
Definition no_url : PostData :=
  {| url := None; permalink := "/r/pics/comments/3"; title := "no url";
     preview := None |}.

(** Every page holds one link that is no image, and a next cursor; the
    operator answers yes. *)
Definition barren : Env :=
  {| token_endpoint := fun _ _ => TokenData (Some "tok");
     listing_endpoint := fun _ _ _ =>
       Listing [link "https://x.com/a.html"] (Some "t3_a");
     confirm := fun _ => true |}.

(** The same pages, and an operator who answers no. *)
Definition declining : Env :=
  {| token_endpoint := fun _ _ => TokenData (Some "tok");
     listing_endpoint := fun _ _ _ =>
       Listing [link "https://x.com/a.html"] (Some "t3_a");
     confirm := fun _ => false |}.

(** The first page is fine, the second request fails. *)
Definition failing : Env :=
  {| token_endpoint := fun _ _ => TokenData (Some "tok");
     listing_endpoint := fun k _ _ =>
       match k with
       | O => Listing [link "https://x.com/a.html"] (Some "t3_a")
       | _ => ListingError "Too Many Requests"
       end;
     confirm := fun _ => true |}.

(** Pages of four posts: a link, two images and a post that has an
    image in its preview. *)
Definition rich : Env :=
  {| token_endpoint := fun _ _ => TokenData (Some "tok");
     listing_endpoint := fun _ _ _ =>
       Listing [ link "https://x.com/a.html";
                 link "https://x.com/a.JPG?x=1";
                 link "https://i.redd.it/b.png";
                 with_preview "https://x.com/c.html"
                              (Some "https://y.com/b.png?w=1") None ]
               (Some "t3_b");
     confirm := fun _ => false |}.

End Examples.

(** ** Bookkeeping of the two lists *)

(** Every delivered post is accounted for: [nonMediaPosts] holds the
    delivered posts that are not on [mediaPosts], in arrival order, and
    the objects of [mediaPosts] come from pages already requested. *)
Definition accounted (st : RunState) : Prop :=
  nonMediaPosts st
    = filter (fun p => negb (in_media (mediaPosts st) p)) (delivered (trace st))
  /\ forall o, In o (map oid (mediaPosts st)) ->
       (fst o < fetch_count (trace st))%nat.

(** No page request of the trace failed. *)
Definition all_pages_ok (tr : list Event) : Prop :=
  forall u r, In (EvFetch u r) tr -> is_failure r = false.

(** ** Runs and pages of the three worlds *)

Module Cases.

Import Examples.

(** The posts of a page in which the third post is the second image, the
    fourth has an image in its preview and the fifth has no [url]. *)
Definition p0 : Post := {| oid := (0, 0)%nat; data := link "https://x.com/a.html" |}.
Definition p1 : Post := {| oid := (0, 1)%nat; data := link "https://x.com/a.JPG?x=1" |}.
Definition p2 : Post := {| oid := (0, 2)%nat; data := link "https://i.redd.it/b.png" |}.
Definition p3 : Post :=
  {| oid := (0, 3)%nat;
     data := with_preview "https://x.com/c.html" (Some "https://y.com/b.png?w=1") None |}.
Definition p4 : Post := {| oid := (0, 4)%nat; data := no_url |}.

(** One post asked for in the barren world: three pages, the prompt, yes. *)
Definition barren_run : option Result :=
  fetchPosts barren "id" "secret" "pics" "best" 1 None.

Definition barren_try : option Completion :=
  try_block barren "id" "secret" "pics" "best" 1 None (Z.to_nat (maxRequests 1)).

(** Five posts asked for in the world whose second page fails. *)
Definition failing_run : option Result :=
  fetchPosts failing "id" "secret" "pics" "best" 5 None.

Definition failing_try : option Completion :=
  try_block failing "id" "secret" "pics" "best" 5 None (Z.to_nat (maxRequests 5)).

(** Two posts asked for in the rich world. *)
Definition rich_run : option Result :=
  fetchPosts rich "id" "secret" "pics" "top" 2 (Some "day").

End Cases.

(** [examined limit todo st q s]: the loop of lines 62-106, entered in
    state [st] with [todo] to visit, comes to look at the post [q] in
    state [s]. *)
Inductive examined (limit : Z) : list Post -> RunState -> Post -> RunState -> Prop :=
| examined_head q todo st : examined limit (q :: todo) st q st
| examined_tail p todo st st1 q s :
    classify_post limit p st = Normal st1 ->
    (media_length st1 >=? limit) = false ->
    examined limit todo st1 q s ->
    examined limit (p :: todo) st q s.

(** ** More to read off a trace *)

Definition is_token (e : Event) : bool :=
  match e with EvToken _ => true | _ => false end.

(** Line 49 again, from the cursor alone. *)
Definition url_for (base : string) (cursor : option string) : string :=
  match cursor with
  | Some (String c a) => (base ++ "&after=" ++ String c a)%string
  | _ => base
  end.

(** The cursor that a page request leaves behind. *)
Definition cursor_after (cursor : option string) (r : Response) : option string :=
  match r with
  | Listing _ next => next
  | _ => cursor
  end.

(** Every page request of the trace is made at the address of the cursor
    that the request before it returned, the first one at the address of
    [cursor]. *)
Fixpoint chained (base : string) (cursor : option string) (tr : list Event) : Prop :=
  match tr with
  | [] => True
  | EvFetch u r :: tr' =>
      u = url_for base cursor /\ chained base (cursor_after cursor r) tr'
  | _ :: tr' => chained base cursor tr'
  end.

(** The page request is one after which the loop can turn again: a page
    that is not empty, with a next cursor. *)
Definition page_goes_on (r : Response) : bool :=
  match r with
  | Listing (_ :: _) next => truthy next
  | _ => false
  end.

(** Every page request of the trace but the last is one after which the
    loop can turn again. *)
Fixpoint pages_go_on (tr : list Event) : Prop :=
  match tr with
  | [] => True
  | EvFetch u r :: tr' =>
      (existsb is_fetch tr' = true -> page_goes_on r = true) /\ pages_go_on tr'
  | _ :: tr' => pages_go_on tr'
  end.

(** [derived q p]: the object [p] is the delivered object [q], as it was
    or with its [url] overwritten by its preview address (line 91). *)
Definition derived (q p : Post) : Prop :=
  p = q \/ p = set_url q (previewUrl (data q)).

(** The post has an address that is an image. *)
Definition has_image_url (p : Post) : Prop :=
  exists u, url (data p) = Some u /\ has_media_suffix u = true.

(** [classified q p]: the delivered object [q] is on [mediaPosts] as [p],
    which is [q] as it was delivered when its own address is an image
    (lines 67-74), and [q] with its [url] overwritten by its preview
    address when its own address is no image and that of its preview is
    one (lines 84-92). *)
Definition classified (q p : Post) : Prop :=
  exists u,
    url (data q) = Some u
    /\ ((has_media_suffix u = true /\ p = q)
        \/ (has_media_suffix u = false
            /\ has_media_suffix (previewUrl (data q)) = true
            /\ p = set_url q (previewUrl (data q)))).

(** The milliseconds that a trace sleeps. *)
Fixpoint slept (tr : list Event) : Z :=
  match tr with
  | [] => 0
  | EvSleep ms :: tr' => ms + slept tr'
  | _ :: tr' => slept tr'
  end.

(** ** [displayMedia] *)

(** What [displayMedia] reads from the page on lines 144-149: the three
    text fields after [trim()], what [parseInt] made of the limit field
    ([None] is [NaN]), and the [data-sort] and [data-time] of the active
    buttons, if any. *)
Record Inputs := {
  client_id : string;
  client_secret : string;
  subreddit_input : string;
  limit_input : option Z;
  active_sort : option string;
  active_time : option string
}.

(** The texts that [displayMedia] itself calls [updateStatus] with. *)
Inductive PageStatus :=
| EnterCredentials
| EnterSubreddit
| OnlyFound (n : nat).

(** What [displayMedia] does to the page: the two containers are emptied,
    the spinner is shown or hidden, [fetchPosts] runs, the two lists are
    rendered (lines 173-209, the nodes themselves are not modelled, nor is
    the [onerror] handler of an image, which runs later), and the status
    bar is written. *)
Inductive UiEvent :=
| UiRun (e : Event)
| UiStatus (message : PageStatus) (isError : bool)
| UiClear
| UiSpinner (shown : bool)
| UiRender (mediaPosts nonMediaPosts : list Post).

(** Line 147: [parseInt(...) || 5]. *)
Definition limitInput (inp : Inputs) : Z :=
  match limit_input inp with
  | Some n => if n =? 0 then 5 else n
  | None => 5
  end.

(** Line 148: [...?.dataset.sort || 'best']. *)
Definition chosen_sort (inp : Inputs) : string :=
  match or_else (active_sort inp) (Some "best") with
  | Some s => s
  | None => "best"
  end.

(** Line 149: [sort === 'top' ? ...?.dataset.time || 'day' : null]. *)
Definition chosen_timeFilter (inp : Inputs) : option string :=
  if String.eqb (chosen_sort inp) "top"
  then or_else (active_time inp) (Some "day")
  else None.

(** Lines 143-215. *)
Definition displayMedia (env : Env) (inp : Inputs) : option (list UiEvent) :=
  let clientId := client_id inp in
  let clientSecret := client_secret inp in
  let redditInput := subreddit_input inp in
  let sort := chosen_sort inp in
  let timeFilter := chosen_timeFilter inp in
  if negb (truthy (Some clientId)) || negb (truthy (Some clientSecret)) then
    Some [UiStatus EnterCredentials true]
  else if negb (truthy (Some redditInput)) then
    Some [UiStatus EnterSubreddit true]
  else
    let limit := clamp_limit (limitInput inp) in
    match fetchPosts env clientId clientSecret redditInput sort limit timeFilter with
    | None => None
    | Some res =>
        let mediaPosts := res_mediaPosts res in
        let nonMediaPosts := res_nonMediaPosts res in
        Some ([UiClear; UiSpinner true]
              ++ map UiRun (res_trace res)
              ++ [UiSpinner false; UiRender mediaPosts nonMediaPosts]
              ++ (if Z.of_nat (List.length mediaPosts) <? limit
                  then [UiStatus (OnlyFound (List.length mediaPosts)) true]
                  else []))
    end.

(** What the status bar can show. *)
Inductive BarText :=
| BarRun (message : Status)
| BarPage (message : PageStatus).

(** The text of the status bar and whether it is red, after these
    events; [None] when nothing was written. *)
Definition status_bar (tr : list UiEvent) : option (BarText * bool) :=
  fold_left (fun bar e =>
               match e with
               | UiRun (EvStatus message isError) => Some (BarRun message, isError)
               | UiStatus message isError => Some (BarPage message, isError)
               | _ => bar
               end) tr None.

(** The events of [fetchPosts] among those of [displayMedia]. *)
Fixpoint run_events (tr : list UiEvent) : list Event :=
  match tr with
  | [] => []
  | UiRun e :: tr' => e :: run_events tr'
  | _ :: tr' => run_events tr'
  end.

(** What [getAccessToken] returns in a run, and what the run has logged
    when it comes back (lines 32-33). *)
Definition token_of (env : Env) (clientId clientSecret : string) : option string :=
  fst (getAccessToken env clientId clientSecret
         (updateStatus FetchingPosts false (empty_state []))).

Definition token_phase (env : Env) (clientId clientSecret : string) : list Event :=
  trace (snd (getAccessToken env clientId clientSecret
                (updateStatus FetchingPosts false (empty_state [])))).

(** A world in which the token endpoint answers with an error. *)
Module MoreExamples.

Definition refused : Env :=
  {| token_endpoint := fun _ _ => TokenError "invalid_grant";
     listing_endpoint := fun _ _ _ =>
       Listing [Examples.link "https://i.redd.it/b.png"] (Some "t3_a");
     confirm := fun _ => true |}.

(** The fields of the page, filled in; the limit field is empty. *)
Definition filled : Inputs :=
  {| client_id := "id"; client_secret := "secret"; subreddit_input := "pics";
     limit_input := None; active_sort := Some "top"; active_time := None |}.

(** No client secret. *)
Definition no_secret : Inputs :=
  {| client_id := "id"; client_secret := ""; subreddit_input := "pics";
     limit_input := Some 3; active_sort := None; active_time := None |}.

(** U+00E9, two bytes in UTF-8: [btoa] takes it. *)
Definition e_acute : string :=
  String (ascii_of_nat 195) (String (ascii_of_nat 169) "").

(** U+2603, three bytes in UTF-8: [btoa] throws on it. *)
Definition snowman : string :=
  String (ascii_of_nat 226) (String (ascii_of_nat 152)
    (String (ascii_of_nat 131) "")).

(** The three fields filled in, with a client id that [btoa] rejects. *)
Definition filled_snowman : Inputs :=
  {| client_id := snowman; client_secret := "secret";
     subreddit_input := "pics"; limit_input := None;
     active_sort := Some "top"; active_time := None |}.

End MoreExamples.

(** Every post on [mediaPosts] is a delivered post, put there by its own
    address or by that of its preview. *)
Definition sourced (st : RunState) : Prop :=
  forall p, In p (mediaPosts st) ->
    exists q, In q (delivered (trace st)) /\ classified q p.

(** The posts on [mediaPosts] are the delivered posts that are on it, in
    arrival order, each as it was delivered or with its preview
    address. *)
Definition listed (st : RunState) : Prop :=
  Forall2 derived
          (filter (in_media (mediaPosts st)) (delivered (trace st)))
          (mediaPosts st).

(** ** Classification of one post *)

Lemma has_media_suffix_empty : has_media_suffix "" = false.
Proof. reflexivity. Qed.

Lemma previewUrl_absent (d : PostData) :
  image_source_url d = None -> gif_source_url d = None -> previewUrl d = "".
Proof. unfold previewUrl. intros -> ->. reflexivity. Qed.

Lemma previewUrl_no_preview (d : PostData) :
  preview d = None -> previewUrl d = "".
Proof.
  intros H. apply previewUrl_absent.
  - unfold image_source_url, first_image. simpl. rewrite H. reflexivity.
  - unfold gif_source_url, first_image. simpl. rewrite H. reflexivity.
Qed.

(** The three ways in which [classify_post] ends. *)
Lemma classify_post_cases (limit : Z) (post : Post) (st : RunState) :
  (url (data post) = None /\ classify_post limit post st = Throw TypeError st)
  \/ (exists post', oid post' = oid post /\ media_length st < limit /\
        classify_post limit post st = Normal (push_media post' st))
  \/ classify_post limit post st = Normal (push_nonMedia [post] st).
Proof.
  unfold classify_post.
  destruct (url (data post)) as [u|]; [|left; split; reflexivity].
  right.
  destruct (has_media_suffix u).
  - destruct (Z.ltb_spec (media_length st) limit).
    + left. exists post. repeat split; assumption.
    + right. reflexivity.
  - destruct (has_media_suffix (previewUrl (data post))).
    + destruct (Z.ltb_spec (media_length st) limit).
      * left. exists (set_url post (previewUrl (data post))).
        repeat split; assumption.
      * right. reflexivity.
    + right. reflexivity.
Qed.

Ltac classify_cases limit post st :=
  let Hu := fresh "Hurl" in
  let Hc := fresh "Hcls" in
  let p' := fresh "post'" in
  let Ho := fresh "Hoid" in
  let Hl := fresh "Hshort" in
  destruct (classify_post_cases limit post st)
    as [[Hu Hc] | [(p' & Ho & Hl & Hc) | Hc]].

Lemma media_length_push_media post st :
  media_length (push_media post st) = media_length st + 1.
Proof. unfold media_length. simpl. rewrite length_app. simpl. lia. Qed.

Lemma media_length_push_nonMedia posts st :
  media_length (push_nonMedia posts st) = media_length st.
Proof. reflexivity. Qed.

(** C8: a post whose own address is no image but whose preview address is
    one (lowercased, query string cut) is pushed on [mediaPosts] with its
    [url] overwritten by the preview address as it was found, in its
    original case and with its query string. The post is looked at while
    [mediaPosts] is short of the limit, as line 90 tests and as lines 48
    and 102 make sure. *)
Theorem preview_fallback_is_media :
  forall (limit : Z) (post : Post) (st : RunState) (u : string),
    url (data post) = Some u ->
    has_media_suffix u = false ->
    has_media_suffix (previewUrl (data post)) = true ->
    media_length st < limit ->
    classify_post limit post st
      = Normal (push_media (set_url post (previewUrl (data post))) st)
    /\ url (data (set_url post (previewUrl (data post))))
       = Some (previewUrl (data post))
    /\ mediaPosts (push_media (set_url post (previewUrl (data post))) st)
       = mediaPosts st ++ [set_url post (previewUrl (data post))].
Proof.
  intros limit post st u Hu Hprim Hprev Hshort.
  split; [|split; reflexivity].
  unfold classify_post. rewrite Hu, Hprim, Hprev.
  apply Z.ltb_lt in Hshort. rewrite Hshort. reflexivity.
Qed.

(** The scenario of the specification: [a.html] with a preview
    [b.png?w=1]. *)
Lemma preview_fallback_is_media_witness :
  let post := {| oid := (0, 0)%nat;
                 data := Examples.with_preview "https://x.com/a.html"
                           (Some "https://y.com/b.png?w=1") None |} in
  classify_post 5 post (empty_state [])
    = Normal (push_media (set_url post "https://y.com/b.png?w=1") (empty_state []))
  /\ url (data (set_url post "https://y.com/b.png?w=1"))
     = Some "https://y.com/b.png?w=1"
  /\ mediaPosts (push_media (set_url post "https://y.com/b.png?w=1") (empty_state []))
     = [set_url post "https://y.com/b.png?w=1"].
Proof.
  intros post.
  apply (@preview_fallback_is_media 5 post (empty_state []) "https://x.com/a.html").
  - reflexivity.
  - reflexivity.
  - reflexivity.
  - reflexivity.
Defined.

(** The loop over a page looks at a post only while [mediaPosts] is short
    of the limit, when it was so on entry (line 48); and it goes on from
    there as the loop over what is left of the page. *)
Lemma examined_short (limit : Z) (todo : list Post) (st s : RunState) (q : Post) :
  examined limit todo st q s ->
  media_length st < limit ->
  media_length s < limit.
Proof.
  induction 1 as [q todo st | p todo st st1 q s Hc Hs _ IH]; intros Hst.
  - exact Hst.
  - apply IH. rewrite Z.geb_leb in Hs. apply Z.leb_gt in Hs. exact Hs.
Qed.

Lemma examined_for_posts (limit : Z) (posts todo : list Post)
    (st s : RunState) (q : Post) :
  examined limit todo st q s ->
  exists rest,
    for_posts limit posts todo st = for_posts limit posts (q :: rest) s.
Proof.
  induction 1 as [q todo st | p todo st st1 q s Hc Hs _ IH].
  - exists todo. reflexivity.
  - destruct IH as [rest IH]. exists rest.
    simpl for_posts at 1. rewrite Hc, Hs. exact IH.
Qed.

(** C2, as the script has it: a post that has a [url] never makes the
    classification throw, whatever is missing of its preview; a preview
    address that is absent counts as the empty string, which is no image;
    and a post that is an image by neither address is pushed on
    [nonMediaPosts]. *)
Theorem classify_post_never_throws_with_url :
  forall (limit : Z) (post : Post) (st : RunState) (u : string),
    url (data post) = Some u ->
    (exists st', classify_post limit post st = Normal st')
    /\ (image_source_url (data post) = None ->
        gif_source_url (data post) = None ->
        previewUrl (data post) = "" /\ has_media_suffix (previewUrl (data post)) = false)
    /\ (preview (data post) = None -> previewUrl (data post) = "")
    /\ (has_media_suffix u = false ->
        has_media_suffix (previewUrl (data post)) = false ->
        classify_post limit post st = Normal (push_nonMedia [post] st)).
Proof.
  intros limit post st u Hu. repeat split.
  - classify_cases limit post st.
    + congruence.
    + eexists; eassumption.
    + eexists; eassumption.
  - apply previewUrl_absent; assumption.
  - rewrite previewUrl_absent by assumption. reflexivity.
  - apply previewUrl_no_preview.
  - intros H1 H2. unfold classify_post. rewrite Hu, H1, H2. reflexivity.
Qed.

Lemma classify_post_never_throws_with_url_witness :
  let post := {| oid := (0, 0)%nat; data := Examples.link "" |} in
  (exists st', classify_post 5 post (empty_state []) = Normal st')
  /\ (image_source_url (data post) = None ->
      gif_source_url (data post) = None ->
      previewUrl (data post) = "" /\ has_media_suffix (previewUrl (data post)) = false)
  /\ (preview (data post) = None -> previewUrl (data post) = "")
  /\ (has_media_suffix "" = false ->
      has_media_suffix (previewUrl (data post)) = false ->
      classify_post 5 post (empty_state []) = Normal (push_nonMedia [post] (empty_state []))).
Proof.
  intros post.
  apply (@classify_post_never_throws_with_url 5 post (empty_state []) "").
  reflexivity.
Defined.

(** C2, as the specification has it, fails: a post without [url] makes
    line 64 throw, and the run that meets it ends in the [catch] block. *)
Lemma classify_post_throws_without_url :
  let post := {| oid := (0, 0)%nat; data := Examples.no_url |} in
  classify_post 5 post (empty_state []) = Throw TypeError (empty_state [])
  /\ ~ (exists st', classify_post 5 post (empty_state []) = Normal st').
Proof.
  intros post. split; [reflexivity|].
  intros [st' H]. discriminate H.
Qed.

(** C10: a first image whose source address is the empty string resolves
    like one whose source has no address and like one that has no source:
    to the address of the source of the gif variant, and to the empty
    string when that one is absent or empty too. *)
Theorem empty_source_url_is_absent :
  forall (u : option string) (pl t : string) (vs : option Variants)
         (more : list Image),
    let item src :=
      {| url := u; permalink := pl; title := t;
         preview := Some {| images :=
           Some ({| source := src; variants := vs |} :: more) |} |} in
    let fallback :=
      match vs ?. gif ?. gif_source ?. source_url with
      | Some (String c s) => String c s
      | _ => ""
      end in
    previewUrl (item (Some {| source_url := Some "" |})) = fallback
    /\ previewUrl (item (Some {| source_url := None |})) = fallback
    /\ previewUrl (item None) = fallback.
Proof.
  intros u pl t vs more item fallback. subst item fallback.
  unfold previewUrl, image_source_url, gif_source_url, first_image. simpl.
  destruct (vs ?. gif ?. gif_source ?. source_url) as [[|c s]|];
    repeat split; reflexivity.
Qed.

(** ** The loop, block by block *)

Lemma path_refl limit st : path limit st st.
Proof. apply rt_refl. Qed.

Lemma path_step limit st st' : prim_step limit st st' -> path limit st st'.
Proof. apply rt_step. Qed.

Lemma path_trans limit st1 st2 st3 :
  path limit st1 st2 -> path limit st2 st3 -> path limit st1 st3.
Proof. apply rt_trans. Qed.

Lemma path_then limit st1 st2 st3 :
  path limit st1 st2 -> prim_step limit st2 st3 -> path limit st1 st3.
Proof. intros H1 H2. eapply path_trans; [exact H1 | apply path_step, H2]. Qed.

(** What [classify_post] leaves alone. *)
Lemma classify_post_frame limit post st :
  let st' := state_of (classify_post limit post st) in
  trace st' = trace st /\ after st' = after st /\
  requestCount st' = requestCount st.
Proof.
  classify_cases limit post st; rewrite Hcls; simpl; auto.
Qed.

Lemma classify_post_path limit post st :
  path limit st (state_of (classify_post limit post st)).
Proof.
  destruct (classify_post limit post st) eqn:E; simpl.
  - apply path_step. eapply step_classify. exact E.
  - unfold classify_post in E.
    repeat match type of E with
           | context [match ?x with _ => _ end] => destruct x
           end; discriminate.
  - classify_cases limit post st; rewrite Hcls in E; try discriminate.
    injection E as _ <-. apply path_refl.
Qed.

Lemma for_posts_frame limit posts todo :
  forall st,
    let st' := state_of (for_posts limit posts todo st) in
    trace st' = trace st /\ after st' = after st /\
    requestCount st' = requestCount st.
Proof.
  induction todo as [|post todo IH]; intros st; simpl; [auto|].
  pose proof (classify_post_frame limit post st) as F.
  destruct (classify_post limit post st) as [st1|st1|e st1]; simpl in F.
  - destruct (media_length st1 >=? limit).
    + simpl. exact F.
    + destruct (IH st1) as (A & B & C). destruct F as (A' & B' & C').
      repeat split; congruence.
  - exact F.
  - exact F.
Qed.

Lemma for_posts_no_break limit posts todo :
  forall st st', for_posts limit posts todo st <> Break st'.
Proof.
  induction todo as [|post todo IH]; intros st st'; simpl; [discriminate|].
  classify_cases limit post st; rewrite Hcls; try discriminate;
    match goal with |- context [if ?b then _ else _] => destruct b end;
    try discriminate; apply IH.
Qed.

Lemma for_posts_path limit posts todo :
  forall st, path limit st (state_of (for_posts limit posts todo st)).
Proof.
  induction todo as [|post todo IH]; intros st; simpl; [apply path_refl|].
  pose proof (classify_post_path limit post st) as P.
  destruct (classify_post limit post st) as [st1|st1|e st1]; simpl in P; auto.
  destruct (media_length st1 >=? limit); simpl.
  - eapply path_then; [exact P | apply step_bulk].
  - eapply path_trans; [exact P | apply IH].
Qed.

Section LoopFacts.

Variable env : Env.
Variable token : string.
Variable base : string.
Variable limit : Z.

(** The three ways through lines 113-122. *)
Lemma stall_check_cases (st : RunState) :
  stall_check env limit st = Normal st
  \/ (stall_fires limit st /\
      stall_check env limit st = Normal (emit (EvConfirm true) st))
  \/ (stall_fires limit st /\
      stall_check env limit st
        = Break (updateStatus StoppedNoImages true (emit (EvConfirm false) st))).
Proof.
  unfold stall_check, stall_fires.
  destruct (Z.eqb_spec limit 1); simpl; auto.
  destruct (Z.eqb_spec (requestCount st) 2); simpl; auto.
  destruct (Z.eqb_spec (media_length st) 0); simpl; auto.
  destruct (confirm env (count is_confirm (trace st))); simpl;
    [right; left | right; right]; repeat split; assumption.
Qed.

(** The two ways through lines 124-131. *)
Lemma advance_cases (next : option string) (st : RunState) :
  let st' := incr_requestCount (set_after next st) in
  (truthy next = false /\ advance limit next st = Break st')
  \/ (truthy next = true /\
      advance limit next st
        = Normal (emit (EvSleep 1000)
                    (updateStatus
                       (FetchedSoFar (List.length (mediaPosts st)) limit)
                       false st'))).
Proof.
  unfold advance. destruct (truthy next); simpl; auto.
Qed.

(** The ways through the body of the [while]: the request fails; the
    page is empty; a post throws; the list is full; the operator
    declines; the listing ends; the body runs to its end. *)
Lemma while_body_cases (st : RunState) :
  let k := fetch_count (trace st) in
  (exists e, is_failure (page_response env token base st) = true /\
     while_body env token base limit st = Throw e (fetched env token base st))
  \/ (exists children next,
        page_response env token base st = Listing children next /\
        let posts := posts_of k children in
        (children = [] /\
           while_body env token base limit st = Break (fetched env token base st))
        \/ (exists e st2,
              for_posts limit posts posts (fetched env token base st) = Throw e st2 /\
              while_body env token base limit st = Throw e st2)
        \/ (exists st2,
              for_posts limit posts posts (fetched env token base st) = Normal st2 /\
              children <> [] /\
              ((limit <= media_length st2 /\
                  while_body env token base limit st = Break st2)
               \/ (media_length st2 < limit /\
                   while_body env token base limit st
                     = match stall_check env limit st2 with
                       | Normal st3 => advance limit next st3
                       | other => other
                       end)))).
Proof.
  intros k. unfold while_body. fold k.
  destruct (page_response env token base st) as [| error | children next] eqn:R.
  - left. exists TransportError. split; reflexivity.
  - left. exists (ApiError error). split; reflexivity.
  - right. exists children, next. split; [reflexivity|]. simpl.
    destruct children as [|c children'].
    + left. split; reflexivity.
    + right.
      assert (Hlen : (List.length (posts_of k (c :: children')) =? 0)%nat = false).
      { unfold posts_of. rewrite length_map, length_combine, length_seq.
        simpl. reflexivity. }
      rewrite Hlen.
      destruct (for_posts limit (posts_of k (c :: children'))
                  (posts_of k (c :: children')) (fetched env token base st))
        as [st2|st2|e st2] eqn:F.
      * right. exists st2. split; [reflexivity|]. split; [discriminate|].
        destruct (Z.geb_spec (media_length st2) limit).
        -- left. split; [lia | reflexivity].
        -- right. split; [lia | reflexivity].
      * exfalso. eapply for_posts_no_break. exact F.
      * left. exists e, st2. split; reflexivity.
Qed.

End LoopFacts.

Section BodyFacts.

Variable env : Env.
Variable token : string.
Variable base : string.
Variable limit : Z.

Local Abbreviation body := (while_body env token base limit).
Local Abbreviation after_page next st :=
  (match stall_check env limit st with
   | Normal st3 => advance limit next st3
   | other => other
   end).

(** Lines 113-131 on a state [st]: what is logged, what is counted, and
    that a sleep is logged exactly when the body runs to its end. *)
Lemma after_page_summary (next : option string) (st : RunState) :
  exists evs,
    trace (state_of (after_page next st)) = trace st ++ evs
    /\ existsb is_fetch evs = false
    /\ mediaPosts (state_of (after_page next st)) = mediaPosts st
    /\ nonMediaPosts (state_of (after_page next st)) = nonMediaPosts st
    /\ (forall e st', after_page next st <> Throw e st')
    /\ ((exists st', after_page next st = Normal st'
           /\ (exists evs0, evs = evs0 ++ [EvSleep 1000]
                            /\ existsb is_sleep evs0 = false)
           /\ requestCount st' = requestCount st + 1
           /\ after st' = next /\ truthy next = true)
        \/ (exists st', after_page next st = Break st'
              /\ existsb is_sleep evs = false
              /\ (requestCount st' = requestCount st
                  \/ (requestCount st' = requestCount st + 1
                      /\ after st' = next /\ truthy next = false)))).
Proof.
  destruct (stall_check_cases env limit st) as [E | [[_ E] | [_ E]]];
    rewrite E.
  - destruct (advance_cases limit next st) as [[T A] | [T A]];
      cbv zeta in A; rewrite A.
    + exists []. simpl. rewrite app_nil_r.
      repeat split; try discriminate.
      right. eexists. repeat split. right. repeat split. exact T.
    + eexists. simpl. unfold updateStatus, emit. simpl.
      rewrite <- app_assoc. simpl.
      repeat split; try discriminate.
      left. eexists. repeat split; [|exact T].
      eexists [_]. split; reflexivity.
  - destruct (advance_cases limit next (emit (EvConfirm true) st))
      as [[T A] | [T A]]; cbv zeta in A; rewrite A.
    + exists [EvConfirm true]. simpl.
      repeat split; try discriminate.
      right. eexists. repeat split. right. repeat split. exact T.
    + eexists. simpl. rewrite <- !app_assoc. simpl.
      repeat split; try discriminate.
      left. eexists. repeat split; [|exact T].
      eexists [_; _]. split; reflexivity.
  - eexists. simpl. rewrite <- !app_assoc. simpl.
    repeat split; try discriminate.
    right. eexists. repeat split. left. reflexivity.
Qed.

(** One turn of the loop logs one page request, first of all. *)
Lemma while_body_trace (st : RunState) :
  exists evs,
    trace (state_of (body st))
      = trace st ++ EvFetch (page_url base st) (page_response env token base st) :: evs
    /\ existsb is_fetch evs = false
    /\ (existsb is_sleep evs = true <-> exists st', body st = Normal st').
Proof.
  destruct (while_body_cases env token base limit st)
    as [(e & F & B) | (children & next & R & [[C B] | [(e & st2 & F & B) | (st2 & F & C & [[L B] | [L B]])]])];
    cbv zeta in *.
  - rewrite B. exists []. simpl. repeat split; try discriminate.
    intros [st' H]; discriminate.
  - rewrite B. exists []. simpl. repeat split; try discriminate.
    intros [st' H]; discriminate.
  - rewrite B. exists []. simpl.
    pose proof (for_posts_frame limit (posts_of (fetch_count (trace st)) children)
                  (posts_of (fetch_count (trace st)) children)
                  (fetched env token base st)) as (T & _).
    rewrite F in T. simpl in T. rewrite T.
    repeat split; try discriminate. intros [st' H]; discriminate.
  - rewrite B. exists []. simpl.
    pose proof (for_posts_frame limit (posts_of (fetch_count (trace st)) children)
                  (posts_of (fetch_count (trace st)) children)
                  (fetched env token base st)) as (T & _).
    rewrite F in T. simpl in T. rewrite T.
    repeat split; try discriminate. intros [st' H]; discriminate.
  - rewrite B.
    pose proof (for_posts_frame limit (posts_of (fetch_count (trace st)) children)
                  (posts_of (fetch_count (trace st)) children)
                  (fetched env token base st)) as (T & _).
    rewrite F in T. simpl in T.
    destruct (after_page_summary next st2)
      as (evs & Tr & NF & _ & _ & _ & [(st' & N & (evs0 & -> & S0) & _) | (st' & Bk & S & _)]).
    + exists (evs0 ++ [EvSleep 1000]). rewrite Tr, T, <- app_assoc. simpl.
      repeat split; auto.
      * intros _. exists st'. exact N.
      * intros _. rewrite existsb_app. simpl. apply orb_true_r.
    + exists evs. rewrite Tr, T, <- app_assoc. simpl.
      repeat split; auto.
      * rewrite S. discriminate.
      * intros [st'' H]. rewrite Bk in H. discriminate.
Qed.

(** The end of the body: one more request counted, the list still short,
    a cursor to go on with. *)
Lemma while_body_normal (st st' : RunState) :
  body st = Normal st' ->
  requestCount st' = requestCount st + 1
  /\ media_length st' < limit
  /\ truthy (after st') = true.
Proof.
  intros H.
  destruct (while_body_cases env token base limit st)
    as [(e & F & B) | (children & next & R & [[C B] | [(e & st2 & F & B) | (st2 & F & C & [[L B] | [L B]])]])];
    cbv zeta in *; rewrite B in H; try discriminate.
  pose proof (for_posts_frame limit (posts_of (fetch_count (trace st)) children)
                (posts_of (fetch_count (trace st)) children)
                (fetched env token base st)) as (_ & _ & RC).
  rewrite F in RC. simpl in RC.
  destruct (after_page_summary next st2)
    as (evs & _ & _ & M & _ & _ & [(st1 & N & _ & Q & A & T) | (st1 & Bk & _)]).
  - rewrite N in H. injection H as <-.
    rewrite N in M. simpl in M.
    repeat split.
    + lia.
    + unfold media_length in *. rewrite M. exact L.
    + rewrite A. exact T.
  - rewrite Bk in H. discriminate.
Qed.

(** The counter of requests never goes down in a turn of the loop. *)
Lemma while_body_counter (st : RunState) :
  requestCount st <= requestCount (state_of (body st)) <= requestCount st + 1.
Proof.
  destruct (while_body_cases env token base limit st)
    as [(e & F & B) | (children & next & R & [[C B] | [(e & st2 & F & B) | (st2 & F & C & [[L B] | [L B]])]])];
    cbv zeta in *; rewrite B; simpl; try lia;
    pose proof (for_posts_frame limit (posts_of (fetch_count (trace st)) children)
                  (posts_of (fetch_count (trace st)) children)
                  (fetched env token base st)) as (_ & _ & RC);
    rewrite F in RC; simpl in RC; try lia.
  destruct (after_page_summary next st2)
    as (evs & _ & _ & _ & _ & _ & [(st1 & N & _ & Q & _) | (st1 & Bk & _ & [Q | [Q _]])]).
  - rewrite N. simpl. lia.
  - rewrite Bk. simpl. lia.
  - rewrite Bk. simpl. lia.
Qed.

End BodyFacts.

(** ** Counting events *)

Lemma count_app f (a b : list Event) : count f (a ++ b) = (count f a + count f b)%nat.
Proof. unfold count. rewrite filter_app, length_app. reflexivity. Qed.

Lemma count_none f (l : list Event) : existsb f l = false -> count f l = 0%nat.
Proof.
  unfold count. induction l as [|e l IH]; simpl; [reflexivity|].
  destruct (f e); simpl; [discriminate|]. exact IH.
Qed.

Lemma count_some f (l : list Event) : existsb f l = true -> (0 < count f l)%nat.
Proof.
  unfold count. induction l as [|e l IH]; simpl; [discriminate|].
  destruct (f e); simpl; [lia|]. exact IH.
Qed.

Section RunFacts.

Variable env : Env.
Variable token : string.
Variable base : string.
Variable limit : Z.

Local Abbreviation body := (while_body env token base limit).
Local Abbreviation loop := (while_loop env token base limit).

Lemma while_body_fetch_count (st : RunState) :
  fetch_count (trace (state_of (body st))) = S (fetch_count (trace st)).
Proof.
  destruct (while_body_trace env token base limit st) as (evs & T & NF & _).
  rewrite T. unfold fetch_count. rewrite count_app.
  change (EvFetch (page_url base st) (page_response env token base st) :: evs)
    with ([EvFetch (page_url base st) (page_response env token base st)] ++ evs).
  rewrite count_app, (count_none _ _ NF). unfold count. simpl. lia.
Qed.

Lemma after_page_path (next : option string) (st : RunState) :
  path limit st
    (state_of (match stall_check env limit st with
               | Normal st3 => advance limit next st3
               | other => other
               end)).
Proof.
  assert (A : forall s, path limit s (state_of (advance limit next s))).
  { intros s. destruct (advance_cases limit next s) as [[_ E] | [_ E]];
      cbv zeta in E; rewrite E; simpl.
    - eapply path_then; [apply path_step, step_after | apply step_incr].
    - eapply path_then; [|apply step_emit].
      eapply path_then; [|apply step_emit].
      eapply path_then; [apply path_step, step_after | apply step_incr]. }
  destruct (stall_check_cases env limit st) as [E | [[_ E] | [_ E]]]; rewrite E.
  - apply A.
  - eapply path_trans; [apply path_step, step_emit | apply A].
  - simpl. eapply path_then; [apply path_step, step_emit | apply step_emit].
Qed.

(** A turn of the loop is a sequence of elementary updates. *)
Lemma while_body_path (st : RunState) : path limit st (state_of (body st)).
Proof.
  assert (P0 : path limit st (fetched env token base st))
    by apply path_step, step_emit.
  destruct (while_body_cases env token base limit st)
    as [(e & F & B) | (children & next & R & [[C B] | [(e & st2 & F & B) | (st2 & F & C & [[L B] | [L B]])]])];
    cbv zeta in *; rewrite B; simpl; auto;
    pose proof (for_posts_path limit (posts_of (fetch_count (trace st)) children)
                  (posts_of (fetch_count (trace st)) children)
                  (fetched env token base st)) as P1;
    rewrite F in P1; simpl in P1;
    try (eapply path_trans; [exact P0 | exact P1]).
  eapply path_trans; [exact P0|].
  eapply path_trans; [exact P1|]. apply after_page_path.
Qed.

(** The loop ends normally or by an exception, and is a sequence of
    elementary updates. *)
Lemma while_loop_path (fuel : nat) :
  forall st c, loop fuel st = Some c ->
    path limit st (state_of c) /\ (forall st', c <> Break st').
Proof.
  induction fuel as [|fuel IH]; intros st c H; simpl in H.
  - destruct (loop_condition limit st); [discriminate|].
    injection H as <-. split; [apply path_refl | discriminate].
  - destruct (loop_condition limit st).
    + pose proof (while_body_path st) as P.
      destruct (body st) as [st1|st1|e st1]; simpl in P.
      * destruct (IH _ _ H) as [P' NB]. split; [|exact NB].
        eapply path_trans; eassumption.
      * injection H as <-. split; [exact P | discriminate].
      * injection H as <-. split; [exact P | discriminate].
    + injection H as <-. split; [apply path_refl | discriminate].
Qed.

(** The budget is fuel enough: the loop ends. *)
Lemma while_loop_total (fuel : nat) :
  forall st,
    (Z.to_nat (maxRequests limit - requestCount st) <= fuel)%nat ->
    exists c, loop fuel st = Some c.
Proof.
  induction fuel as [|fuel IH]; intros st Hf; simpl.
  - destruct (loop_condition limit st) eqn:C; [|eexists; reflexivity].
    unfold loop_condition in C. apply andb_true_iff in C as [_ C].
    apply Z.ltb_lt in C. lia.
  - destruct (loop_condition limit st) eqn:C; [|eexists; reflexivity].
    unfold loop_condition in C. apply andb_true_iff in C as [_ C].
    apply Z.ltb_lt in C.
    destruct (body st) as [st1|st1|e st1] eqn:B; try (eexists; reflexivity).
    apply IH. apply while_body_normal in B as [B _]. lia.
Qed.

(** More fuel changes nothing. *)
Lemma while_loop_fuel_mono (fuel : nat) :
  forall st c, loop fuel st = Some c -> loop (S fuel) st = Some c.
Proof.
  induction fuel as [|fuel IH]; intros st c H.
  - simpl in H. simpl. destruct (loop_condition limit st); [discriminate|exact H].
  - remember (S fuel) as n. simpl. subst n. simpl in H.
    destruct (loop_condition limit st); [|exact H].
    destruct (body st) as [st1|st1|e st1]; try exact H.
    apply IH. exact H.
Qed.

(** The page requests of the loop are at most what the budget leaves. *)
Lemma while_loop_fetches (fuel : nat) :
  forall st c, loop fuel st = Some c ->
    Z.of_nat (fetch_count (trace (state_of c)))
      <= Z.of_nat (fetch_count (trace st))
         + Z.max 0 (maxRequests limit - requestCount st).
Proof.
  induction fuel as [|fuel IH]; intros st c H; simpl in H.
  - destruct (loop_condition limit st); [discriminate|].
    injection H as <-. simpl. lia.
  - destruct (loop_condition limit st) eqn:C.
    + unfold loop_condition in C. apply andb_true_iff in C as [_ C].
      apply Z.ltb_lt in C.
      pose proof (while_body_fetch_count st) as FC.
      destruct (body st) as [st1|st1|e st1] eqn:B; simpl in FC.
      * apply IH in H. apply while_body_normal in B as [B _]. lia.
      * injection H as <-. simpl. lia.
      * injection H as <-. simpl. lia.
    + injection H as <-. simpl. lia.
Qed.

(** The counter of requests never goes down in the loop. *)
Lemma while_loop_counter (fuel : nat) :
  forall st c, loop fuel st = Some c ->
    requestCount st <= requestCount (state_of c).
Proof.
  induction fuel as [|fuel IH]; intros st c H; simpl in H.
  - destruct (loop_condition limit st); [discriminate|].
    injection H as <-. simpl. lia.
  - destruct (loop_condition limit st).
    + pose proof (while_body_counter env token base limit st) as Q.
      destruct (body st) as [st1|st1|e st1]; simpl in Q.
      * apply IH in H. lia.
      * injection H as <-. simpl. lia.
      * injection H as <-. simpl. lia.
    + injection H as <-. simpl. lia.
Qed.

End RunFacts.

(** ** Invariants of the elementary updates *)

Lemma prim_step_media_bound limit st st' :
  prim_step limit st st' ->
  media_length st <= limit -> media_length st' <= limit.
Proof.
  intros [post s s' H | posts s | next s | s | e s] B; try exact B.
  classify_cases limit post s; rewrite Hcls in H; try discriminate;
    injection H as <-.
  - rewrite media_length_push_media. lia.
  - exact B.
Qed.

Lemma prim_step_counter limit st st' :
  prim_step limit st st' -> requestCount st <= requestCount st'.
Proof.
  intros [post s s' H | posts s | next s | s | e s]; simpl; try lia.
  pose proof (classify_post_frame limit post s) as (_ & _ & Q).
  rewrite H in Q. simpl in Q. lia.
Qed.

Lemma path_media_bound limit st st' :
  path limit st st' -> media_length st <= limit -> media_length st' <= limit.
Proof.
  induction 1; auto. eapply prim_step_media_bound; eassumption.
Qed.

Lemma path_counter limit st st' :
  path limit st st' -> requestCount st <= requestCount st'.
Proof.
  induction 1; try lia. eapply prim_step_counter; eassumption.
Qed.

(** ** Objects of a page *)

Lemma oid_eqb_eq (a b : nat * nat) : oid_eqb a b = true <-> a = b.
Proof.
  unfold oid_eqb. destruct a as [a1 a2], b as [b1 b2]. simpl.
  rewrite andb_true_iff, !Nat.eqb_eq. split.
  - intros [-> ->]. reflexivity.
  - intros H. injection H as -> ->. split; reflexivity.
Qed.

Lemma oid_eqb_neq (a b : nat * nat) : a <> b -> oid_eqb a b = false.
Proof.
  intros H. destruct (oid_eqb a b) eqn:E; [|reflexivity].
  apply oid_eqb_eq in E. contradiction.
Qed.

Lemma mem_oid_In (o : nat * nat) (l : list (nat * nat)) :
  mem_oid o l = true <-> In o l.
Proof.
  unfold mem_oid. rewrite existsb_exists. split.
  - intros (x & Hx & E). apply oid_eqb_eq in E. subst. exact Hx.
  - intros H. exists o. split; [exact H | apply oid_eqb_eq; reflexivity].
Qed.

Lemma mem_oid_not_In (o : nat * nat) (l : list (nat * nat)) :
  mem_oid o l = false <-> ~ In o l.
Proof.
  rewrite <- mem_oid_In. destruct (mem_oid o l); split; intros H;
    try reflexivity; try discriminate; try congruence; try tauto.
Qed.

Lemma map_oid_posts_of (k : nat) (children : list PostData) :
  map oid (posts_of k children)
    = map (fun i => (k, i)) (seq 0 (List.length children)).
Proof.
  unfold posts_of. rewrite map_map. simpl.
  generalize 0%nat as s.
  induction children as [|c children IH]; intros s; simpl; [reflexivity|].
  rewrite IH. reflexivity.
Qed.

(** The objects of a page are pairwise distinct. *)
Lemma posts_of_NoDup (k : nat) (children : list PostData) :
  NoDup (map oid (posts_of k children)).
Proof.
  rewrite map_oid_posts_of.
  pose proof (seq_NoDup (List.length children) 0) as ND.
  induction ND as [|i l Hi ND IH]; simpl; constructor; [|exact IH].
  intros H. apply in_map_iff in H as (j & E & Hj).
  injection E as ->. contradiction.
Qed.

Lemma posts_of_page (k : nat) (children : list PostData) (p : Post) :
  In p (posts_of k children) -> fst (oid p) = k.
Proof.
  intros H. apply (in_map oid) in H. rewrite map_oid_posts_of in H.
  apply in_map_iff in H as (i & <- & _). reflexivity.
Qed.

Lemma indexOf_from_at (done rest : list Post) (p : Post) :
  forall i,
    NoDup (map oid (done ++ p :: rest)) ->
    indexOf_from i (done ++ p :: rest) p = i + Z.of_nat (List.length done).
Proof.
  induction done as [|q done IH]; intros i ND; simpl.
  - assert (E : oid_eqb (oid p) (oid p) = true) by (apply oid_eqb_eq; reflexivity).
    rewrite E. lia.
  - simpl in ND. inversion ND as [|x l Hnotin ND']. subst.
    rewrite oid_eqb_neq.
    + rewrite IH by exact ND'. lia.
    + intros E. apply Hnotin. rewrite E, map_app. apply in_or_app.
      right. left. reflexivity.
Qed.

(** In an array of distinct objects, what [slice] takes after the index
    of an object is what follows that object. *)
Lemma slice_after_indexOf (done rest : list Post) (p : Post) :
  NoDup (map oid (done ++ p :: rest)) ->
  slice (done ++ p :: rest) (indexOf (done ++ p :: rest) p + 1) = rest.
Proof.
  intros ND. unfold indexOf. rewrite indexOf_from_at by exact ND.
  unfold slice.
  destruct (Z.ltb_spec (0 + Z.of_nat (List.length done) + 1) 0); [lia|].
  replace (Z.to_nat (0 + Z.of_nat (List.length done) + 1))
    with (List.length done + 1)%nat by lia.
  replace (done ++ p :: rest) with ((done ++ [p]) ++ rest)
    by (rewrite <- app_assoc; reflexivity).
  rewrite skipn_app, length_app. simpl.
  rewrite skipn_all2 by (rewrite length_app; simpl; lia).
  replace (List.length done + 1 - (List.length done + 1))%nat with 0%nat by lia.
  reflexivity.
Qed.

(** The posts of the page that were visited without filling the list
    can be skipped over. *)
Lemma for_posts_app (limit : Z) (posts b : list Post) :
  forall (a : list Post) (st st1 : RunState),
    for_posts limit posts a st = Normal st1 ->
    media_length st1 < limit ->
    for_posts limit posts (a ++ b) st = for_posts limit posts b st1.
Proof.
  induction a as [|x a IH]; intros st st1 H Hs; simpl in *.
  - injection H as <-. reflexivity.
  - destruct (classify_post limit x st) as [s1|s1|e s1]; try discriminate.
    destruct (Z.geb_spec (media_length s1) limit).
    + injection H as <-. rewrite media_length_push_nonMedia in Hs. lia.
    + apply IH; assumption.
Qed.

(** C7: when the post [p] of a page fills [mediaPosts] up to the limit,
    the loop over the page stops there: the posts that follow [p] in the
    page are pushed on [nonMediaPosts] as they are and in their order,
    none of them is looked at, and nothing else changes. The page is the
    array of objects that line 58 builds. *)
Theorem rest_of_page_is_bulk_appended :
  forall (limit : Z) (k : nat) (children : list PostData)
         (done rest : list Post) (p : Post) (st st_done st_p : RunState),
    posts_of k children = done ++ p :: rest ->
    for_posts limit (posts_of k children) done st = Normal st_done ->
    media_length st_done < limit ->
    classify_post limit p st_done = Normal st_p ->
    limit <= media_length st_p ->
    for_posts limit (posts_of k children) (posts_of k children) st
      = Normal (push_nonMedia rest st_p)
    /\ nonMediaPosts (push_nonMedia rest st_p) = nonMediaPosts st_p ++ rest
    /\ mediaPosts (push_nonMedia rest st_p) = mediaPosts st_p.
Proof.
  intros limit k children done rest p st st_done st_p E Hdone Hshort Hp Hfull.
  split; [|split; reflexivity].
  pose proof (posts_of_NoDup k children) as ND.
  rewrite E in *.
  rewrite (@for_posts_app limit (done ++ p :: rest) (p :: rest) done st
             st_done Hdone Hshort).
  simpl. rewrite Hp.
  destruct (Z.geb_spec (media_length st_p) limit); [|lia].
  rewrite slice_after_indexOf by exact ND. reflexivity.
Qed.

(** ** Where the posts of a page end up *)

Lemma filter_all {A : Type} (f : A -> bool) (l : list A) :
  (forall x, In x l -> f x = true) -> filter f l = l.
Proof.
  induction l as [|a l IH]; intros H; simpl; [reflexivity|].
  rewrite (H a) by (left; reflexivity).
  rewrite IH; [reflexivity|]. intros x Hx. apply H. right. exact Hx.
Qed.

Lemma in_media_app (m1 m2 : list Post) (p : Post) :
  in_media (m1 ++ m2) p = in_media m1 p || in_media m2 p.
Proof. unfold in_media, mem_oid. rewrite map_app, existsb_app. reflexivity. Qed.

Lemma in_media_false (m : list Post) (p : Post) :
  ~ In (oid p) (map oid m) -> in_media m p = false.
Proof. intros H. apply mem_oid_not_In. exact H. Qed.

Lemma in_media_true (m : list Post) (p : Post) :
  In (oid p) (map oid m) -> in_media m p = true.
Proof. intros H. apply mem_oid_In. exact H. Qed.

(** The loop over a page of distinct objects, none of which is on
    [mediaPosts] yet: [mediaPosts] grows by some of the posts that were
    still to visit, and [nonMediaPosts] by all the others, in their
    order. *)
Lemma for_posts_partition (limit : Z) (posts : list Post) :
  forall (todo done : list Post) (st st' : RunState),
    posts = done ++ todo ->
    NoDup (map oid posts) ->
    (forall q, In q todo -> ~ In (oid q) (map oid (mediaPosts st))) ->
    for_posts limit posts todo st = Normal st' ->
    exists extra,
      mediaPosts st' = mediaPosts st ++ extra
      /\ incl (map oid extra) (map oid todo)
      /\ nonMediaPosts st'
         = nonMediaPosts st
           ++ filter (fun p => negb (in_media (mediaPosts st') p)) todo.
Proof.
  induction todo as [|p todo IH]; intros done st st' Hposts ND Hfresh H.
  - simpl in H. injection H as <-. exists []. simpl.
    rewrite !app_nil_r. repeat split. apply incl_refl.
  - assert (NDp : ~ In (oid p) (map oid todo) /\ NoDup (map oid todo)).
    { rewrite Hposts, map_app in ND. apply NoDup_app_remove_l in ND.
      simpl in ND. inversion ND. split; assumption. }
    destruct NDp as [Hp NDt].
    assert (Hslice : slice posts (indexOf posts p + 1) = todo).
    { rewrite Hposts. apply slice_after_indexOf. rewrite <- Hposts. exact ND. }
    assert (Hposts' : posts = (done ++ [p]) ++ todo).
    { rewrite <- app_assoc. exact Hposts. }
    simpl in H.
    classify_cases limit p st; rewrite Hcls in H; try discriminate.
    + (* pushed on mediaPosts *)
      assert (Hfresh' : forall q, In q todo ->
                ~ In (oid q) (map oid (mediaPosts (push_media post' st)))).
      { intros q Hq. simpl. rewrite map_app, in_app_iff. simpl.
        intros [Hin | [E | []]].
        - apply (Hfresh q); [right; exact Hq | exact Hin].
        - apply Hp. rewrite <- Hoid, E. apply in_map. exact Hq. }
      destruct (media_length (push_media post' st) >=? limit).
      * injection H as <-. exists [post']. simpl.
        rewrite Hslice, Hoid. repeat split.
        -- intros o [<- | []]. left. reflexivity.
        -- rewrite in_media_true; simpl.
           ++ f_equal. symmetry. apply filter_all. intros q Hq.
              rewrite in_media_false; [reflexivity|]. apply Hfresh'. exact Hq.
           ++ rewrite map_app, in_app_iff. right. simpl. left. exact Hoid.
      * destruct (IH (done ++ [p]) _ _ Hposts' ND Hfresh' H)
          as (extra & M & I & N).
        exists (post' :: extra). simpl in M, N. rewrite <- app_assoc in M.
        repeat split.
        -- exact M.
        -- simpl. rewrite Hoid. intros o [<- | Ho]; [left; reflexivity|].
           right. apply I. exact Ho.
        -- simpl. rewrite in_media_true; [exact N|].
           rewrite M, map_app, in_app_iff. right. simpl. left. exact Hoid.
    + (* pushed on nonMediaPosts *)
      destruct (media_length (push_nonMedia [p] st) >=? limit).
      * injection H as <-. exists []. simpl. rewrite Hslice, app_nil_r.
        repeat split; [apply incl_nil_l|].
        rewrite in_media_false by (apply Hfresh; left; reflexivity). simpl.
        rewrite <- app_assoc. simpl. do 2 f_equal. symmetry.
        apply filter_all. intros q Hq.
        rewrite in_media_false; [reflexivity|]. apply Hfresh. right. exact Hq.
      * assert (Hfresh' : forall q, In q todo ->
                  ~ In (oid q) (map oid (mediaPosts (push_nonMedia [p] st)))).
        { intros q Hq. simpl. apply Hfresh. right. exact Hq. }
        destruct (IH (done ++ [p]) _ _ Hposts' ND Hfresh' H)
          as (extra & M & I & N).
        exists extra. simpl in M, N. repeat split.
        -- exact M.
        -- intros o Ho. right. apply I. exact Ho.
        -- simpl. rewrite in_media_false.
           ++ simpl. rewrite N, <- app_assoc. reflexivity.
           ++ rewrite M, map_app, in_app_iff. intros [Hin | Hin].
              ** apply (Hfresh p); [left; reflexivity | exact Hin].
              ** apply Hp. apply I. exact Hin.
Qed.

(** ** The posts that a trace delivered *)

Lemma delivered_from_app (a b : list Event) :
  forall k,
    delivered_from k (a ++ b)
      = delivered_from k a ++ delivered_from (k + fetch_count a) b.
Proof.
  unfold fetch_count, count.
  induction a as [|e a IH]; intros k; simpl.
  - rewrite Nat.add_0_r. reflexivity.
  - destruct e as [m i | r | u r | ans | ms]; simpl; try apply IH.
    destruct r as [| err | children next]; rewrite IH; simpl;
      rewrite ?app_assoc; repeat f_equal; lia.
Qed.

Lemma delivered_from_no_fetch (evs : list Event) :
  forall k, existsb is_fetch evs = false -> delivered_from k evs = [].
Proof.
  induction evs as [|e evs IH]; intros k H; simpl in *; [reflexivity|].
  destruct e; simpl in H; try discriminate; apply IH; exact H.
Qed.

Lemma delivered_from_bound (tr : list Event) :
  forall k p, In p (delivered_from k tr) ->
    (k <= fst (oid p) < k + fetch_count tr)%nat.
Proof.
  unfold fetch_count, count.
  induction tr as [|e tr IH]; intros k p H; simpl in *; [contradiction|].
  destruct e as [m i | r | u r | ans | ms]; simpl; try (apply IH; exact H).
  destruct r as [| err | children next]; simpl.
  - apply IH in H. lia.
  - apply IH in H. lia.
  - apply in_app_iff in H as [H | H].
    + apply posts_of_page in H. lia.
    + apply IH in H. lia.
Qed.

Section Delivery.

Variable env : Env.
Variable token : string.
Variable base : string.
Variable limit : Z.

Local Abbreviation body := (while_body env token base limit).
Local Abbreviation loop := (while_loop env token base limit).

Lemma accounted_more_events (st st' : RunState) (evs : list Event) :
  accounted st ->
  mediaPosts st' = mediaPosts st ->
  nonMediaPosts st' = nonMediaPosts st ->
  trace st' = trace st ++ evs ->
  existsb is_fetch evs = false ->
  accounted st'.
Proof.
  intros [A1 A2] M N T NF. split.
  - rewrite N, M, T. unfold delivered.
    rewrite delivered_from_app, (delivered_from_no_fetch _ _ NF), app_nil_r.
    exact A1.
  - intros o Ho. rewrite M in Ho. rewrite T. unfold fetch_count.
    rewrite count_app. apply A2 in Ho. unfold fetch_count in Ho. lia.
Qed.

(** After the loop over a page, the posts of the page are accounted
    for. *)
Lemma accounted_page (st st2 : RunState) (children : list PostData)
    (next : option string) :
  accounted st ->
  page_response env token base st = Listing children next ->
  for_posts limit (posts_of (fetch_count (trace st)) children)
            (posts_of (fetch_count (trace st)) children)
            (fetched env token base st) = Normal st2 ->
  accounted st2.
Proof.
  intros [A1 A2] R F.
  set (k := fetch_count (trace st)) in *.
  set (posts := posts_of k children) in *.
  assert (Hfresh : forall q, In q posts ->
            ~ In (oid q) (map oid (mediaPosts (fetched env token base st)))).
  { intros q Hq Hin. simpl in Hin. apply A2 in Hin.
    apply posts_of_page in Hq. fold k in Hin. lia. }
  destruct (@for_posts_partition limit posts posts [] _ _ eq_refl
              (posts_of_NoDup k children) Hfresh F) as (extra & M & I & N).
  pose proof (for_posts_frame limit posts posts (fetched env token base st))
    as (T & _).
  rewrite F in T. simpl in T, M, N.
  assert (D : delivered (trace st2) = delivered (trace st) ++ posts).
  { rewrite T. unfold delivered. rewrite delivered_from_app. simpl.
    rewrite R. simpl. rewrite app_nil_r. reflexivity. }
  split.
  - rewrite D, filter_app, N, A1. f_equal.
    apply filter_ext_in. intros p Hp.
    rewrite M, in_media_app.
    replace (in_media extra p) with false; [rewrite orb_false_r; reflexivity|].
    symmetry. apply in_media_false. intros Hin. apply I in Hin.
    apply in_map_iff in Hin as (q & E & Hq).
    apply posts_of_page in Hq. apply delivered_from_bound in Hp.
    rewrite E in Hq. fold k in Hp. lia.
  - intros o Ho. rewrite T. unfold fetch_count. rewrite count_app.
    unfold count at 2. simpl.
    rewrite M, map_app, in_app_iff in Ho. destruct Ho as [Ho | Ho].
    + apply A2 in Ho. unfold k, fetch_count in Ho. lia.
    + apply I in Ho. apply in_map_iff in Ho as (q & E & Hq).
      apply posts_of_page in Hq. rewrite E in Hq.
      unfold k, fetch_count in Hq. lia.
Qed.

(** A turn of the loop that throws nothing keeps the books. *)
Lemma while_body_accounted (st : RunState) :
  accounted st ->
  (forall e st', body st <> Throw e st') ->
  accounted (state_of (body st)).
Proof.
  intros A NT.
  destruct (while_body_cases env token base limit st)
    as [(e & F & B) | (children & next & R & [[C B] | [(e & st2 & F & B) | (st2 & F & C & [[L B] | [L B]])]])];
    cbv zeta in *.
  - exfalso. eapply NT. exact B.
  - rewrite B. simpl. destruct A as [A1 A2]. split.
    + simpl. unfold delivered. rewrite delivered_from_app. simpl.
      rewrite R, C. simpl. rewrite app_nil_r. exact A1.
    + intros o Ho. simpl in *. unfold fetch_count. rewrite count_app.
      apply A2 in Ho. unfold fetch_count in Ho. lia.
  - exfalso. eapply NT. exact B.
  - rewrite B. simpl. eapply accounted_page; eassumption.
  - rewrite B.
    pose proof (accounted_page _ _ _ _ A R F) as A2.
    destruct (after_page_summary env limit next st2)
      as (evs & T & NF & M & N & _).
    eapply accounted_more_events; eassumption.
Qed.

Lemma while_loop_accounted (fuel : nat) :
  forall st st', accounted st -> loop fuel st = Some (Normal st') ->
    accounted st'.
Proof.
  induction fuel as [|fuel IH]; intros st st' A H; simpl in H.
  - destruct (loop_condition limit st); [discriminate|].
    injection H as <-. exact A.
  - destruct (loop_condition limit st).
    + pose proof (while_body_accounted _ A) as A'.
      destruct (body st) as [st1|st1|e st1]; simpl in A'.
      * eapply IH; [|exact H]. apply A'. discriminate.
      * injection H as <-. apply A'. discriminate.
      * discriminate.
    + injection H as <-. exact A.
Qed.

(** A turn of the loop, begun with no failed request behind: either no
    request has failed after it, or it has thrown on the failure of its
    own request, with nothing logged since. *)
Lemma while_body_failure (st : RunState) :
  all_pages_ok (trace st) ->
  (all_pages_ok (trace (state_of (body st)))
   /\ is_failure (page_response env token base st) = false)
  \/ (exists e, body st = Throw e (fetched env token base st)
        /\ is_failure (page_response env token base st) = true).
Proof.
  intros OK.
  destruct (is_failure (page_response env token base st)) eqn:Fl.
  - right.
    destruct (while_body_cases env token base limit st)
      as [(e & F & B) | (children & next & R & _)].
    + exists e. split; [exact B | reflexivity].
    + rewrite R in Fl. discriminate.
  - left. split; [|reflexivity].
    destruct (while_body_trace env token base limit st) as (evs & T & NF & _).
    rewrite T. intros u r Hin.
    apply in_app_iff in Hin as [Hin | [E | Hin]].
    + eapply OK. exact Hin.
    + injection E as _ <-. exact Fl.
    + exfalso. assert (X : existsb is_fetch evs = true).
      { apply existsb_exists. eexists. split; [exact Hin | reflexivity]. }
      congruence.
Qed.

Lemma while_loop_failure (fuel : nat) :
  forall st c,
    all_pages_ok (trace st) ->
    loop fuel st = Some c ->
    all_pages_ok (trace (state_of c))
    \/ (exists e st0 u r,
          c = Throw e st0 /\ trace st0 = trace (state_of c)
          /\ exists pre, trace st0 = pre ++ [EvFetch u r]
               /\ all_pages_ok pre /\ is_failure r = true).
Proof.
  induction fuel as [|fuel IH]; intros st c OK H; simpl in H.
  - destruct (loop_condition limit st); [discriminate|].
    injection H as <-. left. exact OK.
  - destruct (loop_condition limit st).
    + destruct (while_body_failure _ OK) as [[OK' _] | (e & B & Fl)].
      * destruct (body st) as [st1|st1|e st1]; simpl in OK'.
        -- eapply IH; eassumption.
        -- injection H as <-. left. exact OK'.
        -- injection H as <-. left. exact OK'.
      * rewrite B in H. injection H as <-. right.
        exists e, (fetched env token base st), (page_url base st),
          (page_response env token base st).
        repeat split. exists (trace st). repeat split; assumption.
    + injection H as <-. left. exact OK.
Qed.

End Delivery.

(** ** The error report *)

Lemma reports_error_app (a b : list Event) :
  reports_error (a ++ b) = reports_error a || reports_error b.
Proof. unfold reports_error. apply existsb_app. Qed.

Section Reports.

Variable env : Env.
Variable token : string.
Variable base : string.
Variable limit : Z.

(** The loop itself never reports an error of [fetchPosts]. *)
Lemma while_body_reports (st : RunState) :
  reports_error (trace (state_of (while_body env token base limit st)))
    = reports_error (trace st).
Proof.
  assert (A : forall next s,
             reports_error (trace (state_of (advance limit next s)))
               = reports_error (trace s)).
  { intros next s. destruct (advance_cases limit next s) as [[_ E] | [_ E]];
      cbv zeta in E; rewrite E; simpl; [reflexivity|].
    rewrite !reports_error_app. simpl. rewrite !orb_false_r. reflexivity. }
  destruct (while_body_cases env token base limit st)
    as [(e & F & B) | (children & next & R & [[C B] | [(e & st2 & F & B) | (st2 & F & C & [[L B] | [L B]])]])];
    cbv zeta in *; rewrite B; simpl;
    try (rewrite reports_error_app; simpl; apply orb_false_r);
    pose proof (for_posts_frame limit (posts_of (fetch_count (trace st)) children)
                  (posts_of (fetch_count (trace st)) children)
                  (fetched env token base st)) as (T & _);
    rewrite F in T; simpl in T;
    try (rewrite T, reports_error_app; simpl; apply orb_false_r).
  destruct (stall_check_cases env limit st2) as [E | [[_ E] | [_ E]]];
    rewrite E; [rewrite A | rewrite A | ]; simpl;
    rewrite T, !reports_error_app; simpl; rewrite !orb_false_r; reflexivity.
Qed.

Lemma while_loop_reports (fuel : nat) :
  forall st c,
    while_loop env token base limit fuel st = Some c ->
    reports_error (trace (state_of c)) = reports_error (trace st).
Proof.
  induction fuel as [|fuel IH]; intros st c H; simpl in H.
  - destruct (loop_condition limit st); [discriminate|].
    injection H as <-. reflexivity.
  - destruct (loop_condition limit st); [|injection H as <-; reflexivity].
    pose proof (while_body_reports st) as R.
    destruct (while_body env token base limit st) as [st1|st1|e st1];
      simpl in R.
    + rewrite (IH _ _ H). exact R.
    + injection H as <-. exact R.
    + injection H as <-. exact R.
Qed.

End Reports.

(** ** Whole runs *)

Section Runs.

Variable env : Env.
Variables clientId clientSecret subreddit sort : string.
Variable limit : Z.
Variable timeFilter : option string.

Local Abbreviation base := (baseUrl subreddit sort limit timeFilter).
Local Abbreviation try_run := (try_block env clientId clientSecret subreddit sort limit timeFilter).
Local Abbreviation run_fuel := (fetchPosts_fuel env clientId clientSecret subreddit sort limit timeFilter).
Local Abbreviation run := (fetchPosts env clientId clientSecret subreddit sort limit timeFilter).

(** The [try] block: either there is no token and nothing but the token
    exchange has happened, or the loop has run from the empty state. *)
Lemma try_block_cases (fuel : nat) (c : Completion) :
  try_run fuel = Some c ->
  exists pre,
    existsb is_fetch pre = false
    /\ existsb is_sleep pre = false
    /\ reports_error pre = false
    /\ reachable limit (empty_state pre)
    /\ (c = Normal (empty_state pre)
        \/ (exists token st,
              while_loop env token base limit fuel (empty_state pre)
                = Some (Normal st)
              /\ c = Normal (updateStatus (Success (List.length (mediaPosts st)))
                                          false st))
        \/ (exists token e st,
              while_loop env token base limit fuel (empty_state pre)
                = Some (Throw e st)
              /\ c = Throw e st)).
Proof.
  unfold try_block, getAccessToken.
  assert (R : forall evs, reachable limit (empty_state evs)).
  { intros evs. unfold reachable.
    induction evs as [|e evs IH] using rev_ind; [apply path_refl|].
    eapply path_then; [exact IH|].
    apply (step_emit limit e (empty_state evs)). }
  destruct (btoa_defined (clientId ++ ":" ++ clientSecret)%string);
    [| simpl; intros H; injection H as <-; eexists;
       refine (conj _ (conj _ (conj _ (conj _ (or_introl eq_refl)))));
       [reflexivity | reflexivity | reflexivity | apply R]].
  destruct (token_endpoint env clientId clientSecret)
    as [| error | [[|ch tok]|]] eqn:T; simpl.
  - intros H. injection H as <-. eexists.
    refine (conj _ (conj _ (conj _ (conj _ (or_introl eq_refl)))));
      [reflexivity | reflexivity | reflexivity | apply R].
  - intros H. injection H as <-. eexists.
    refine (conj _ (conj _ (conj _ (conj _ (or_introl eq_refl)))));
      [reflexivity | reflexivity | reflexivity | apply R].
  - intros H. injection H as <-. eexists.
    refine (conj _ (conj _ (conj _ (conj _ (or_introl eq_refl)))));
      [reflexivity | reflexivity | reflexivity | apply R].
  - intros H.
    match type of H with
    | context [while_loop ?e ?t ?b ?l ?f ?s] =>
        destruct (while_loop e t b l f s) as [[st|st|e0 st]|] eqn:W
    end; try discriminate.
    + injection H as <-. eexists.
      refine (conj _ (conj _ (conj _ (conj _ (or_intror (or_introl
                (ex_intro _ (String ch tok) (ex_intro _ st (conj W eq_refl)))))))));
        [reflexivity | reflexivity | reflexivity | apply R].
    + exfalso. apply while_loop_path in W as [_ NB]. eapply NB. reflexivity.
    + injection H as <-. eexists.
      refine (conj _ (conj _ (conj _ (conj _ (or_intror (or_intror
                (ex_intro _ (String ch tok)
                   (ex_intro _ e0 (ex_intro _ st (conj W eq_refl))))))))));
        [reflexivity | reflexivity | reflexivity | apply R].
  - intros H. injection H as <-. eexists.
    refine (conj _ (conj _ (conj _ (conj _ (or_introl eq_refl)))));
      [reflexivity | reflexivity | reflexivity | apply R].
Qed.

(** The budget is all the fuel a run needs. *)
Lemma try_block_total :
  exists c, try_run (Z.to_nat (maxRequests limit)) = Some c.
Proof.
  unfold try_block, getAccessToken.
  destruct (btoa_defined (clientId ++ ":" ++ clientSecret)%string);
    [| eexists; reflexivity].
  destruct (token_endpoint env clientId clientSecret)
    as [| error | [[|ch tok]|]]; simpl; try (eexists; reflexivity).
  match goal with
  | |- context [while_loop ?e ?t ?b ?l ?f ?s] =>
      destruct (while_loop_total e t b l f s) as [c W]
  end.
  - simpl. lia.
  - rewrite W. destruct c; eexists; reflexivity.
Qed.

Lemma fetchPosts_total : exists res, run = Some res.
Proof.
  unfold fetchPosts, fetchPosts_fuel.
  destruct try_block_total as [c ->]. destruct c; eexists; reflexivity.
Qed.

(** What [fetchPosts] returns, from how its [try] block ends. *)
Lemma fetchPosts_fuel_cases (fuel : nat) (res : Result) :
  run_fuel fuel = Some res ->
  exists c, try_run fuel = Some c
    /\ ((exists st, c = Normal st
           /\ res = {| res_mediaPosts := mediaPosts st;
                       res_nonMediaPosts := nonMediaPosts st;
                       res_trace := trace st |})
        \/ (exists e st, c = Throw e st
              /\ res = {| res_mediaPosts := [];
                          res_nonMediaPosts := [];
                          res_trace := trace st ++ [EvStatus (ErrorFetching e) true] |})).
Proof.
  unfold fetchPosts_fuel. intros H.
  destruct (try_run fuel) as [c|] eqn:T; [|discriminate].
  exists c. split; [reflexivity|].
  pose proof (try_block_cases _ _ T) as (pre & _ & _ & _ & _ & [-> | [(tok & st & _ & ->) | (tok & e & st & _ & ->)]]).
  - left. eexists. split; [reflexivity|]. injection H as <-. reflexivity.
  - left. eexists. split; [reflexivity|]. injection H as <-. reflexivity.
  - right. exists e, st. split; [reflexivity|]. injection H as <-. reflexivity.
Qed.

(** The trace of a run reports an error of [fetchPosts] exactly when the
    run ends in the [catch] block, and then both lists are empty. *)
Lemma fetchPosts_reports_error (fuel : nat) (res : Result) :
  run_fuel fuel = Some res ->
  (reports_error (res_trace res) = true <->
   exists e st, try_run fuel = Some (Throw e st))
  /\ (reports_error (res_trace res) = true ->
      res_mediaPosts res = [] /\ res_nonMediaPosts res = []).
Proof.
  intros H. apply fetchPosts_fuel_cases in H as (c & T & Hres).
  pose proof (try_block_cases _ _ T)
    as (pre & _ & _ & NE & _ & [-> | [(tok & st & W & ->) | (tok & e & st & W & ->)]]).
  - destruct Hres as [(st & E & ->) | (e & st & E & _)]; [|discriminate].
    injection E as <-. simpl. rewrite NE. split.
    + split; [discriminate|]. intros (e & s & X). congruence.
    + discriminate.
  - destruct Hres as [(st' & E & ->) | (e & st' & E & _)]; [|discriminate].
    injection E as <-. simpl.
    apply while_loop_reports in W. simpl in W.
    rewrite reports_error_app, W, NE. simpl. split.
    + split; [discriminate|]. intros (e & s & X). congruence.
    + discriminate.
  - destruct Hres as [(st' & E & _) | (e' & st' & E & ->)]; [discriminate|].
    simpl. split; [|split; reflexivity]. split.
    + intros _. exists e, st. exact T.
    + intros _. rewrite reports_error_app. simpl. apply orb_true_r.
Qed.

(** Whatever state a run ends in is a state of the runs with this
    limit. *)
Lemma try_block_reachable (fuel : nat) (c : Completion) :
  try_run fuel = Some c -> reachable limit (state_of c).
Proof.
  intros T.
  pose proof (try_block_cases _ _ T) as (pre & _ & _ & _ & R & [-> | [(tok & st & W & ->) | (tok & e & st & W & ->)]]).
  - exact R.
  - apply while_loop_path in W as [P _]. simpl in P.
    unfold reachable. eapply path_then; [eapply path_trans; [exact R | exact P]|].
    apply step_emit.
  - apply while_loop_path in W as [P _]. simpl in P.
    unfold reachable. eapply path_trans; [exact R | exact P].
Qed.

End Runs.

(** The limit that [displayMedia] passes on lies between 1 and 100. *)
Lemma clamp_limit_range (limitInput : Z) : 1 <= clamp_limit limitInput <= 100.
Proof. unfold clamp_limit. lia. Qed.

Lemma maxRequests_min (limit : Z) : 3 <= maxRequests limit.
Proof. unfold maxRequests. destruct (limit =? 1); lia. Qed.

Lemma no_fetch_all_pages_ok (tr : list Event) :
  existsb is_fetch tr = false -> all_pages_ok tr.
Proof.
  intros NF u r Hin. exfalso.
  assert (X : existsb is_fetch tr = true).
  { apply existsb_exists. eexists. split; [exact Hin | reflexivity]. }
  congruence.
Qed.

Lemma accounted_start (pre : list Event) :
  existsb is_fetch pre = false -> accounted (empty_state pre).
Proof.
  intros NF. split; simpl.
  - unfold delivered. rewrite (delivered_from_no_fetch _ _ NF). reflexivity.
  - intros o [].
Qed.

(** ** The claims about whole runs *)

(** C6: the counter of requests never goes down, neither by an elementary
    update nor over the loop; every run ends; and the page requests of a
    run are at most the budget [maxRequests limit], hence at most the
    budget and the continuations that the operator approved. *)
Theorem request_budget_respected :
  forall (env : Env) (clientId clientSecret subreddit sort : string)
         (limit : Z) (timeFilter : option string),
    (forall st st', path limit st st' -> requestCount st <= requestCount st')
    /\ (forall token base fuel st c,
          while_loop env token base limit fuel st = Some c ->
          path limit st (state_of c))
    /\ (exists res,
          fetchPosts env clientId clientSecret subreddit sort limit timeFilter
            = Some res)
    /\ (forall res,
          fetchPosts env clientId clientSecret subreddit sort limit timeFilter
            = Some res ->
          Z.of_nat (fetch_count (res_trace res)) <= maxRequests limit
          /\ Z.of_nat (fetch_count (res_trace res))
             <= maxRequests limit + Z.of_nat (count is_approval (res_trace res))).
Proof.
  intros env clientId clientSecret subreddit sort limit timeFilter.
  split; [|split; [|split]].
  - intros st st'. apply path_counter.
  - intros token base fuel st c W. eapply while_loop_path. exact W.
  - apply fetchPosts_total.
  - intros res H.
    assert (B : Z.of_nat (fetch_count (res_trace res)) <= maxRequests limit);
      [|split; [exact B | lia]].
    pose proof (maxRequests_min limit) as M3.
    apply fetchPosts_fuel_cases in H as (c & T & Hres).
    apply try_block_cases in T
      as (pre & NF & _ & _ & _ & [-> | [(tok & st & W & ->) | (tok & e & st & W & ->)]]).
    + destruct Hres as [(st & E & ->) | (e & st & E & _)]; [|discriminate].
      injection E as <-. simpl. unfold fetch_count.
      rewrite (count_none _ _ NF). lia.
    + destruct Hres as [(st' & E & ->) | (e & st' & E & _)]; [|discriminate].
      injection E as <-. simpl.
      apply while_loop_fetches in W. simpl in W.
      unfold fetch_count in *. rewrite count_app.
      rewrite (count_none _ _ NF) in W. unfold count at 2. simpl. lia.
    + destruct Hres as [(st' & E & _) | (e' & st' & E & ->)]; [discriminate|].
      injection E as <- <-. simpl.
      apply while_loop_fetches in W. simpl in W.
      unfold fetch_count in *. rewrite count_app.
      rewrite (count_none _ _ NF) in W. unfold count at 2. simpl. lia.
Qed.

(** C4: with a limit that is not negative, [mediaPosts] is never longer
    than the limit: in no state of a run, and so in no state in which a
    run ends and in nothing that [fetchPosts] returns; and a post that is
    an image, met while [mediaPosts] holds [limit] posts, is pushed on
    [nonMediaPosts]. *)
Theorem media_never_exceeds_limit :
  forall (limit : Z),
    0 <= limit ->
    (forall st, reachable limit st -> media_length st <= limit)
    /\ (forall env clientId clientSecret subreddit sort timeFilter fuel c,
          try_block env clientId clientSecret subreddit sort limit timeFilter fuel
            = Some c ->
          reachable limit (state_of c))
    /\ (forall env clientId clientSecret subreddit sort timeFilter res,
          fetchPosts env clientId clientSecret subreddit sort limit timeFilter
            = Some res ->
          Z.of_nat (List.length (res_mediaPosts res)) <= limit)
    /\ (forall post st u,
          url (data post) = Some u ->
          has_media_suffix u || has_media_suffix (previewUrl (data post)) = true ->
          limit <= media_length st ->
          classify_post limit post st = Normal (push_nonMedia [post] st)
          /\ mediaPosts (push_nonMedia [post] st) = mediaPosts st
          /\ nonMediaPosts (push_nonMedia [post] st) = nonMediaPosts st ++ [post]).
Proof.
  intros limit Hl.
  assert (R : forall st, reachable limit st -> media_length st <= limit).
  { intros st P. eapply path_media_bound; [exact P|]. simpl. exact Hl. }
  split; [exact R|]. split; [|split].
  - intros. eapply try_block_reachable. eassumption.
  - intros env clientId clientSecret subreddit sort timeFilter res H.
    apply fetchPosts_fuel_cases in H as (c & T & Hres).
    apply try_block_reachable in T. apply R in T.
    destruct Hres as [(st & -> & ->) | (e & st & -> & ->)]; simpl.
    + exact T.
    + exact Hl.
  - intros post st u Hu Hm Hfull. split; [|split; reflexivity].
    unfold classify_post. rewrite Hu.
    destruct (Z.ltb_spec (media_length st) limit); [lia|].
    destruct (has_media_suffix u); [reflexivity|].
    destruct (has_media_suffix (previewUrl (data post))); reflexivity.
Qed.

(** C5, as the script has it: when a run does not end in the [catch]
    block, [nonMediaPosts] is the sequence of the delivered posts, in
    arrival order, without those that are on [mediaPosts]; so every
    delivered post that is not on [mediaPosts] is on [nonMediaPosts]. *)
Theorem delivered_posts_are_partitioned :
  forall (env : Env) (clientId clientSecret subreddit sort : string)
         (limit : Z) (timeFilter : option string) (res : Result),
    fetchPosts env clientId clientSecret subreddit sort limit timeFilter
      = Some res ->
    reports_error (res_trace res) = false ->
    res_nonMediaPosts res
      = filter (fun p => negb (in_media (res_mediaPosts res) p))
               (delivered (res_trace res))
    /\ (forall p, In p (delivered (res_trace res)) ->
                  ~ In (oid p) (map oid (res_mediaPosts res)) ->
                  In p (res_nonMediaPosts res)).
Proof.
  intros env clientId clientSecret subreddit sort limit timeFilter res H NE.
  assert (E : res_nonMediaPosts res
              = filter (fun p => negb (in_media (res_mediaPosts res) p))
                       (delivered (res_trace res))).
  { apply fetchPosts_fuel_cases in H as (c & T & Hres).
    apply try_block_cases in T
      as (pre & NF & _ & _ & _ & [-> | [(tok & st & W & ->) | (tok & e & st & W & ->)]]).
    - destruct Hres as [(st & E & ->) | (e & st & E & _)]; [|discriminate].
      injection E as <-. simpl. unfold delivered.
      rewrite (delivered_from_no_fetch _ _ NF). reflexivity.
    - destruct Hres as [(st' & E & ->) | (e & st' & E & _)]; [|discriminate].
      injection E as <-. simpl.
      apply while_loop_accounted in W; [|apply accounted_start; exact NF].
      destruct W as [A _]. unfold delivered in *.
      rewrite delivered_from_app. simpl. rewrite app_nil_r. exact A.
    - destruct Hres as [(st' & E & _) | (e' & st' & E & ->)]; [discriminate|].
      simpl in NE. unfold reports_error in NE. rewrite existsb_app in NE.
      simpl in NE. rewrite orb_true_r in NE. discriminate. }
  split; [exact E|].
  intros p Hp Hnot. rewrite E. apply filter_In. split; [exact Hp|].
  rewrite in_media_false by exact Hnot. reflexivity.
Qed.

(** C1, as the script has it: a run in which a page request fails ends
    there, with the error reported and nothing requested again, and
    returns two empty lists. *)
Theorem failed_page_ends_run_empty :
  forall (env : Env) (clientId clientSecret subreddit sort : string)
         (limit : Z) (timeFilter : option string) (res : Result)
         (u : string) (r : Response),
    fetchPosts env clientId clientSecret subreddit sort limit timeFilter
      = Some res ->
    In (EvFetch u r) (res_trace res) ->
    is_failure r = true ->
    res_mediaPosts res = []
    /\ res_nonMediaPosts res = []
    /\ exists pre e,
         res_trace res = pre ++ [EvFetch u r; EvStatus (ErrorFetching e) true]
         /\ all_pages_ok pre.
Proof.
  intros env clientId clientSecret subreddit sort limit timeFilter res u r
         H Hin Hfail.
  apply fetchPosts_fuel_cases in H as (c & T & Hres).
  apply try_block_cases in T
    as (pre & NF & _ & _ & _ & [-> | [(tok & st & W & ->) | (tok & e & st & W & ->)]]).
  - destruct Hres as [(st & E & ->) | (e & st & E & _)]; [|discriminate].
    injection E as <-. simpl in Hin.
    apply (no_fetch_all_pages_ok _ NF) in Hin. congruence.
  - destruct Hres as [(st' & E & ->) | (e & st' & E & _)]; [|discriminate].
    injection E as <-. simpl in Hin.
    apply in_app_iff in Hin as [Hin | [Hin | []]]; [|discriminate].
    apply while_loop_failure in W; [|apply no_fetch_all_pages_ok; exact NF].
    destruct W as [OK | (e & st0 & u0 & r0 & E & _)]; [|discriminate].
    apply OK in Hin. congruence.
  - destruct Hres as [(st' & E & _) | (e' & st' & E & ->)]; [discriminate|].
    injection E as <- <-. simpl in *. split; [reflexivity|]. split; [reflexivity|].
    apply in_app_iff in Hin as [Hin | [Hin | []]]; [|discriminate].
    apply while_loop_failure in W; [|apply no_fetch_all_pages_ok; exact NF].
    destruct W as [OK | (e0 & st0 & u0 & r0 & E & _ & pre0 & Tr & OK & Fl)].
    + apply OK in Hin. congruence.
    + injection E as <- <-. rewrite Tr in Hin |- *.
      apply in_app_iff in Hin as [Hin | [Hin | []]].
      * apply OK in Hin. congruence.
      * injection Hin as <- <-. exists pre0, e. split; [|exact OK].
        rewrite <- app_assoc. reflexivity.
Qed.

(** ** Sleeping *)

Lemma after_last_fetch_none (tr : list Event) :
  existsb is_fetch tr = false -> after_last_fetch tr = [].
Proof.
  induction tr as [|e tr IH]; simpl; [reflexivity|].
  intros H. apply orb_false_iff in H as [He Ht].
  rewrite Ht, He. reflexivity.
Qed.

Lemma after_last_fetch_split (a b : list Event) (e : Event) :
  is_fetch e = true -> existsb is_fetch b = false ->
  after_last_fetch (a ++ e :: b) = b.
Proof.
  intros He Hb. induction a as [|x a IH]; simpl.
  - rewrite Hb, He. reflexivity.
  - rewrite existsb_app. simpl. rewrite He, orb_true_r. exact IH.
Qed.

Section Sleeping.

Variable env : Env.
Variable token : string.
Variable base : string.
Variable limit : Z.

Local Abbreviation body := (while_body env token base limit).
Local Abbreviation loop := (while_loop env token base limit).

(** A turn of the loop that ends in a [break] leaves the list full, or
    the cursor empty, or the budget unspent. *)
Lemma while_body_break (st st1 : RunState) :
  body st = Break st1 ->
  requestCount st < maxRequests limit ->
  ~ (media_length st1 < limit /\ truthy (after st1) = true
     /\ maxRequests limit <= requestCount st1).
Proof.
  intros H Hb (Hm & Ha & Hr).
  destruct (while_body_cases env token base limit st)
    as [(e & F & B) | (children & next & R & [[C B] | [(e & st2 & F & B) | (st2 & F & C & [[L B] | [L B]])]])];
    cbv zeta in *; rewrite B in H; try discriminate.
  - injection H as <-. simpl in Hr. lia.
  - injection H as <-. lia.
  - pose proof (for_posts_frame limit (posts_of (fetch_count (trace st)) children)
                  (posts_of (fetch_count (trace st)) children)
                  (fetched env token base st)) as (_ & _ & RC).
    rewrite F in RC. simpl in RC.
    destruct (after_page_summary env limit next st2)
      as (evs & _ & _ & _ & _ & _ & [(s & N & _) | (s & Bk & _ & [Q | (Q & A & T)])]).
    + rewrite N in H. discriminate.
    + rewrite Bk in H. injection H as <-. lia.
    + rewrite Bk in H. injection H as <-. rewrite A in Ha. congruence.
Qed.

(** The loop either does not turn at all, or its trace ends with a last
    page request and what that turn logged after it, in which there is a
    sleep exactly when the loop ends with the list short, a cursor at hand
    and the budget spent. *)
Lemma while_loop_last_turn (fuel : nat) :
  forall st c,
    loop fuel st = Some c ->
    (c = Normal st /\ loop_condition limit st = false)
    \/ (exists mid u r fin,
          trace (state_of c) = trace st ++ mid ++ EvFetch u r :: fin
          /\ existsb is_fetch fin = false
          /\ (existsb is_sleep fin = true <->
              exists st', c = Normal st' /\ media_length st' < limit
                          /\ truthy (after st') = true
                          /\ maxRequests limit <= requestCount st')).
Proof.
  induction fuel as [|fuel IH]; intros st c H; simpl in H.
  - destruct (loop_condition limit st) eqn:C; [discriminate|].
    injection H as <-. left. split; reflexivity.
  - destruct (loop_condition limit st) eqn:C;
      [|injection H as <-; left; split; reflexivity].
    right.
    assert (Hb : requestCount st < maxRequests limit).
    { unfold loop_condition in C. apply andb_true_iff in C as [_ C].
      apply Z.ltb_lt in C. exact C. }
    destruct (while_body_trace env token base limit st) as (evs & T & NF & S).
    destruct (body st) as [st1|st1|e st1] eqn:B; simpl in T.
    + destruct (IH _ _ H) as [[-> C1] | (mid & u & r & fin & T' & NF' & S')].
      * exists [], (page_url base st), (page_response env token base st), evs.
        simpl. split; [exact T|]. split; [exact NF|].
        apply while_body_normal in B as (Q & M & A).
        split.
        -- intros _. exists st1. repeat split; try assumption.
           unfold loop_condition in C1. apply andb_false_iff in C1 as [C1 | C1].
           ++ apply Z.ltb_ge in C1. lia.
           ++ apply Z.ltb_ge in C1. exact C1.
        -- intros _. apply S. exists st1. reflexivity.
      * exists (EvFetch (page_url base st) (page_response env token base st)
                  :: evs ++ mid), u, r, fin.
        split; [|split; assumption].
        rewrite T', T, <- !app_assoc. simpl. rewrite <- app_assoc. reflexivity.
    + injection H as <-. simpl.
      exists [], (page_url base st), (page_response env token base st), evs.
      simpl. split; [exact T|]. split; [exact NF|]. split.
      * intros X. apply S in X as [s X]. discriminate.
      * intros (s & E & Hm & Ha & Hr). injection E as <-.
        exfalso. eapply while_body_break; eauto.
    + injection H as <-. simpl.
      exists [], (page_url base st), (page_response env token base st), evs.
      simpl. split; [exact T|]. split; [exact NF|]. split.
      * intros X. apply S in X as [s X]. discriminate.
      * intros (s & E & _). discriminate.
Qed.

(** Lines 113-131 run to the sleep of line 131 exactly when the operator
    has not declined and the new cursor is truthy. *)
Lemma after_page_completes (next : option string) (st : RunState) :
  ((stall_fires limit st ->
    confirm env (count is_confirm (trace st)) = true)
   /\ truthy next = true)
  <-> exists st', match stall_check env limit st with
                  | Normal st3 => advance limit next st3
                  | other => other
                  end = Normal st'.
Proof.
  unfold stall_check, stall_fires, advance.
  destruct (Z.eqb_spec limit 1) as [L|L];
    destruct (Z.eqb_spec (requestCount st) 2) as [Q|Q];
    destruct (Z.eqb_spec (media_length st) 0) as [M|M];
    cbn [andb];
    try destruct (confirm env (count is_confirm (trace st))) eqn:Cf;
    cbn [negb];
    destruct (truthy next) eqn:T; cbn [negb];
    (split;
     [ intros (A & B);
       first [ discriminate B
             | eexists; reflexivity
             | exfalso; assert (X : false = true) by (apply A; auto);
               discriminate X ]
     | intros (s & X);
       first [ discriminate X
             | split; [ intros (L' & Q' & M');
                        first [reflexivity | contradiction]
                      | reflexivity ] ] ]).
Qed.

(** A turn of the loop runs to the end of the body exactly when the page
    came and is not empty, no post threw, the list is still short after
    the page, the operator has not declined and the page came with a next
    cursor; the sleep is then the last thing the turn does, and the only
    sleep of the turn. *)
Lemma while_body_completes (st : RunState) :
  (exists children next st2,
     page_response env token base st = Listing children next
     /\ children <> []
     /\ for_posts limit (posts_of (fetch_count (trace st)) children)
                  (posts_of (fetch_count (trace st)) children)
                  (fetched env token base st) = Normal st2
     /\ media_length st2 < limit
     /\ (stall_fires limit st2 ->
         confirm env (count is_confirm (trace st2)) = true)
     /\ truthy next = true)
  <-> (exists st' evs0,
         body st = Normal st'
         /\ trace st'
            = trace st
              ++ EvFetch (page_url base st) (page_response env token base st)
                 :: evs0 ++ [EvSleep 1000]
         /\ existsb is_sleep evs0 = false).
Proof.
  destruct (while_body_cases env token base limit st)
    as [(e & F & B) | (children & next & R & [[C B] | [(e & st2 & F & B) | (st2 & F & C & [[L B] | [L B]])]])];
    cbv zeta in *; rewrite B.
  - split.
    + intros (ch & nx & s2 & R & _). rewrite R in F. discriminate.
    + intros (s & evs0 & X & _). discriminate.
  - split.
    + intros (ch & nx & s2 & R' & N & _). rewrite R in R'.
      injection R' as <- <-. contradiction.
    + intros (s & evs0 & X & _). discriminate.
  - split.
    + intros (ch & nx & s2 & R' & _ & F' & _). rewrite R in R'.
      injection R' as <- <-. rewrite F in F'. discriminate.
    + intros (s & evs0 & X & _). discriminate.
  - split.
    + intros (ch & nx & s2 & R' & _ & F' & M & _). rewrite R in R'.
      injection R' as <- <-. rewrite F in F'. injection F' as <-. lia.
    + intros (s & evs0 & X & _). discriminate.
  - pose proof (for_posts_frame limit (posts_of (fetch_count (trace st)) children)
                  (posts_of (fetch_count (trace st)) children)
                  (fetched env token base st)) as (T & _).
    rewrite F in T. simpl in T.
    split.
    + intros (ch & nx & s2 & R' & _ & F' & _ & Cf & Tn). rewrite R in R'.
      injection R' as <- <-. rewrite F in F'. injection F' as <-.
      destruct (proj1 (after_page_completes next st2) (conj Cf Tn)) as [st' N].
      destruct (after_page_summary env limit next st2)
        as (evs & Tr & _ & _ & _ & _ & [(s & N' & (evs0 & -> & S0) & _) | (s & Bk & _)]).
      * rewrite N in N'. injection N' as <-. rewrite N in Tr. simpl in Tr.
        exists st', evs0. split; [exact N|]. split; [|exact S0].
        rewrite Tr, T, <- app_assoc. reflexivity.
      * rewrite N in Bk. discriminate.
    + intros (s & evs0 & N & _).
      destruct (proj2 (after_page_completes next st2) (ex_intro _ s N))
        as [Cf Tn].
      exists children, next, st2.
      split; [exact R|]. split; [exact C|]. split; [exact F|].
      split; [exact L|]. split; [exact Cf | exact Tn].
Qed.

End Sleeping.

(** C9, as the script has it: a turn of the loop sleeps exactly when it
    runs to the end of the body, that is when the list is still short of
    the limit, the operator has not declined and the new cursor is not
    empty, whatever is left of the budget; so a run sleeps after its last
    page request exactly when it ends with the list short, a cursor at
    hand and the budget spent. The last part is the other direction in
    the terms of the page itself: whenever the page came and is not empty,
    no post threw, the list is still short after the page, the operator
    has not declined and the page came with a next cursor, the turn runs
    to the end of the body and sleeps 1000 ms, once, as the last thing it
    does; and only then. *)
Theorem sleep_after_every_completed_turn :
  forall (env : Env) (limit : Z),
    (forall token base st,
       exists evs,
         trace (state_of (while_body env token base limit st))
           = trace st
             ++ EvFetch (page_url base st) (page_response env token base st) :: evs
         /\ existsb is_fetch evs = false
         /\ (existsb is_sleep evs = true <->
             exists st', while_body env token base limit st = Normal st'))
    /\ (forall token base st st',
          while_body env token base limit st = Normal st' ->
          requestCount st' = requestCount st + 1
          /\ media_length st' < limit
          /\ truthy (after st') = true)
    /\ (forall clientId clientSecret subreddit sort timeFilter fuel c,
          try_block env clientId clientSecret subreddit sort limit timeFilter fuel
            = Some c ->
          (sleeps_after_last_fetch (trace (state_of c)) = true <->
           exists st, c = Normal st /\ media_length st < limit
                      /\ truthy (after st) = true
                      /\ maxRequests limit <= requestCount st))
    /\ (forall token base st,
          (exists children next st2,
             page_response env token base st = Listing children next
             /\ children <> []
             /\ for_posts limit (posts_of (fetch_count (trace st)) children)
                          (posts_of (fetch_count (trace st)) children)
                          (fetched env token base st) = Normal st2
             /\ media_length st2 < limit
             /\ (stall_fires limit st2 ->
                 confirm env (count is_confirm (trace st2)) = true)
             /\ truthy next = true)
          <-> (exists st' evs0,
                 while_body env token base limit st = Normal st'
                 /\ trace st'
                    = trace st
                      ++ EvFetch (page_url base st)
                                 (page_response env token base st)
                         :: evs0 ++ [EvSleep 1000]
                 /\ existsb is_sleep evs0 = false)).
Proof.
  intros env limit. split; [|split; [|split]].
  4:{ intros token base st. apply while_body_completes. }
  - intros token base st. apply while_body_trace.
  - intros token base st st'. apply while_body_normal.
  - intros clientId clientSecret subreddit sort timeFilter fuel c T.
    apply try_block_cases in T
      as (pre & NF & _ & _ & _ & [-> | [(tok & st & W & ->) | (tok & e & st & W & ->)]]).
    + unfold sleeps_after_last_fetch. simpl.
      rewrite (after_last_fetch_none _ NF). simpl. split; [discriminate|].
      intros (s & E & _ & A & _). injection E as <-. simpl in A. discriminate.
    + apply while_loop_last_turn in W
        as [[E C] | (mid & u & r & fin & Tr & NF' & S)].
      * injection E as ->. unfold sleeps_after_last_fetch. simpl.
        rewrite after_last_fetch_none
          by (rewrite existsb_app, NF; reflexivity).
        simpl. split; [discriminate|].
        intros (s & E & _ & A & _). injection E as <-. simpl in A. discriminate.
      * simpl in Tr. unfold sleeps_after_last_fetch. simpl. rewrite Tr.
        replace ((pre ++ mid ++ EvFetch u r :: fin)
                   ++ [EvStatus (Success (List.length (mediaPosts st))) false])
          with ((pre ++ mid) ++ EvFetch u r
                  :: (fin ++ [EvStatus (Success (List.length (mediaPosts st))) false]))
          by (rewrite <- !app_assoc; reflexivity).
        rewrite after_last_fetch_split;
          [|reflexivity | rewrite existsb_app, NF'; reflexivity].
        rewrite existsb_app. simpl. rewrite orb_false_r.
        rewrite S. split.
        -- intros (s & E & H). injection E as <-. eexists. split; [reflexivity|].
           exact H.
        -- intros (s & E & H). injection E as <-. exists st.
           split; [reflexivity|]. exact H.
    + apply while_loop_last_turn in W
        as [[E C] | (mid & u & r & fin & Tr & NF' & S)]; [discriminate|].
      simpl in Tr. unfold sleeps_after_last_fetch. simpl. rewrite Tr.
      replace (pre ++ mid ++ EvFetch u r :: fin)
        with ((pre ++ mid) ++ EvFetch u r :: fin)
        by (rewrite <- !app_assoc; reflexivity).
      rewrite after_last_fetch_split; [|reflexivity | exact NF'].
      rewrite S. split.
      * intros (s & E & _). discriminate.
      * intros (s & E & _). discriminate.
Qed.

(** ** The claims on the three worlds *)

(** An address in upper case with a query string is an image, and the
    post keeps it. *)
Example upper_case_suffix_is_media :
  has_media_suffix "https://x.com/a.JPG?x=1" = true
  /\ classify_post 5 Cases.p1 (empty_state [])
     = Normal (push_media Cases.p1 (empty_state [])).
Proof. split; reflexivity. Qed.

(** One post asked for, three pages without an image, the operator
    declines: three page requests, the stall reported, no sleep after the
    last request. *)
Example stall_declined :
  exists res,
    fetchPosts Examples.declining "id" "secret" "pics" "best" 1 None = Some res
    /\ res_mediaPosts res = []
    /\ fetch_count (res_trace res) = 3%nat
    /\ In (EvStatus StoppedNoImages true) (res_trace res)
    /\ sleeps_after_last_fetch (res_trace res) = false.
Proof.
  eexists. split; [vm_compute; reflexivity|].
  split; [reflexivity|]. split; [reflexivity|].
  split; [simpl; do 12 right; left; reflexivity | reflexivity].
Qed.

(** C1, as the specification has it, fails: when the second page request
    fails, the post that the first page delivered is in the state of the
    run, and the run returns a list without it. *)
Lemma failed_page_discards_accumulated :
  exists e st res,
    Cases.failing_try = Some (Throw e st)
    /\ nonMediaPosts st = [ {| oid := (0, 0)%nat;
                               data := Examples.link "https://x.com/a.html" |} ]
    /\ Cases.failing_run = Some res
    /\ res_nonMediaPosts res = []
    /\ res_nonMediaPosts res <> nonMediaPosts st.
Proof.
  do 3 eexists.
  split; [vm_compute; reflexivity|].
  split; [reflexivity|].
  split; [vm_compute; reflexivity|].
  split; [reflexivity|].
  simpl. discriminate.
Qed.

Lemma failed_page_ends_run_empty_witness :
  exists res,
    Cases.failing_run = Some res
    /\ res_mediaPosts res = []
    /\ res_nonMediaPosts res = []
    /\ exists pre e,
         res_trace res
           = pre ++ [EvFetch "https://oauth.reddit.com/r/pics/best.json?limit=10&after=t3_a"
                             (ListingError "Too Many Requests");
                     EvStatus (ErrorFetching e) true]
         /\ all_pages_ok pre.
Proof.
  eexists. split; [vm_compute; reflexivity|].
  eapply (failed_page_ends_run_empty Examples.failing "id" "secret" "pics" "best"
            5 None).
  - vm_compute. reflexivity.
  - simpl. do 7 right. left. reflexivity.
  - reflexivity.
Defined.

(** C5, as the specification has it, fails: the post that the first page
    delivered is on neither list when the second page request fails. *)
Lemma delivered_post_lost_on_failure :
  exists res p,
    Cases.failing_run = Some res
    /\ In p (delivered (res_trace res))
    /\ ~ In (oid p) (map oid (res_mediaPosts res))
    /\ ~ In p (res_nonMediaPosts res).
Proof.
  eexists. exists Cases.p0.
  split; [vm_compute; reflexivity|].
  split; [vm_compute; left; reflexivity|].
  split; intros [].
Qed.

Lemma delivered_posts_are_partitioned_witness :
  exists res,
    Cases.rich_run = Some res
    /\ reports_error (res_trace res) = false
    /\ res_nonMediaPosts res
       = filter (fun p => negb (in_media (res_mediaPosts res) p))
                (delivered (res_trace res))
    /\ (forall p, In p (delivered (res_trace res)) ->
                  ~ In (oid p) (map oid (res_mediaPosts res)) ->
                  In p (res_nonMediaPosts res)).
Proof.
  eexists. split; [vm_compute; reflexivity|].
  split; [vm_compute; reflexivity|].
  eapply (delivered_posts_are_partitioned Examples.rich "id" "secret" "pics" "top"
            2 (Some "day")).
  - vm_compute. reflexivity.
  - vm_compute. reflexivity.
Defined.

Lemma media_never_exceeds_limit_witness :
  0 <= 2
  /\ exists res,
       Cases.rich_run = Some res
       /\ Z.of_nat (List.length (res_mediaPosts res)) <= 2.
Proof.
  split; [lia|].
  eexists. split; [vm_compute; reflexivity|].
  eapply (proj1 (proj2 (proj2 (media_never_exceeds_limit 2 ltac:(lia))))
            Examples.rich "id" "secret" "pics" "top" (Some "day")).
  vm_compute. reflexivity.
Defined.

Lemma rest_of_page_is_bulk_appended_witness :
  let children :=
    [data Cases.p0; data Cases.p1; data Cases.p2; data Cases.p3; data Cases.p4] in
  let st_done := push_media Cases.p1 (push_nonMedia [Cases.p0] (empty_state [])) in
  let st_p := push_media Cases.p2 st_done in
  for_posts 2 (posts_of 0 children) (posts_of 0 children) (empty_state [])
    = Normal (push_nonMedia [Cases.p3; Cases.p4] st_p)
  /\ nonMediaPosts (push_nonMedia [Cases.p3; Cases.p4] st_p)
     = nonMediaPosts st_p ++ [Cases.p3; Cases.p4]
  /\ mediaPosts (push_nonMedia [Cases.p3; Cases.p4] st_p) = mediaPosts st_p.
Proof.
  intros children st_done st_p.
  apply (rest_of_page_is_bulk_appended 2 0 children [Cases.p0; Cases.p1]
           [Cases.p3; Cases.p4] Cases.p2 (empty_state []) st_done st_p).
  - reflexivity.
  - reflexivity.
  - reflexivity.
  - reflexivity.
  - vm_compute. discriminate.
Defined.

Lemma request_budget_respected_witness :
  exists res,
    Cases.barren_run = Some res
    /\ Z.of_nat (fetch_count (res_trace res)) <= maxRequests 1.
Proof.
  eexists. split; [vm_compute; reflexivity|].
  eapply (proj2 (proj2 (proj2 (request_budget_respected Examples.barren
            "id" "secret" "pics" "best" 1 None)))).
  vm_compute. reflexivity.
Defined.

(** C3 on the barren world: one post is asked for, three pages hold no
    image, each with a next cursor, and the operator answers yes to the
    prompt. The run sleeps and ends: it has asked for three pages, the
    list is short of the limit and the cursor is there. *)
Theorem stall_continue_issues_no_further_fetch :
  exists st res,
    Cases.barren_try = Some (Normal st)
    /\ Cases.barren_run = Some res
    /\ In (EvConfirm true) (res_trace res)
    /\ fetch_count (res_trace res) = 3%nat
    /\ maxRequests 1 = 3
    /\ media_length st < 1
    /\ after st = Some "t3_a".
Proof.
  do 2 eexists.
  split; [vm_compute; reflexivity|].
  split; [vm_compute; reflexivity|].
  split; [simpl; do 11 right; left; reflexivity|].
  repeat split.
Qed.

(** C9, as the specification has it, fails: the third turn of this run
    sleeps, and the loop does not turn again. *)
Lemma sleep_follows_final_fetch :
  exists st,
    Cases.barren_try = Some (Normal st)
    /\ sleeps_after_last_fetch (trace st) = true
    /\ loop_condition 1 st = false
    /\ fetch_count (trace st) = 3%nat.
Proof.
  eexists. split; [vm_compute; reflexivity|].
  repeat split.
Qed.

(** On the barren world: the run for one post sleeps after its last page
    request exactly when it ends with the list short, a cursor at hand and
    the budget spent; and its first turn, whose page holds a link and a
    next cursor, runs to the end of the body and sleeps. *)
Lemma sleep_after_every_completed_turn_witness :
  (exists st,
     Cases.barren_try = Some (Normal st)
     /\ (sleeps_after_last_fetch (trace st) = true <->
         exists st', Normal st = Normal st' /\ media_length st' < 1
                     /\ truthy (after st') = true
                     /\ maxRequests 1 <= requestCount st'))
  /\ (exists st' evs0,
        while_body Examples.barren "tok" (baseUrl "pics" "best" 1 None) 1
                   (empty_state []) = Normal st'
        /\ trace st'
           = [EvFetch "https://oauth.reddit.com/r/pics/best.json?limit=6"
                      (Listing [Examples.link "https://x.com/a.html"]
                               (Some "t3_a"))]
             ++ evs0 ++ [EvSleep 1000]
        /\ existsb is_sleep evs0 = false).
Proof.
  destruct (sleep_after_every_completed_turn Examples.barren 1)
    as (_ & _ & Run & Turn).
  split.
  - eexists. split; [vm_compute; reflexivity|].
    apply (Run "id" "secret" "pics" "best" None (Z.to_nat (maxRequests 1))
             (Normal _)).
    vm_compute. reflexivity.
  - apply (proj1 (Turn "tok" (baseUrl "pics" "best" 1 None) (empty_state []))).
    exists [Examples.link "https://x.com/a.html"], (Some "t3_a").
    eexists.
    split; [reflexivity|]. split; [discriminate|].
    split; [vm_compute; reflexivity|].
    split; [vm_compute; reflexivity|].
    split; [intros _; reflexivity | reflexivity].
Defined.

(** ** What a turn of the loop logs *)

Section TurnLog.

Variable env : Env.
Variable token : string.
Variable base : string.
Variable limit : Z.

Local Abbreviation body := (while_body env token base limit).
Local Abbreviation loop := (while_loop env token base limit).
Local Abbreviation after_page next st :=
  (match stall_check env limit st with
   | Normal st3 => advance limit next st3
   | other => other
   end).

(** Lines 113-131 in full: at most one prompt, shown only when the stall
    fires; at most one sleep, of one second; and the new cursor when the
    body runs to its end. *)
Lemma after_page_log (next : option string) (st : RunState) :
  exists evs,
    trace (state_of (after_page next st)) = trace st ++ evs
    /\ existsb is_fetch evs = false
    /\ existsb is_token evs = false
    /\ (count is_confirm evs <= 1)%nat
    /\ (existsb is_confirm evs = true -> stall_fires limit st)
    /\ (slept evs = 0 \/ slept evs = 1000)
    /\ (forall st', after_page next st = Normal st' ->
          truthy next = true /\ after st' = next).
Proof.
  destruct (stall_check_cases env limit st) as [E | [[SF E] | [SF E]]];
    rewrite E.
  - destruct (advance_cases limit next st) as [[T A] | [T A]];
      cbv zeta in A; rewrite A.
    + exists []. simpl. rewrite app_nil_r.
      repeat split; auto; try discriminate;
        try (destruct SF as (S1 & S2 & S3); assumption).
    + exists [EvStatus (FetchedSoFar (List.length (mediaPosts st)) limit) false;
              EvSleep 1000].
      simpl. rewrite <- app_assoc. simpl.
      repeat split; auto; try discriminate;
        try (destruct SF as (S1 & S2 & S3); assumption).
      match goal with H : Normal _ = Normal _ |- _ => injection H as <- end.
      reflexivity.
  - destruct (advance_cases limit next (emit (EvConfirm true) st))
      as [[T A] | [T A]]; cbv zeta in A; rewrite A.
    + exists [EvConfirm true]. simpl.
      repeat split; auto; try discriminate;
        try (destruct SF as (S1 & S2 & S3); assumption).
    + exists [EvConfirm true;
              EvStatus (FetchedSoFar (List.length (mediaPosts st)) limit) false;
              EvSleep 1000].
      simpl. rewrite <- !app_assoc. simpl.
      repeat split; auto; try discriminate;
        try (destruct SF as (S1 & S2 & S3); assumption).
      match goal with H : Normal _ = Normal _ |- _ => injection H as <- end.
      reflexivity.
  - exists [EvConfirm false; EvStatus StoppedNoImages true].
    simpl. rewrite <- !app_assoc. simpl.
    repeat split; auto; try discriminate;
        try (destruct SF as (S1 & S2 & S3); assumption).
Qed.

(** A turn of the loop in full. *)
Lemma while_body_log (st : RunState) :
  exists evs,
    trace (state_of (body st))
      = trace st
        ++ EvFetch (page_url base st) (page_response env token base st) :: evs
    /\ existsb is_fetch evs = false
    /\ existsb is_token evs = false
    /\ (count is_confirm evs <= 1)%nat
    /\ (existsb is_confirm evs = true ->
        limit = 1 /\ requestCount st = 2
        /\ mediaPosts (state_of (body st)) = [])
    /\ (slept evs = 0 \/ slept evs = 1000)
    /\ (forall st', body st = Normal st' ->
          page_goes_on (page_response env token base st) = true
          /\ after st' = cursor_after (after st) (page_response env token base st)).
Proof.
  destruct (while_body_cases env token base limit st)
    as [(e & F & B) | (children & next & R & [[C B] | [(e & st2 & F & B) | (st2 & F & C & [[L B] | [L B]])]])];
    cbv zeta in *.
  - rewrite B. exists []. simpl. repeat split; auto; discriminate.
  - rewrite B. exists []. simpl. repeat split; auto; discriminate.
  - rewrite B. exists []. simpl.
    pose proof (for_posts_frame limit (posts_of (fetch_count (trace st)) children)
                  (posts_of (fetch_count (trace st)) children)
                  (fetched env token base st)) as (T & _).
    rewrite F in T. simpl in T. rewrite T.
    repeat split; auto; discriminate.
  - rewrite B. exists []. simpl.
    pose proof (for_posts_frame limit (posts_of (fetch_count (trace st)) children)
                  (posts_of (fetch_count (trace st)) children)
                  (fetched env token base st)) as (T & _).
    rewrite F in T. simpl in T. rewrite T.
    repeat split; auto; discriminate.
  - rewrite B.
    pose proof (for_posts_frame limit (posts_of (fetch_count (trace st)) children)
                  (posts_of (fetch_count (trace st)) children)
                  (fetched env token base st)) as (T & _ & RC).
    rewrite F in T, RC. simpl in T, RC.
    destruct (after_page_log next st2)
      as (evs & Tr & NF & NT & C1 & SF & SL & N).
    destruct (after_page_summary env limit next st2)
      as (_ & _ & _ & M & _).
    exists evs. rewrite Tr, T, <- app_assoc. simpl.
    split; [reflexivity|]. split; [exact NF|]. split; [exact NT|].
    split; [exact C1|]. split; [|split; [exact SL|]].
    + intros X. destruct (SF X) as (S1 & S2 & S3).
      split; [exact S1|]. split; [lia|].
      rewrite M. unfold media_length in S3.
      destruct (mediaPosts st2); [reflexivity | simpl in S3; lia].
    + intros st' H. destruct (N st' H) as [Tn An].
      rewrite R. simpl. split.
      * destruct children; [contradiction | exact Tn].
      * exact An.
Qed.

End TurnLog.

(** ** What the loop logs *)

Lemma slept_app (a b : list Event) : slept (a ++ b) = slept a + slept b.
Proof.
  induction a as [|e a IH]; simpl; [reflexivity|].
  destruct e; rewrite ?IH; lia.
Qed.

Lemma chained_skip (base : string) (cursor : option string) (a b : list Event) :
  existsb is_fetch a = false ->
  (chained base cursor (a ++ b) <-> chained base cursor b).
Proof.
  induction a as [|e a IH]; simpl; intros H; [tauto|].
  apply orb_false_iff in H as [He Ha].
  destruct e; simpl in He; try discriminate; apply IH; exact Ha.
Qed.

Lemma chained_no_fetch (base : string) (cursor : option string) (a : list Event) :
  existsb is_fetch a = false -> chained base cursor a.
Proof.
  intros H. rewrite <- (app_nil_r a). apply chained_skip; [exact H | exact I].
Qed.

Lemma pages_go_on_skip (a b : list Event) :
  existsb is_fetch a = false ->
  (pages_go_on (a ++ b) <-> pages_go_on b).
Proof.
  induction a as [|e a IH]; simpl; intros H; [tauto|].
  apply orb_false_iff in H as [He Ha].
  destruct e; simpl in He; try discriminate; apply IH; exact Ha.
Qed.

Lemma pages_go_on_no_fetch (a : list Event) :
  existsb is_fetch a = false -> pages_go_on a.
Proof.
  intros H. rewrite <- (app_nil_r a). apply pages_go_on_skip; [exact H | exact I].
Qed.

Lemma count_le_1_none f (l : list Event) :
  count f l = 0%nat -> existsb f l = false.
Proof.
  intros H. destruct (existsb f l) eqn:E; [|reflexivity].
  apply count_some in E. lia.
Qed.

Section LoopLog.

Variable env : Env.
Variable token : string.
Variable base : string.
Variable limit : Z.

Local Abbreviation body := (while_body env token base limit).
Local Abbreviation loop := (while_loop env token base limit).

(** The loop in full: no token is asked for; the addresses are chained by
    the cursors; every page but the last one is not empty and has a next
    cursor; there is at most one prompt, in a run for one post, after the
    third request, and then no image is found at all; and the loop sleeps
    at most one second for each request. *)
Lemma while_loop_log (fuel : nat) :
  forall st c,
    loop fuel st = Some c ->
    exists evs,
      trace (state_of c) = trace st ++ evs
      /\ existsb is_token evs = false
      /\ chained base (after st) evs
      /\ pages_go_on evs
      /\ (count is_confirm evs <= (if (requestCount st <=? 2)%Z then 1 else 0))%nat
      /\ (existsb is_confirm evs = true ->
          limit = 1 /\ mediaPosts (state_of c) = []
          /\ requestCount st + Z.of_nat (fetch_count evs) = 3)
      /\ 0 <= slept evs <= 1000 * Z.of_nat (fetch_count evs).
Proof.
  induction fuel as [|fuel IH]; intros st c H; simpl in H.
  - destruct (loop_condition limit st); [discriminate|].
    injection H as <-. exists []. simpl. rewrite app_nil_r.
    repeat split; try lia; try discriminate.
    unfold count; simpl; destruct (requestCount st <=? 2); lia.
  - destruct (loop_condition limit st) eqn:C.
    2:{ injection H as <-. exists []. simpl. rewrite app_nil_r.
        repeat split; try lia; try discriminate.
        unfold count; simpl; destruct (requestCount st <=? 2); lia. }
    destruct (while_body_log env token base limit st)
      as (evs1 & T & NF & NT & C1 & SF & SL & N).
    set (F := EvFetch (page_url base st) (page_response env token base st)) in *.
    assert (Hend : forall c0, state_of c0 = state_of (body st) ->
              (forall st', body st <> Normal st') ->
              c = c0 ->
              exists evs,
                trace (state_of c) = trace st ++ evs
                /\ existsb is_token evs = false
                /\ chained base (after st) evs
                /\ pages_go_on evs
                /\ (count is_confirm evs <= (if (requestCount st <=? 2)%Z then 1 else 0))%nat
                /\ (existsb is_confirm evs = true ->
                    limit = 1 /\ mediaPosts (state_of c) = []
                    /\ requestCount st + Z.of_nat (fetch_count evs) = 3)
                /\ 0 <= slept evs <= 1000 * Z.of_nat (fetch_count evs)).
    { intros c0 Hs _ ->. exists (F :: evs1). rewrite Hs, T.
      assert (FC : fetch_count (F :: evs1) = 1%nat).
      { unfold fetch_count. change (F :: evs1) with ([F] ++ evs1).
        rewrite count_app, (count_none _ _ NF). reflexivity. }
      split; [reflexivity|]. split; [exact NT|].
      split; [split; [reflexivity | apply chained_no_fetch; exact NF]|].
      split; [split; [rewrite NF; discriminate | apply pages_go_on_no_fetch; exact NF]|].
      split; [|split].
      - change (F :: evs1) with ([F] ++ evs1). rewrite count_app.
        unfold count at 1. simpl.
        destruct (existsb is_confirm evs1) eqn:X.
        + destruct (SF eq_refl) as (_ & Q & _). rewrite Q. simpl. exact C1.
        + rewrite (count_none _ _ X). lia.
      - intros X. simpl in X. destruct (SF X) as (L1 & Q & M).
        rewrite FC. repeat split; [exact L1 | exact M | lia].
      - rewrite FC. simpl. destruct SL as [-> | ->]; lia. }
    destruct (body st) as [st1|st1|e st1] eqn:B.
    + clear Hend. destruct (N st1 eq_refl) as [PG AF].
      pose proof (while_body_normal env token base limit st st1 B) as (Q & _ & _).
      destruct (IH _ _ H) as (evs2 & T2 & NT2 & CH2 & PG2 & C2 & SF2 & SL2).
      simpl in T.
      exists (F :: evs1 ++ evs2).
      assert (FC : fetch_count (F :: evs1 ++ evs2) = S (fetch_count evs2)).
      { unfold fetch_count. change (F :: evs1 ++ evs2) with ([F] ++ evs1 ++ evs2).
        rewrite !count_app, (count_none _ _ NF). reflexivity. }
      split; [rewrite T2, T, <- app_assoc; reflexivity|].
      split; [simpl; rewrite existsb_app, NT, NT2; reflexivity|].
      split; [split; [reflexivity|]|].
      { apply chained_skip; [exact NF|]. fold F. rewrite <- AF. exact CH2. }
      split; [split; [intros _; exact PG|]|].
      { apply pages_go_on_skip; [exact NF | exact PG2]. }
      assert (CC : count is_confirm (F :: evs1 ++ evs2)
                   = (count is_confirm evs1 + count is_confirm evs2)%nat).
      { change (F :: evs1 ++ evs2) with ([F] ++ evs1 ++ evs2).
        rewrite !count_app. reflexivity. }
      split; [|split].
      * rewrite CC. destruct (existsb is_confirm evs1) eqn:X.
        -- destruct (SF eq_refl) as (_ & Q2 & _).
           rewrite Q, Q2 in C2. simpl in C2. rewrite Q2. simpl. lia.
        -- rewrite (count_none _ _ X). rewrite Q in C2.
           destruct (Z.leb_spec (requestCount st + 1) 2);
             destruct (Z.leb_spec (requestCount st) 2); lia.
      * intros X. simpl in X. rewrite existsb_app in X.
        apply orb_true_iff in X as [X | X].
        -- destruct (SF X) as (L1 & Q2 & M). simpl in M.
           assert (E2 : c = Normal st1).
           { assert (CF : loop_condition limit st1 = false).
             { unfold loop_condition. rewrite Q, Q2, L1. simpl.
               apply andb_false_r. }
             destruct fuel; simpl in H; rewrite CF in H;
               injection H as <-; reflexivity. }
           subst c. simpl in T2.
           assert (evs2 = []).
           { apply (app_inv_head (trace st1)). rewrite app_nil_r.
             symmetry. exact T2. }
           subst evs2. rewrite FC. simpl.
           repeat split; [exact L1 | exact M | lia].
        -- destruct (SF2 X) as (L1 & M & Q3). rewrite FC.
           repeat split; [exact L1 | exact M | lia].
      * rewrite FC. change (F :: evs1 ++ evs2) with ([F] ++ evs1 ++ evs2).
        rewrite !slept_app. simpl. destruct SL as [-> | ->]; lia.
    + injection H as <-. apply (Hend (Normal st1)); [reflexivity | discriminate | reflexivity].
    + injection H as <-. apply (Hend (Throw e st1)); [reflexivity | discriminate | reflexivity].
Qed.

End LoopLog.

(** ** What a run logs *)

Section RunLog.

Variable env : Env.
Variables clientId clientSecret subreddit sort : string.
Variable limit : Z.
Variable timeFilter : option string.

Local Abbreviation base := (baseUrl subreddit sort limit timeFilter).
Local Abbreviation pre := (token_phase env clientId clientSecret).
Local Abbreviation run_fuel := (fetchPosts_fuel env clientId clientSecret subreddit sort limit timeFilter).

(** The token exchange logs two statuses, the request when [btoa] has not
    thrown, and one more status; it gives a token only when the request
    was made and answered with one. *)
Lemma token_phase_shape :
  exists s b,
    pre = [EvStatus FetchingPosts false; EvStatus FetchingToken false]
          ++ (if btoa_defined (clientId ++ ":" ++ clientSecret)%string
              then [EvToken (token_endpoint env clientId clientSecret)]
              else [])
          ++ [EvStatus s b]
    /\ (truthy (token_of env clientId clientSecret) = true ->
        btoa_defined (clientId ++ ":" ++ clientSecret)%string = true
        /\ exists c t, token_endpoint env clientId clientSecret
                       = TokenData (Some (String c t))).
Proof.
  unfold token_phase, token_of, getAccessToken.
  destruct (btoa_defined (clientId ++ ":" ++ clientSecret)%string);
    [| simpl; do 2 eexists; (split; [reflexivity | discriminate])].
  destruct (token_endpoint env clientId clientSecret) as [| error | [[|c t]|]];
    simpl; do 2 eexists; (split; [reflexivity|]); try discriminate.
  intros _. split; [reflexivity|]. exists c, t. reflexivity.
Qed.

Lemma try_block_unfold (fuel : nat) :
  try_block env clientId clientSecret subreddit sort limit timeFilter fuel
  = match token_of env clientId clientSecret with
    | Some (String c t) =>
        match while_loop env (String c t) base limit fuel (empty_state pre) with
        | None => None
        | Some (Throw e st') => Some (Throw e st')
        | Some done =>
            Some (Normal (updateStatus
                            (Success (List.length (mediaPosts (state_of done))))
                            false (state_of done)))
        end
    | _ => Some (Normal (empty_state pre))
    end.
Proof.
  unfold try_block, token_of, token_phase, getAccessToken.
  destruct (btoa_defined (clientId ++ ":" ++ clientSecret)%string);
    [|reflexivity].
  destruct (token_endpoint env clientId clientSecret) as [| error | [[|c t]|]];
    reflexivity.
Qed.

(** A run in full: without a token, nothing but the token exchange; with
    one, what the loop logs from the empty state, and one last status. *)
Lemma fetchPosts_log (fuel : nat) (res : Result) :
  run_fuel fuel = Some res ->
  (truthy (token_of env clientId clientSecret) = false
   /\ res = {| res_mediaPosts := []; res_nonMediaPosts := []; res_trace := pre |})
  \/ (exists ch t c evs fin,
        token_of env clientId clientSecret = Some (String ch t)
        /\ while_loop env (String ch t) base limit fuel (empty_state pre) = Some c
        /\ trace (state_of c) = pre ++ evs
        /\ res_trace res = pre ++ evs ++ [fin]
        /\ ((exists st, c = Normal st
               /\ fin = EvStatus (Success (List.length (mediaPosts st))) false
               /\ res_mediaPosts res = mediaPosts st
               /\ res_nonMediaPosts res = nonMediaPosts st)
            \/ (exists e st, c = Throw e st
                  /\ fin = EvStatus (ErrorFetching e) true
                  /\ res_mediaPosts res = []
                  /\ res_nonMediaPosts res = []))
        /\ existsb is_token evs = false
        /\ chained base (Some "") evs
        /\ pages_go_on evs
        /\ (count is_confirm evs <= 1)%nat
        /\ (existsb is_confirm evs = true ->
            limit = 1 /\ mediaPosts (state_of c) = []
            /\ fetch_count evs = 3%nat)
        /\ 0 <= slept evs <= 1000 * Z.of_nat (fetch_count evs)
        /\ Z.of_nat (fetch_count evs) <= maxRequests limit).
Proof.
  unfold fetchPosts_fuel. rewrite try_block_unfold.
  destruct (token_of env clientId clientSecret) as [[|ch t]|] eqn:Tk.
  - intros H. injection H as <-. left. split; reflexivity.
  - destruct (while_loop env (String ch t) base limit fuel (empty_state pre))
      as [c|] eqn:W; [|discriminate].
    destruct (while_loop_path _ _ _ _ _ _ _ W) as [_ NB].
    pose proof (while_loop_fetches _ _ _ _ _ _ _ W) as FB.
    destruct (while_loop_log env (String ch t) base limit fuel _ _ W)
      as (evs & T & NT & CH & PG & CC & SF & SL).
    simpl in T, CH, CC, SF, FB.
    assert (NFpre : existsb is_fetch pre = false).
    { destruct token_phase_shape as (s & b & -> & _).
      destruct (btoa_defined (clientId ++ ":" ++ clientSecret)%string);
        reflexivity. }
    assert (FC : Z.of_nat (fetch_count evs) <= maxRequests limit).
    { rewrite T in FB. unfold fetch_count in *. rewrite count_app in FB.
      rewrite (count_none _ _ NFpre) in FB.
      pose proof (maxRequests_min limit). lia. }
    assert (SF' : existsb is_confirm evs = true ->
                  limit = 1 /\ mediaPosts (state_of c) = []
                  /\ fetch_count evs = 3%nat).
    { intros X. destruct (SF X) as (A & B & C). repeat split; [exact A | exact B | lia]. }
    intros H. right. exists ch, t, c, evs.
    destruct c as [st|st|e st]; injection H as <-.
    + exists (EvStatus (Success (List.length (mediaPosts st))) false).
      simpl. simpl in T. rewrite T, <- app_assoc.
      split; [reflexivity|]. split; [exact W|].
      split; [reflexivity|]. split; [reflexivity|].
      split; [left; exists st; repeat split|].
      split; [exact NT|]. split; [exact CH|]. split; [exact PG|].
      split; [exact CC|]. split; [exact SF'|]. split; [exact SL | exact FC].
    + exfalso. eapply NB. reflexivity.
    + exists (EvStatus (ErrorFetching e) true).
      simpl. simpl in T. rewrite T, <- app_assoc.
      split; [reflexivity|]. split; [exact W|].
      split; [reflexivity|]. split; [reflexivity|].
      split; [right; exists e, st; repeat split|].
      split; [exact NT|]. split; [exact CH|]. split; [exact PG|].
      split; [exact CC|]. split; [exact SF'|]. split; [exact SL | exact FC].
  - intros H. injection H as <-. left. split; reflexivity.
Qed.

End RunLog.

(** ** Traces with something after them *)

Lemma token_phase_quiet (env : Env) (clientId clientSecret : string) :
  existsb is_fetch (token_phase env clientId clientSecret) = false
  /\ existsb is_confirm (token_phase env clientId clientSecret) = false
  /\ slept (token_phase env clientId clientSecret) = 0.
Proof.
  destruct (token_phase_shape env clientId clientSecret) as (s & b & -> & _).
  destruct (btoa_defined (clientId ++ ":" ++ clientSecret)%string);
    repeat split.
Qed.

Lemma chained_then (base : string) (a b : list Event) :
  existsb is_fetch b = false ->
  forall cursor, chained base cursor a -> chained base cursor (a ++ b).
Proof.
  intros NF. induction a as [|e a IH]; intros cursor H; simpl.
  - apply chained_no_fetch. exact NF.
  - destruct e; simpl in H; try (apply IH; exact H).
    destruct H as [E H]. split; [exact E | apply IH; exact H].
Qed.

Lemma pages_go_on_then (a b : list Event) :
  existsb is_fetch b = false ->
  pages_go_on a -> pages_go_on (a ++ b).
Proof.
  intros NF. induction a as [|e a IH]; intros H; simpl.
  - apply pages_go_on_no_fetch. exact NF.
  - destruct e; simpl in H; try (apply IH; exact H).
    destruct H as [E H]. split; [|apply IH; exact H].
    rewrite existsb_app, NF, orb_false_r. exact E.
Qed.

Lemma final_status_quiet (fin : Event) (s : Status) (b : bool) :
  fin = EvStatus s b ->
  existsb is_fetch [fin] = false /\ existsb is_confirm [fin] = false
  /\ slept [fin] = 0.
Proof. intros ->. repeat split. Qed.

(** ** Credentials that [btoa] rejects *)

(** [btoa] takes a string exactly when all its bytes are below 0xC4. *)
Lemma btoa_defined_spec (s : string) :
  btoa_defined s = true
  <-> Forall (fun c => (nat_of_ascii c < 196)%nat) (list_ascii_of_string s).
Proof.
  induction s as [|c s IH]; simpl.
  - split; [constructor | reflexivity].
  - rewrite andb_true_iff, Nat.ltb_lt, IH. split.
    + intros [A B]. constructor; assumption.
    + intros F. inversion F. split; assumption.
Qed.

Example btoa_defined_examples :
  btoa_defined "id:secret" = true
  /\ btoa_defined (MoreExamples.e_acute ++ ":secret")%string = true
  /\ btoa_defined (MoreExamples.snowman ++ ":secret")%string = false
  /\ btoa_defined ("id:" ++ MoreExamples.snowman)%string = false.
Proof. repeat split. Qed.

(** With a client id that [btoa] rejects, the token endpoint is not asked,
    though it would give a token: the run reports the error and returns
    two empty lists, and [displayMedia] then reports that no image was
    found. *)
Example rejected_credentials_run :
  fetchPosts Examples.rich MoreExamples.snowman "secret" "pics" "best" 5 None
  = Some {| res_mediaPosts := []; res_nonMediaPosts := [];
            res_trace := [EvStatus FetchingPosts false;
                          EvStatus FetchingToken false;
                          EvStatus (ErrorToken InvalidCharacterError) true] |}.
Proof. vm_compute. reflexivity. Qed.

Example rejected_credentials_display :
  displayMedia Examples.rich MoreExamples.filled_snowman
  = Some [UiClear; UiSpinner true;
          UiRun (EvStatus FetchingPosts false);
          UiRun (EvStatus FetchingToken false);
          UiRun (EvStatus (ErrorToken InvalidCharacterError) true);
          UiSpinner false; UiRender [] [];
          UiStatus (OnlyFound 0) true].
Proof. vm_compute. reflexivity. Qed.

(** ** Further properties of [fetchPosts] *)

(** Without a token there is nothing but the token exchange: when [btoa]
    throws on the credentials (line 14), or the token endpoint fails,
    answers with an error, or answers without a token, [fetchPosts] asks
    for no page, shows no prompt, does not sleep and returns two empty
    lists (line 34). Its trace is the two opening statuses, the token
    request if [btoa] has not thrown, and one more status. *)
Theorem no_token_no_page_request :
  forall (env : Env) (clientId clientSecret subreddit sort : string)
         (limit : Z) (timeFilter : option string) (res : Result),
    fetchPosts env clientId clientSecret subreddit sort limit timeFilter
      = Some res ->
    (btoa_defined (clientId ++ ":" ++ clientSecret)%string = false
     \/ forall c t, token_endpoint env clientId clientSecret
                    <> TokenData (Some (String c t))) ->
    res_mediaPosts res = []
    /\ res_nonMediaPosts res = []
    /\ exists s b,
         res_trace res
           = [EvStatus FetchingPosts false; EvStatus FetchingToken false]
             ++ (if btoa_defined (clientId ++ ":" ++ clientSecret)%string
                 then [EvToken (token_endpoint env clientId clientSecret)]
                 else [])
             ++ [EvStatus s b].
Proof.
  intros env clientId clientSecret subreddit sort limit timeFilter res H NT.
  destruct (token_phase_shape env clientId clientSecret) as (s & b & P & Tk).
  apply fetchPosts_log in H
    as [[_ ->] | (ch & t & c & evs & fin & E & _)].
  - simpl. repeat split. exists s, b. exact P.
  - exfalso. destruct Tk as (B & c' & t' & R); [rewrite E; reflexivity|].
    destruct NT as [NB | NT]; [congruence|].
    eapply NT. exact R.
Qed.

Lemma no_token_no_page_request_witness :
  exists res,
    fetchPosts MoreExamples.refused "id" "secret" "pics" "best" 5 None = Some res
    /\ res_mediaPosts res = []
    /\ res_nonMediaPosts res = []
    /\ exists s b,
         res_trace res
           = [EvStatus FetchingPosts false; EvStatus FetchingToken false;
              EvToken (TokenError "invalid_grant"); EvStatus s b].
Proof.
  eexists. split; [vm_compute; reflexivity|].
  apply (no_token_no_page_request MoreExamples.refused "id" "secret" "pics" "best"
           5 None).
  - vm_compute. reflexivity.
  - right. intros c t. simpl. discriminate.
Defined.

(** A run asks for a token at most once. When [btoa] accepts the
    credentials (no code unit above 0xFF) it asks exactly once, with the
    credentials it was given, after the two opening statuses and before
    any page request, and never again, however many pages it asks for.
    When [btoa] throws (line 14) the run asks for no token and for no
    page, and reports the [InvalidCharacterError] (lines 23-25). *)
Theorem one_token_request_first :
  forall (env : Env) (clientId clientSecret subreddit sort : string)
         (limit : Z) (timeFilter : option string) (res : Result),
    fetchPosts env clientId clientSecret subreddit sort limit timeFilter
      = Some res ->
    (exists rest,
       res_trace res
         = [EvStatus FetchingPosts false; EvStatus FetchingToken false]
           ++ (if btoa_defined (clientId ++ ":" ++ clientSecret)%string
               then [EvToken (token_endpoint env clientId clientSecret)]
               else [])
           ++ rest
       /\ existsb is_token rest = false
       /\ count is_token (res_trace res)
          = if btoa_defined (clientId ++ ":" ++ clientSecret)%string
            then 1%nat else 0%nat)
    /\ (btoa_defined (clientId ++ ":" ++ clientSecret)%string = false ->
        res_mediaPosts res = [] /\ res_nonMediaPosts res = []
        /\ res_trace res
           = [EvStatus FetchingPosts false; EvStatus FetchingToken false;
              EvStatus (ErrorToken InvalidCharacterError) true]).
Proof.
  intros env clientId clientSecret subreddit sort limit timeFilter res H.
  destruct (token_phase_shape env clientId clientSecret) as (s & b & P & Tk).
  assert (U : btoa_defined (clientId ++ ":" ++ clientSecret)%string = false ->
              token_phase env clientId clientSecret
              = [EvStatus FetchingPosts false; EvStatus FetchingToken false;
                 EvStatus (ErrorToken InvalidCharacterError) true]).
  { intros B. unfold token_phase, getAccessToken. rewrite B. reflexivity. }
  apply fetchPosts_log in H
    as [[_ ->] | (ch & t & c & evs & fin & E & _ & _ & -> & Hfin & NT & _)].
  - cbn [res_trace res_mediaPosts res_nonMediaPosts].
    split; [| intros B; split; [reflexivity | split; [reflexivity | exact (U B)]]].
    rewrite P. exists [EvStatus s b]. split; [reflexivity|].
    split; [reflexivity|].
    destruct (btoa_defined (clientId ++ ":" ++ clientSecret)%string);
      reflexivity.
  - destruct Tk as (B & _); [rewrite E; reflexivity|].
    split; [| intros B'; congruence].
    assert (Fk : is_token fin = false).
    { destruct Hfin as [(st & _ & -> & _) | (e & st & _ & -> & _)]; reflexivity. }
    rewrite P. exists (EvStatus s b :: evs ++ [fin]).
    assert (Q : existsb is_token (EvStatus s b :: evs ++ [fin]) = false).
    { simpl. rewrite existsb_app, NT. simpl. rewrite Fk. reflexivity. }
    rewrite B.
    split; [reflexivity|].
    split; [exact Q|].
    change (([EvStatus FetchingPosts false; EvStatus FetchingToken false]
              ++ [EvToken (token_endpoint env clientId clientSecret)]
              ++ [EvStatus s b]) ++ evs ++ [fin])
      with ([EvStatus FetchingPosts false; EvStatus FetchingToken false;
             EvToken (token_endpoint env clientId clientSecret)]
              ++ (EvStatus s b :: evs ++ [fin])).
    rewrite count_app, (count_none _ _ Q). reflexivity.
Qed.

(** The first page is asked for at [baseUrl], and every later page at
    [baseUrl] with the [after] cursor that the page before it returned
    (lines 49 and 125). *)
Theorem page_addresses_are_chained :
  forall (env : Env) (clientId clientSecret subreddit sort : string)
         (limit : Z) (timeFilter : option string) (res : Result),
    fetchPosts env clientId clientSecret subreddit sort limit timeFilter
      = Some res ->
    chained (baseUrl subreddit sort limit timeFilter) (Some "") (res_trace res).
Proof.
  intros env clientId clientSecret subreddit sort limit timeFilter res H.
  destruct (token_phase_quiet env clientId clientSecret) as (NF & _).
  apply fetchPosts_log in H
    as [[_ ->] | (ch & t & c & evs & fin & _ & _ & _ & -> & Hfin & _ & CH & _)].
  - simpl. apply chained_no_fetch. exact NF.
  - apply chained_skip; [exact NF|].
    apply chained_then; [|exact CH].
    destruct Hfin as [(st & _ & -> & _) | (e & st & _ & -> & _)]; reflexivity.
Qed.

(** A run asks for another page only after a page that was not empty and
    came with a next cursor: an empty page and a page without cursor are
    the last ones asked for (lines 59 and 127), and so is a request that
    failed (line 56). *)
Theorem only_last_page_may_end_listing :
  forall (env : Env) (clientId clientSecret subreddit sort : string)
         (limit : Z) (timeFilter : option string) (res : Result),
    fetchPosts env clientId clientSecret subreddit sort limit timeFilter
      = Some res ->
    pages_go_on (res_trace res)
    /\ (forall pre u r post,
          res_trace res = pre ++ EvFetch u r :: post ->
          page_goes_on r = false ->
          existsb is_fetch post = false).
Proof.
  intros env clientId clientSecret subreddit sort limit timeFilter res H.
  assert (P : pages_go_on (res_trace res)).
  { destruct (token_phase_quiet env clientId clientSecret) as (NF & _).
    apply fetchPosts_log in H
      as [[_ ->] | (ch & t & c & evs & fin & _ & _ & _ & -> & Hfin & _ & _ & PG & _)].
    - simpl. apply pages_go_on_no_fetch. exact NF.
    - apply pages_go_on_skip; [exact NF|].
      apply pages_go_on_then; [|exact PG].
      destruct Hfin as [(st & _ & -> & _) | (e & st & _ & -> & _)]; reflexivity. }
  split; [exact P|].
  intros pre u r post E Hr. rewrite E in P. clear E H.
  induction pre as [|x pre IH]; simpl in P.
  - destruct P as [P _]. destruct (existsb is_fetch post); [|reflexivity].
    rewrite P in Hr by reflexivity. discriminate.
  - destruct x; try (apply IH; exact P). apply IH. apply P.
Qed.

(** The prompt is shown at most once in a run, and only in a run for one
    post in which three pages have been asked for and none held an image;
    whatever the operator answers, such a run asks for no fourth page and
    returns no media post (lines 40, 48 and 114). *)
Theorem prompt_once_after_three_barren_pages :
  forall (env : Env) (clientId clientSecret subreddit sort : string)
         (limit : Z) (timeFilter : option string) (res : Result),
    fetchPosts env clientId clientSecret subreddit sort limit timeFilter
      = Some res ->
    (count is_confirm (res_trace res) <= 1)%nat
    /\ (existsb is_confirm (res_trace res) = true ->
        limit = 1 /\ res_mediaPosts res = []
        /\ fetch_count (res_trace res) = 3%nat).
Proof.
  intros env clientId clientSecret subreddit sort limit timeFilter res H.
  destruct (token_phase_quiet env clientId clientSecret) as (NF & NC & _).
  apply fetchPosts_log in H
    as [[_ ->] | (ch & t & c & evs & fin & _ & _ & _ & Tr & Hfin & _ & _ & _ & CC & SF & _)].
  - simpl. rewrite (count_none _ _ NC), NC. split; [lia | discriminate].
  - assert (Q : exists s b, fin = EvStatus s b).
    { destruct Hfin as [(st & _ & -> & _) | (e & st & _ & -> & _)];
        do 2 eexists; reflexivity. }
    destruct Q as (s & b & Q).
    destruct (final_status_quiet fin s b Q) as (F1 & F2 & _).
    rewrite Tr. unfold fetch_count. rewrite !count_app, !existsb_app.
    rewrite (count_none _ _ NC), (count_none _ _ F2), (count_none _ _ NF),
      (count_none _ _ F1), NC, F2. simpl. rewrite orb_false_r, !Nat.add_0_r.
    split; [exact CC|].
    intros X. destruct (SF X) as (L & M & FC).
    split; [exact L|]. split; [|exact FC].
    destruct Hfin as [(st & -> & _ & -> & _) | (e & st & _ & _ & -> & _)];
      [exact M | reflexivity].
Qed.

(** A run sleeps one second at most for each page it asks for, so never
    longer than [maxRequests] seconds in all (lines 40 and 131). *)
Theorem sleep_is_bounded :
  forall (env : Env) (clientId clientSecret subreddit sort : string)
         (limit : Z) (timeFilter : option string) (res : Result),
    fetchPosts env clientId clientSecret subreddit sort limit timeFilter
      = Some res ->
    0 <= slept (res_trace res) <= 1000 * Z.of_nat (fetch_count (res_trace res))
    /\ slept (res_trace res) <= 1000 * maxRequests limit.
Proof.
  intros env clientId clientSecret subreddit sort limit timeFilter res H.
  destruct (token_phase_quiet env clientId clientSecret) as (NF & _ & S0).
  pose proof (maxRequests_min limit) as M3.
  apply fetchPosts_log in H
    as [[_ ->] | (ch & t & c & evs & fin & _ & _ & _ & Tr & Hfin & _ & _ & _ & _ & _ & SL & FB)].
  - cbn [res_trace]. rewrite S0. unfold fetch_count.
    rewrite (count_none _ _ NF). lia.
  - assert (Q : exists s b, fin = EvStatus s b).
    { destruct Hfin as [(st & _ & -> & _) | (e & st & _ & -> & _)];
        do 2 eexists; reflexivity. }
    destruct Q as (s & b & Q).
    destruct (final_status_quiet fin s b Q) as (F1 & _ & F3).
    rewrite Tr. unfold fetch_count in *. rewrite !count_app, !slept_app.
    rewrite (count_none _ _ NF), (count_none _ _ F1), S0, F3. lia.
Qed.

(** With a limit of zero or less the loop does not turn: the run asks for
    no page and returns two empty lists (line 48). It asks for a token
    once, unless [btoa] throws on the credentials (line 14), in which case
    it asks for none. *)
Theorem nonpositive_limit_fetches_nothing :
  forall (env : Env) (clientId clientSecret subreddit sort : string)
         (limit : Z) (timeFilter : option string) (res : Result),
    limit <= 0 ->
    fetchPosts env clientId clientSecret subreddit sort limit timeFilter
      = Some res ->
    res_mediaPosts res = [] /\ res_nonMediaPosts res = []
    /\ fetch_count (res_trace res) = 0%nat
    /\ count is_token (res_trace res)
       = if btoa_defined (clientId ++ ":" ++ clientSecret)%string
         then 1%nat else 0%nat.
Proof.
  intros env clientId clientSecret subreddit sort limit timeFilter res Hl H.
  destruct (token_phase_shape env clientId clientSecret) as (s & b & P & _).
  assert (P1 : fetch_count (token_phase env clientId clientSecret) = 0%nat
               /\ count is_token (token_phase env clientId clientSecret)
                  = if btoa_defined (clientId ++ ":" ++ clientSecret)%string
                    then 1%nat else 0%nat).
  { rewrite P.
    destruct (btoa_defined (clientId ++ ":" ++ clientSecret)%string);
      split; reflexivity. }
  destruct P1 as [PF PT].
  apply fetchPosts_log in H
    as [[_ ->] | (ch & t & c & evs & fin & _ & W & T & Tr & Hfin & _)].
  - cbn [res_trace res_mediaPosts res_nonMediaPosts].
    split; [reflexivity|]. split; [reflexivity|]. split; [exact PF | exact PT].
  - assert (E : c = Normal (empty_state (token_phase env clientId clientSecret))).
    { assert (C : loop_condition limit
                    (empty_state (token_phase env clientId clientSecret)) = false).
      { unfold loop_condition, media_length. simpl.
        destruct (Z.ltb_spec 0 limit); [lia | reflexivity]. }
      unfold fetchPosts in W.
      destruct (Z.to_nat (maxRequests limit)); simpl in W; rewrite C in W;
        injection W as <-; reflexivity. }
    subst c. simpl in T.
    assert (evs = []).
    { apply (app_inv_head (token_phase env clientId clientSecret)).
      rewrite app_nil_r. symmetry. exact T. }
    subst evs.
    destruct Hfin as [(st & E & -> & -> & ->) | (e & st & E & _)]; [|discriminate].
    injection E as <-.
    split; [reflexivity|]. split; [reflexivity|].
    rewrite Tr. unfold fetch_count in *. rewrite !count_app, PF, PT.
    split; [reflexivity|].
    destruct (btoa_defined (clientId ++ ":" ++ clientSecret)%string);
      reflexivity.
Qed.

Lemma nonpositive_limit_fetches_nothing_witness :
  exists res,
    fetchPosts Examples.rich "id" "secret" "pics" "best" 0 None = Some res
    /\ res_mediaPosts res = [] /\ res_nonMediaPosts res = []
    /\ fetch_count (res_trace res) = 0%nat
    /\ count is_token (res_trace res) = 1%nat.
Proof.
  eexists. split; [vm_compute; reflexivity|].
  apply (nonpositive_limit_fetches_nothing Examples.rich "id" "secret" "pics"
           "best" 0 None).
  - lia.
  - vm_compute. reflexivity.
Defined.

(** ** What is on [mediaPosts] *)

(** A post that is classified is pushed on [nonMediaPosts] as it is, or
    on [mediaPosts], as it is or with its preview address, and then with
    an address that is an image. *)
Lemma classify_post_inv (limit : Z) (post : Post) (st st' : RunState) :
  classify_post limit post st = Normal st' ->
  st' = push_nonMedia [post] st
  \/ (exists post',
        st' = push_media post' st /\ derived post post'
        /\ has_image_url post' /\ media_length st < limit).
Proof.
  unfold classify_post.
  destruct (url (data post)) as [u|] eqn:U; [|discriminate].
  destruct (has_media_suffix u) eqn:P.
  - destruct (Z.ltb_spec (media_length st) limit) as [Hlt|Hge];
      intros H; injection H as <-.
    + right. exists post. repeat split; [left; reflexivity | | assumption].
      exists u. split; assumption.
    + left. reflexivity.
  - destruct (has_media_suffix (previewUrl (data post))) eqn:Q.
    + destruct (Z.ltb_spec (media_length st) limit) as [Hlt|Hge];
        intros H; injection H as <-.
      * right. exists (set_url post (previewUrl (data post))).
        repeat split; [right; reflexivity | | assumption].
        exists (previewUrl (data post)). split; [reflexivity | exact Q].
      * left. reflexivity.
    + intros H. injection H as <-. left. reflexivity.
Qed.

Lemma filter_none {A : Type} (f : A -> bool) (l : list A) :
  (forall x, In x l -> f x = false) -> filter f l = [].
Proof.
  induction l as [|a l IH]; intros H; simpl; [reflexivity|].
  rewrite (H a) by (left; reflexivity).
  apply IH. intros x Hx. apply H. right. exact Hx.
Qed.

Lemma derived_oid (q p : Post) : derived q p -> oid p = oid q.
Proof. intros [-> | ->]; reflexivity. Qed.

Lemma prim_step_images limit st st' :
  prim_step limit st st' ->
  Forall has_image_url (mediaPosts st) ->
  Forall has_image_url (mediaPosts st').
Proof.
  intros [post s s' H | posts s | next s | s | e s] F; try exact F.
  apply classify_post_inv in H as [-> | (post' & -> & _ & I & _)].
  - exact F.
  - simpl. apply Forall_app. split; [exact F|]. constructor; [exact I | constructor].
Qed.

Lemma path_images limit st st' :
  path limit st st' ->
  Forall has_image_url (mediaPosts st) ->
  Forall has_image_url (mediaPosts st').
Proof.
  induction 1; auto. eapply prim_step_images; eassumption.
Qed.

(** The loop over a page of distinct objects, none of which is on
    [mediaPosts] yet: what [mediaPosts] grows by are the posts of the page
    that are on it in the end, in their order, each as it was delivered or
    with its preview address. *)
Lemma for_posts_listing (limit : Z) (posts : list Post) :
  forall (todo done : list Post) (st st' : RunState),
    posts = done ++ todo ->
    NoDup (map oid posts) ->
    (forall q, In q todo -> ~ In (oid q) (map oid (mediaPosts st))) ->
    for_posts limit posts todo st = Normal st' ->
    exists extra,
      mediaPosts st' = mediaPosts st ++ extra
      /\ Forall2 derived (filter (in_media (mediaPosts st')) todo) extra.
Proof.
  induction todo as [|p todo IH]; intros done st st' Hposts ND Hfresh H.
  - simpl in H. injection H as <-. exists []. simpl.
    rewrite app_nil_r. split; [reflexivity | constructor].
  - assert (NDp : ~ In (oid p) (map oid todo)).
    { rewrite Hposts, map_app in ND. apply NoDup_app_remove_l in ND.
      simpl in ND. inversion ND. assumption. }
    assert (Hslice : slice posts (indexOf posts p + 1) = todo).
    { rewrite Hposts. apply slice_after_indexOf. rewrite <- Hposts. exact ND. }
    assert (Hposts' : posts = (done ++ [p]) ++ todo).
    { rewrite <- app_assoc. exact Hposts. }
    simpl in H.
    destruct (classify_post limit p st) as [st1|st1|e st1] eqn:Hc;
      try discriminate.
    destruct (for_posts_partition limit posts (p :: todo) done st st'
                Hposts ND Hfresh) as (extra0 & M0 & I0 & _).
    { simpl. rewrite Hc. exact H. }
    apply classify_post_inv in Hc as [-> | (post' & -> & D & _ & _)].
    + (* pushed on nonMediaPosts *)
      assert (Hout : in_media (mediaPosts st') p = false).
      { destruct (media_length (push_nonMedia [p] st) >=? limit).
        - injection H as <-. simpl. apply in_media_false.
          apply Hfresh. left. reflexivity.
        - assert (Hfresh' : forall q, In q todo ->
                     ~ In (oid q) (map oid (mediaPosts (push_nonMedia [p] st)))).
          { intros q Hq. simpl. apply Hfresh. right. exact Hq. }
          destruct (for_posts_partition limit posts todo (done ++ [p]) _ _
                      Hposts' ND Hfresh' H) as (extra & M & I & _).
          simpl in M. apply in_media_false. rewrite M, map_app, in_app_iff.
          intros [Hin | Hin].
          + apply (Hfresh p); [left; reflexivity | exact Hin].
          + apply NDp. apply I. exact Hin. }
      simpl. rewrite Hout.
      destruct (media_length (push_nonMedia [p] st) >=? limit).
      * injection H as <-. exists []. simpl. rewrite app_nil_r.
        split; [reflexivity|].
        replace (filter (in_media (mediaPosts st)) todo) with (@nil Post);
          [constructor|].
        symmetry. apply filter_none. intros q Hq.
        rewrite in_media_false; [reflexivity|]. apply Hfresh. right. exact Hq.
      * assert (Hfresh' : forall q, In q todo ->
                   ~ In (oid q) (map oid (mediaPosts (push_nonMedia [p] st)))).
        { intros q Hq. simpl. apply Hfresh. right. exact Hq. }
        destruct (IH (done ++ [p]) (push_nonMedia [p] st) st' Hposts' ND
                    Hfresh' H) as (extra & M & F).
        exists extra. split; [exact M | exact F].
    + (* pushed on mediaPosts *)
      pose proof (derived_oid _ _ D) as Hoid.
      assert (Hfresh' : forall q, In q todo ->
                ~ In (oid q) (map oid (mediaPosts (push_media post' st)))).
      { intros q Hq. simpl. rewrite map_app, in_app_iff. simpl.
        intros [Hin | [E | []]].
        - apply (Hfresh q); [right; exact Hq | exact Hin].
        - apply NDp. rewrite <- Hoid, E. apply in_map. exact Hq. }
      destruct (media_length (push_media post' st) >=? limit).
      * injection H as <-. exists [post']. simpl.
        split; [reflexivity|].
        rewrite in_media_true
          by (rewrite map_app, in_app_iff; right; left; exact Hoid).
        replace (filter (in_media (mediaPosts st ++ [post'])) todo) with (@nil Post);
          [constructor; [exact D | constructor]|].
        symmetry. apply filter_none. intros q Hq.
        rewrite in_media_false; [reflexivity|].
        apply (Hfresh' q Hq).
      * destruct (IH (done ++ [p]) _ _ Hposts' ND Hfresh' H) as (extra & M & F).
        simpl in M. rewrite <- app_assoc in M.
        exists (post' :: extra). split; [exact M|].
        simpl. rewrite in_media_true.
        -- constructor; [exact D | exact F].
        -- rewrite M, map_app, in_app_iff. right. left. exact Hoid.
Qed.

Lemma Forall2_In_r {A B : Type} (R : A -> B -> Prop) (a : list A) (b : list B)
    (y : B) :
  Forall2 R a b -> In y b -> exists x, In x a /\ R x y.
Proof.
  induction 1 as [|x y' a b HR _ IH]; intros Hin; [contradiction|].
  destruct Hin as [<- | Hin].
  - exists x. split; [left; reflexivity | exact HR].
  - destruct (IH Hin) as (x' & Hx & HR'). exists x'.
    split; [right; exact Hx | exact HR'].
Qed.

Lemma Forall2_derived_oids (a b : list Post) :
  Forall2 derived a b -> map oid b = map oid a.
Proof.
  induction 1 as [|q p a b D _ IH]; simpl; [reflexivity|].
  rewrite IH, (derived_oid _ _ D). reflexivity.
Qed.

Lemma delivered_NoDup (tr : list Event) :
  forall k, NoDup (map oid (delivered_from k tr)).
Proof.
  induction tr as [|e tr IH]; intros k; simpl; [constructor|].
  destruct e as [m i | r | u r | ans | ms]; try apply IH.
  destruct r as [| err | children next]; try apply IH.
  rewrite map_app. apply NoDup_app; [apply posts_of_NoDup | apply IH|].
  intros o H1 H2.
  apply in_map_iff in H1 as (p & <- & Hp). apply posts_of_page in Hp.
  apply in_map_iff in H2 as (q & E & Hq). apply delivered_from_bound in Hq.
  rewrite E in Hq. lia.
Qed.

Lemma NoDup_app_disjoint {A : Type} (xs ys : list A) (o : A) :
  NoDup (xs ++ ys) -> In o xs -> In o ys -> False.
Proof.
  induction xs as [|x xs IH]; simpl; intros ND H1 H2; [contradiction|].
  apply NoDup_cons_iff in ND as [Hn ND'].
  destruct H1 as [-> | H1].
  - apply Hn. apply in_or_app. right. exact H2.
  - apply IH; assumption.
Qed.

(** Splitting a list of distinct objects in two by a test leaves the
    objects distinct. *)
Lemma split_NoDup (f : Post -> bool) (l : list Post) :
  NoDup (map oid l) ->
  NoDup (map oid (filter f l) ++ map oid (filter (fun p => negb (f p)) l)).
Proof.
  induction l as [|a l IH]; intros ND; simpl; [constructor|].
  apply NoDup_cons_iff in ND as [Hnotin ND'].
  assert (Hsub : forall g, incl (map oid (filter g l)) (map oid l)).
  { intros g o Ho. apply in_map_iff in Ho as (p & <- & Hp).
    apply filter_In in Hp as [Hp _]. apply in_map. exact Hp. }
  specialize (IH ND').
  destruct (f a); simpl.
  - constructor; [|exact IH].
    intros Hin. apply in_app_iff in Hin as [Hin | Hin];
      apply Hnotin; eapply Hsub; exact Hin.
  - apply NoDup_app.
    + eapply NoDup_app_remove_r. exact IH.
    + constructor.
      * intros Hin. apply Hnotin. eapply Hsub. exact Hin.
      * eapply NoDup_app_remove_l. exact IH.
    + intros o H1 [<- | H2].
      * apply Hnotin. eapply Hsub. exact H1.
      * eapply NoDup_app_disjoint; eassumption.
Qed.

Section Listing.

Variable env : Env.
Variable token : string.
Variable base : string.
Variable limit : Z.

Local Abbreviation body := (while_body env token base limit).
Local Abbreviation loop := (while_loop env token base limit).

Lemma listed_more_events (st st' : RunState) (evs : list Event) :
  listed st ->
  mediaPosts st' = mediaPosts st ->
  trace st' = trace st ++ evs ->
  existsb is_fetch evs = false ->
  listed st'.
Proof.
  unfold listed. intros L M T NF. rewrite M, T. unfold delivered.
  rewrite delivered_from_app, (delivered_from_no_fetch _ _ NF), app_nil_r.
  exact L.
Qed.

Lemma listed_page (st st2 : RunState) (children : list PostData)
    (next : option string) :
  accounted st ->
  listed st ->
  page_response env token base st = Listing children next ->
  for_posts limit (posts_of (fetch_count (trace st)) children)
            (posts_of (fetch_count (trace st)) children)
            (fetched env token base st) = Normal st2 ->
  listed st2.
Proof.
  intros [A1 A2] L R F.
  set (k := fetch_count (trace st)) in *.
  set (posts := posts_of k children) in *.
  assert (Hfresh : forall q, In q posts ->
            ~ In (oid q) (map oid (mediaPosts (fetched env token base st)))).
  { intros q Hq Hin. simpl in Hin. apply A2 in Hin.
    apply posts_of_page in Hq. lia. }
  destruct (for_posts_partition limit posts posts [] _ _ eq_refl
              (posts_of_NoDup k children) Hfresh F) as (extra0 & M0 & I0 & _).
  destruct (for_posts_listing limit posts posts [] _ _ eq_refl
              (posts_of_NoDup k children) Hfresh F) as (extra & M & FD).
  assert (extra0 = extra).
  { apply (app_inv_head (mediaPosts (fetched env token base st))).
    rewrite <- M0, <- M. reflexivity. }
  subst extra0.
  pose proof (for_posts_frame limit posts posts (fetched env token base st))
    as (T & _).
  rewrite F in T. simpl in T, M.
  assert (D : delivered (trace st2) = delivered (trace st) ++ posts).
  { rewrite T. unfold delivered. rewrite delivered_from_app. simpl.
    rewrite R. simpl. rewrite app_nil_r. reflexivity. }
  unfold listed.
  cut (Forall2 derived
         (filter (in_media (mediaPosts st2)) (delivered (trace st))
            ++ filter (in_media (mediaPosts st2)) posts)
         (mediaPosts st ++ extra));
    [rewrite <- M, <- filter_app, <- D; trivial|].
  apply Forall2_app; [|exact FD].
  replace (filter (in_media (mediaPosts st2)) (delivered (trace st)))
    with (filter (in_media (mediaPosts st)) (delivered (trace st)));
    [exact L|].
  apply filter_ext_in. intros p Hp.
  rewrite M, in_media_app.
  replace (in_media extra p) with false; [rewrite orb_false_r; reflexivity|].
  symmetry. apply in_media_false. intros Hin. apply I0 in Hin.
  apply in_map_iff in Hin as (q & E & Hq).
  apply posts_of_page in Hq. apply delivered_from_bound in Hp.
  rewrite E in Hq. unfold k, fetch_count in *. lia.
Qed.

Lemma while_body_listed (st : RunState) :
  accounted st ->
  listed st ->
  (forall e st', body st <> Throw e st') ->
  listed (state_of (body st)).
Proof.
  intros A L NT.
  destruct (while_body_cases env token base limit st)
    as [(e & F & B) | (children & next & R & [[C B] | [(e & st2 & F & B) | (st2 & F & C & [[Lm B] | [Lm B]])]])];
    cbv zeta in *.
  - exfalso. eapply NT. exact B.
  - rewrite B. unfold listed. simpl. unfold delivered.
    rewrite delivered_from_app. simpl. rewrite R, C. simpl.
    rewrite app_nil_r. exact L.
  - exfalso. eapply NT. exact B.
  - rewrite B. simpl. eapply listed_page; eassumption.
  - rewrite B.
    pose proof (listed_page _ _ _ _ A L R F) as L2.
    destruct (after_page_summary env limit next st2)
      as (evs & T & NF & M & _).
    eapply listed_more_events; eassumption.
Qed.

Lemma while_loop_listed (fuel : nat) :
  forall st st',
    accounted st -> listed st ->
    loop fuel st = Some (Normal st') ->
    listed st'.
Proof.
  induction fuel as [|fuel IH]; intros st st' A L H; simpl in H.
  - destruct (loop_condition limit st); [discriminate|].
    injection H as <-. exact L.
  - destruct (loop_condition limit st).
    + pose proof (while_body_accounted env token base limit _ A) as A'.
      pose proof (while_body_listed _ A L) as L'.
      destruct (body st) as [st1|st1|e st1]; simpl in A', L'.
      * eapply IH; [apply A' | apply L' | exact H]; discriminate.
      * injection H as <-. apply L'. discriminate.
      * discriminate.
    + injection H as <-. exact L.
Qed.

End Listing.

Lemma listed_start (tr : list Event) : listed (empty_state tr).
Proof.
  unfold listed. simpl.
  rewrite filter_none; [constructor|]. intros p _. reflexivity.
Qed.

(** ** Where the posts of [mediaPosts] come from *)

(** A post that is classified leaves [mediaPosts] as it is, or is pushed
    on it by its own address or by that of its preview. *)
Lemma classify_post_classified (limit : Z) (post : Post) (st st' : RunState) :
  classify_post limit post st = Normal st' ->
  mediaPosts st' = mediaPosts st
  \/ exists post',
       mediaPosts st' = mediaPosts st ++ [post'] /\ classified post post'.
Proof.
  unfold classify_post.
  destruct (url (data post)) as [u|] eqn:U; [|discriminate].
  destruct (has_media_suffix u) eqn:P.
  - destruct (media_length st <? limit); intros H; injection H as <-.
    + right. exists post. split; [reflexivity|].
      exists u. split; [exact U|]. left. split; [exact P | reflexivity].
    + left. reflexivity.
  - destruct (has_media_suffix (previewUrl (data post))) eqn:Q.
    + destruct (media_length st <? limit); intros H; injection H as <-.
      * right. eexists. split; [reflexivity|].
        exists u. split; [exact U|]. right.
        split; [exact P|]. split; [exact Q | reflexivity].
      * left. reflexivity.
    + intros H. injection H as <-. left. reflexivity.
Qed.

(** What the loop over a page adds to [mediaPosts] are posts of the
    page, each put there by its own address or by that of its preview. *)
Lemma for_posts_classified (limit : Z) (posts : list Post) :
  forall (todo : list Post) (st st' : RunState),
    for_posts limit posts todo st = Normal st' ->
    forall p, In p (mediaPosts st') ->
      In p (mediaPosts st) \/ exists q, In q todo /\ classified q p.
Proof.
  induction todo as [|post todo IH]; intros st st' H p Hp; simpl in H.
  - injection H as <-. left. exact Hp.
  - destruct (classify_post limit post st) as [st1|st1|e st1] eqn:C;
      try discriminate.
    assert (Hp1 : In p (mediaPosts st1) ->
              In p (mediaPosts st)
              \/ exists q, In q (post :: todo) /\ classified q p).
    { intros X.
      apply classify_post_classified in C as [E | (post' & E & K)];
        rewrite E in X.
      - left. exact X.
      - apply in_app_iff in X as [X | [<- | []]]; [left; exact X|].
        right. exists post. split; [left; reflexivity | exact K]. }
    destruct (media_length st1 >=? limit).
    + injection H as <-. simpl in Hp. apply Hp1. exact Hp.
    + destruct (IH _ _ H p Hp) as [X | (q & Hq & K)].
      * apply Hp1. exact X.
      * right. exists q. split; [right; exact Hq | exact K].
Qed.

(** Objects of a list of distinct objects are the same when they have the
    same identity. *)
Lemma NoDup_oid_eq (l : list Post) (a b : Post) :
  NoDup (map oid l) -> In a l -> In b l -> oid a = oid b -> a = b.
Proof.
  induction l as [|x l IH]; intros ND Ha Hb E; [contradiction|].
  simpl in ND. apply NoDup_cons_iff in ND as [Hn ND].
  destruct Ha as [<- | Ha]; destruct Hb as [<- | Hb].
  - reflexivity.
  - exfalso. apply Hn. rewrite E. apply in_map. exact Hb.
  - exfalso. apply Hn. rewrite <- E. apply in_map. exact Ha.
  - apply IH; assumption.
Qed.

Lemma classified_oid (q p : Post) : classified q p -> oid p = oid q.
Proof. intros (u & _ & [(_ & ->) | (_ & _ & ->)]); reflexivity. Qed.

Section Sourcing.

Variable env : Env.
Variable token : string.
Variable base : string.
Variable limit : Z.

Local Abbreviation body := (while_body env token base limit).
Local Abbreviation loop := (while_loop env token base limit).

Lemma sourced_more_events (st st' : RunState) (evs : list Event) :
  sourced st ->
  mediaPosts st' = mediaPosts st ->
  trace st' = trace st ++ evs ->
  sourced st'.
Proof.
  unfold sourced. intros S M T p Hp. rewrite M in Hp.
  destruct (S p Hp) as (q & Hq & K). exists q. split; [|exact K].
  rewrite T. unfold delivered in *. rewrite delivered_from_app.
  apply in_or_app. left. exact Hq.
Qed.

Lemma sourced_page (st st2 : RunState) (children : list PostData)
    (next : option string) :
  sourced st ->
  page_response env token base st = Listing children next ->
  for_posts limit (posts_of (fetch_count (trace st)) children)
            (posts_of (fetch_count (trace st)) children)
            (fetched env token base st) = Normal st2 ->
  sourced st2.
Proof.
  intros S R F p Hp.
  pose proof (for_posts_frame limit (posts_of (fetch_count (trace st)) children)
                (posts_of (fetch_count (trace st)) children)
                (fetched env token base st)) as (T & _).
  rewrite F in T. simpl in T.
  assert (D : delivered (trace st2)
              = delivered (trace st) ++ posts_of (fetch_count (trace st)) children).
  { rewrite T. unfold delivered. rewrite delivered_from_app. simpl.
    rewrite R. simpl. rewrite app_nil_r. reflexivity. }
  rewrite D.
  destruct (for_posts_classified _ _ _ _ _ F p Hp) as [X | (q & Hq & K)].
  - simpl in X. destruct (S p X) as (q & Hq & K).
    exists q. split; [apply in_or_app; left; exact Hq | exact K].
  - exists q. split; [apply in_or_app; right; exact Hq | exact K].
Qed.

Lemma while_body_sourced (st : RunState) :
  sourced st ->
  (forall e st', body st <> Throw e st') ->
  sourced (state_of (body st)).
Proof.
  intros S NT.
  destruct (while_body_cases env token base limit st)
    as [(e & F & B) | (children & next & R & [[C B] | [(e & st2 & F & B) | (st2 & F & C & [[Lm B] | [Lm B]])]])];
    cbv zeta in *.
  - exfalso. eapply NT. exact B.
  - rewrite B. simpl.
    apply (sourced_more_events st (fetched env token base st)
             [EvFetch (page_url base st) (page_response env token base st)]);
      [exact S | reflexivity | reflexivity].
  - exfalso. eapply NT. exact B.
  - rewrite B. simpl. eapply sourced_page; eassumption.
  - rewrite B.
    pose proof (sourced_page _ _ _ _ S R F) as S2.
    destruct (after_page_summary env limit next st2)
      as (evs & T & _ & M & _).
    eapply sourced_more_events; eassumption.
Qed.

Lemma while_loop_sourced (fuel : nat) :
  forall st st',
    sourced st ->
    loop fuel st = Some (Normal st') ->
    sourced st'.
Proof.
  induction fuel as [|fuel IH]; intros st st' S H; simpl in H.
  - destruct (loop_condition limit st); [discriminate|].
    injection H as <-. exact S.
  - destruct (loop_condition limit st).
    + pose proof (while_body_sourced _ S) as S'.
      destruct (body st) as [st1|st1|e st1]; simpl in S'.
      * eapply IH; [apply S' | exact H]. discriminate.
      * injection H as <-. apply S'. discriminate.
      * discriminate.
    + injection H as <-. exact S.
Qed.

End Sourcing.

Lemma sourced_start (tr : list Event) : sourced (empty_state tr).
Proof. intros p []. Qed.

(** Every post that [fetchPosts] returns on [mediaPosts] has a [url], and
    one that ends, in lower case and without its query string, in
    [.gif], [.jpg], [.jpeg] or [.png]. It is a delivered post: one whose
    own address is an image, returned as it was delivered, or one whose
    own address is no image and whose preview address is one, returned
    with the preview address as its [url] and nothing else changed
    (lines 67-74 and 84-92). So a delivered post whose own address is no
    image is on [mediaPosts] only with its preview address as [url]. *)
Theorem media_posts_have_image_urls :
  forall (env : Env) (clientId clientSecret subreddit sort : string)
         (limit : Z) (timeFilter : option string) (res : Result),
    fetchPosts env clientId clientSecret subreddit sort limit timeFilter
      = Some res ->
    Forall has_image_url (res_mediaPosts res)
    /\ (forall p, In p (res_mediaPosts res) ->
          exists q, In q (delivered (res_trace res)) /\ classified q p)
    /\ (forall q p u,
          In q (delivered (res_trace res)) ->
          In p (res_mediaPosts res) ->
          oid p = oid q ->
          url (data q) = Some u ->
          (has_media_suffix u = true -> p = q)
          /\ (has_media_suffix u = false ->
              has_media_suffix (previewUrl (data q)) = true
              /\ p = set_url q (previewUrl (data q))
              /\ url (data p) = Some (previewUrl (data q)))).
Proof.
  intros env clientId clientSecret subreddit sort limit timeFilter res H.
  assert (I : Forall has_image_url (res_mediaPosts res)).
  { apply fetchPosts_fuel_cases in H as (c & T & Hres).
    apply try_block_reachable in T.
    apply path_images in T; [|constructor].
    destruct Hres as [(st & -> & ->) | (e & st & -> & ->)]; simpl.
    - exact T.
    - constructor. }
  assert (S : forall p, In p (res_mediaPosts res) ->
                exists q, In q (delivered (res_trace res)) /\ classified q p).
  { apply fetchPosts_fuel_cases in H as (c & T & Hres).
    apply try_block_cases in T
      as (pre & NF & _ & _ & _ & [-> | [(tok & st & W & ->) | (tok & e & st & W & ->)]]).
    - destruct Hres as [(st & E & ->) | (e & st & E & _)]; [|discriminate].
      injection E as <-. intros p [].
    - destruct Hres as [(st' & E & ->) | (e & st' & E & _)]; [|discriminate].
      injection E as <-. simpl.
      apply while_loop_sourced in W; [|apply sourced_start].
      intros p Hp. destruct (W p Hp) as (q & Hq & K).
      exists q. split; [|exact K].
      unfold delivered in *. rewrite delivered_from_app.
      apply in_or_app. left. exact Hq.
    - destruct Hres as [(st' & E & _) | (e' & st' & E & ->)]; [discriminate|].
      intros p []. }
  split; [exact I|]. split; [exact S|].
  intros q p u Hq Hp Eo U.
  destruct (S p Hp) as (q' & Hq' & K).
  assert (q' = q).
  { apply (NoDup_oid_eq (delivered (res_trace res)));
      [apply delivered_NoDup | exact Hq' | exact Hq|].
    rewrite <- (classified_oid _ _ K). exact Eo. }
  subst q'.
  destruct K as (u' & U' & K). rewrite U in U'. injection U' as <-.
  destruct K as [(P & ->) | (P & Q & ->)]; split; intros X;
    try congruence.
  split; [exact Q|]. split; reflexivity.
Qed.

(** The posts that [fetchPosts] returns on [mediaPosts] are delivered
    posts, in the order in which they arrived, each one as it was
    delivered or with its [url] overwritten by its own preview address;
    the title, the permalink and the preview of a post are never
    changed. *)
Theorem media_posts_in_arrival_order :
  forall (env : Env) (clientId clientSecret subreddit sort : string)
         (limit : Z) (timeFilter : option string) (res : Result),
    fetchPosts env clientId clientSecret subreddit sort limit timeFilter
      = Some res ->
    Forall2 derived
            (filter (in_media (res_mediaPosts res)) (delivered (res_trace res)))
            (res_mediaPosts res)
    /\ (forall p, In p (res_mediaPosts res) ->
          exists q, In q (delivered (res_trace res))
                    /\ oid p = oid q
                    /\ title (data p) = title (data q)
                    /\ permalink (data p) = permalink (data q)
                    /\ preview (data p) = preview (data q)
                    /\ (url (data p) = url (data q)
                        \/ url (data p) = Some (previewUrl (data q)))).
Proof.
  intros env clientId clientSecret subreddit sort limit timeFilter res H.
  assert (L : Forall2 derived
                (filter (in_media (res_mediaPosts res)) (delivered (res_trace res)))
                (res_mediaPosts res)).
  { apply fetchPosts_fuel_cases in H as (c & T & Hres).
    apply try_block_cases in T
      as (pre & NF & _ & _ & _ & [-> | [(tok & st & W & ->) | (tok & e & st & W & ->)]]).
    - destruct Hres as [(st & E & ->) | (e & st & E & _)]; [|discriminate].
      injection E as <-. apply listed_start.
    - destruct Hres as [(st' & E & ->) | (e & st' & E & _)]; [|discriminate].
      injection E as <-. simpl.
      apply while_loop_listed in W;
        [|apply accounted_start; exact NF | apply listed_start].
      unfold listed in W. unfold delivered in *.
      rewrite delivered_from_app. simpl. rewrite app_nil_r. exact W.
    - destruct Hres as [(st' & E & _) | (e' & st' & E & ->)]; [discriminate|].
      simpl. rewrite filter_none; [constructor|]. intros p _. reflexivity. }
  split; [exact L|].
  intros p Hp.
  destruct (Forall2_In_r _ _ _ _ L Hp) as (q & Hq & D).
  apply filter_In in Hq as [Hq _].
  exists q. split; [exact Hq|].
  destruct D as [-> | ->]; simpl; repeat split; auto.
Qed.

(** No post is returned twice: the objects on the two lists that
    [fetchPosts] returns are pairwise distinct, within each list and
    across the two. *)
Theorem no_post_listed_twice :
  forall (env : Env) (clientId clientSecret subreddit sort : string)
         (limit : Z) (timeFilter : option string) (res : Result),
    fetchPosts env clientId clientSecret subreddit sort limit timeFilter
      = Some res ->
    NoDup (map oid (res_mediaPosts res ++ res_nonMediaPosts res)).
Proof.
  intros env clientId clientSecret subreddit sort limit timeFilter res H.
  apply fetchPosts_fuel_cases in H as (c & T & Hres).
  apply try_block_cases in T
    as (pre & NF & _ & _ & _ & [-> | [(tok & st & W & ->) | (tok & e & st & W & ->)]]).
  - destruct Hres as [(st & E & ->) | (e & st & E & _)]; [|discriminate].
    injection E as <-. simpl. constructor.
  - destruct Hres as [(st' & E & ->) | (e & st' & E & _)]; [|discriminate].
    injection E as <-. simpl.
    pose proof (while_loop_accounted _ _ _ _ _ _ _ (accounted_start pre NF) W)
      as [A _].
    pose proof (while_loop_listed _ _ _ _ _ _ _ (accounted_start pre NF)
                  (listed_start pre) W) as L.
    apply Forall2_derived_oids in L.
    rewrite map_app, L, A.
    apply split_NoDup. apply delivered_NoDup.
  - destruct Hres as [(st' & E & _) | (e' & st' & E & ->)]; [discriminate|].
    simpl. constructor.
Qed.

(** ** The test of an address *)

Lemma string_length_append (a b : string) :
  String.length (a ++ b)%string = (String.length a + String.length b)%nat.
Proof. induction a as [|c a IH]; simpl; [reflexivity|]. rewrite IH. reflexivity. Qed.

Lemma substring_whole (s : string) : substring 0 (String.length s) s = s.
Proof. induction s as [|c s IH]; simpl; [reflexivity|]. rewrite IH. reflexivity. Qed.

Lemma substring_after (a b : string) :
  substring (String.length a) (String.length b) (a ++ b)%string = b.
Proof. induction a as [|c a IH]; simpl; [apply substring_whole | exact IH]. Qed.

Lemma substring_split (s : string) :
  forall k, (k <= String.length s)%nat ->
    s = (substring 0 k s ++ substring k (String.length s - k) s)%string.
Proof.
  induction s as [|c s IH]; intros k Hk; simpl in *.
  - destruct k; reflexivity.
  - destruct k as [|k]; simpl.
    + rewrite substring_whole. reflexivity.
    + rewrite <- IH by lia. reflexivity.
Qed.

(** [s.endsWith(suffix)] holds when [s] is some string followed by
    [suffix]. *)
Lemma endsWith_spec (s suffix : string) :
  endsWith s suffix = true <-> exists stem, s = (stem ++ suffix)%string.
Proof.
  unfold endsWith. rewrite andb_true_iff, Nat.leb_le, String.eqb_eq. split.
  - intros [Hle Hsub].
    exists (substring 0 (String.length s - String.length suffix) s).
    pose proof (substring_split s (String.length s - String.length suffix))
      as E.
    replace (String.length s - (String.length s - String.length suffix))%nat
      with (String.length suffix) in E by lia.
    rewrite Hsub in E. apply E. lia.
  - intros [stem ->]. rewrite string_length_append. split; [lia|].
    replace (String.length stem + String.length suffix - String.length suffix)%nat
      with (String.length stem) by lia.
    apply substring_after.
Qed.

Lemma lower_ascii_idem (c : ascii) : lower_ascii (lower_ascii c) = lower_ascii c.
Proof.
  destruct c as [[] [] [] [] [] [] [] []]; reflexivity.
Qed.

Lemma toLowerCase_idem (s : string) : toLowerCase (toLowerCase s) = toLowerCase s.
Proof.
  induction s as [|c s IH]; simpl; [reflexivity|].
  rewrite lower_ascii_idem, IH. reflexivity.
Qed.

Lemma split_query_head_append (u q : string) :
  split_query_head (toLowerCase (u ++ String "?" q))
    = split_query_head (toLowerCase u).
Proof.
  induction u as [|c u IH]; simpl; [reflexivity|].
  rewrite IH. reflexivity.
Qed.

(** The test of lines 64-72 looks at the address in lower case and
    without its query string: neither the case of the letters nor
    anything from the first question mark on changes its outcome. *)
Theorem media_suffix_ignores_case_and_query :
  forall (u q : string),
    has_media_suffix (toLowerCase u) = has_media_suffix u
    /\ has_media_suffix (u ++ String "?" q) = has_media_suffix u.
Proof.
  intros u q. unfold has_media_suffix. cbv zeta.
  rewrite toLowerCase_idem, split_query_head_append. split; reflexivity.
Qed.

(** An address passes the test exactly when what stands before its first
    question mark, in lower case, is some string followed by [.gif],
    [.jpg], [.jpeg] or [.png]. *)
Theorem media_suffix_spec :
  forall (u : string),
    has_media_suffix u = true <->
    exists stem ext,
      split_query_head (toLowerCase u) = (stem ++ ext)%string
      /\ In ext [".gif"; ".jpg"; ".jpeg"; ".png"].
Proof.
  intros u. unfold has_media_suffix. cbv zeta.
  rewrite !orb_true_iff, !endsWith_spec. split.
  - intros [[[[stem E] | [stem E]] | [stem E]] | [stem E]];
      exists stem; eexists; (split; [exact E|]); simpl; auto.
  - intros (stem & ext & E & [<- | [<- | [<- | [<- | []]]]]).
    + left. left. left. exists stem. exact E.
    + left. left. right. exists stem. exact E.
    + left. right. exists stem. exact E.
    + right. exists stem. exact E.
Qed.

(** ** [displayMedia] *)

Lemma truthy_string (s : string) : truthy (Some s) = false <-> s = "".
Proof. destruct s; simpl; split; intros H; try reflexivity; discriminate. Qed.

Lemma run_events_app (a b : list UiEvent) :
  run_events (a ++ b) = run_events a ++ run_events b.
Proof.
  induction a as [|e a IH]; simpl; [reflexivity|].
  destruct e; simpl; rewrite IH; reflexivity.
Qed.

Lemma run_events_map (tr : list Event) : run_events (map UiRun tr) = tr.
Proof. induction tr as [|e tr IH]; simpl; [reflexivity|]. rewrite IH. reflexivity. Qed.

Lemma status_bar_last_page (l : list UiEvent) (m : PageStatus) (b : bool) :
  status_bar (l ++ [UiStatus m b]) = Some (BarPage m, b).
Proof. unfold status_bar. rewrite fold_left_app. reflexivity. Qed.

Lemma status_bar_last_run (l : list UiEvent) (tr : list Event) (s : Status)
    (b : bool) (m nm : list Post) :
  status_bar (l ++ map UiRun (tr ++ [EvStatus s b])
                ++ [UiSpinner false; UiRender m nm] ++ [])
    = Some (BarRun s, b).
Proof.
  unfold status_bar. rewrite map_app, !fold_left_app. reflexivity.
Qed.

(** What [displayMedia] does once the three fields are filled in. *)
Lemma displayMedia_filled (env : Env) (inp : Inputs) :
  client_id inp <> "" -> client_secret inp <> "" -> subreddit_input inp <> "" ->
  displayMedia env inp
  = match fetchPosts env (client_id inp) (client_secret inp) (subreddit_input inp)
            (chosen_sort inp) (clamp_limit (limitInput inp))
            (chosen_timeFilter inp) with
    | None => None
    | Some res =>
        Some ([UiClear; UiSpinner true]
              ++ map UiRun (res_trace res)
              ++ [UiSpinner false;
                  UiRender (res_mediaPosts res) (res_nonMediaPosts res)]
              ++ (if Z.of_nat (List.length (res_mediaPosts res))
                     <? clamp_limit (limitInput inp)
                  then [UiStatus (OnlyFound (List.length (res_mediaPosts res))) true]
                  else []))
    end.
Proof.
  intros H1 H2 H3. unfold displayMedia. cbv zeta.
  destruct (truthy (Some (client_id inp))) eqn:T1;
    [|apply truthy_string in T1; contradiction].
  destruct (truthy (Some (client_secret inp))) eqn:T2;
    [|apply truthy_string in T2; contradiction].
  destruct (truthy (Some (subreddit_input inp))) eqn:T3;
    [|apply truthy_string in T3; contradiction].
  reflexivity.
Qed.

(** [displayMedia] stops at an empty field. *)
Lemma displayMedia_cases (env : Env) (inp : Inputs) :
  displayMedia env inp = Some [UiStatus EnterCredentials true]
  \/ displayMedia env inp = Some [UiStatus EnterSubreddit true]
  \/ (client_id inp <> "" /\ client_secret inp <> ""
      /\ subreddit_input inp <> "").
Proof.
  unfold displayMedia. cbv zeta.
  destruct (truthy (Some (client_id inp))) eqn:T1; [|left; reflexivity].
  destruct (truthy (Some (client_secret inp))) eqn:T2; [|left; reflexivity].
  destruct (truthy (Some (subreddit_input inp))) eqn:T3;
    [|right; left; reflexivity].
  right. right. repeat split; intros E; apply truthy_string in E; congruence.
Qed.

(** The events of [fetchPosts] in what [displayMedia] does. *)
Lemma displayMedia_run_events (env : Env) (inp : Inputs) (tr : list UiEvent) :
  client_id inp <> "" -> client_secret inp <> "" -> subreddit_input inp <> "" ->
  displayMedia env inp = Some tr ->
  exists res,
    fetchPosts env (client_id inp) (client_secret inp) (subreddit_input inp)
               (chosen_sort inp) (clamp_limit (limitInput inp))
               (chosen_timeFilter inp) = Some res
    /\ run_events tr = res_trace res.
Proof.
  intros N1 N2 N3 H. rewrite (displayMedia_filled env inp N1 N2 N3) in H.
  destruct (fetchPosts env (client_id inp) (client_secret inp)
              (subreddit_input inp) (chosen_sort inp)
              (clamp_limit (limitInput inp)) (chosen_timeFilter inp))
    as [res|]; [|discriminate].
  exists res. split; [reflexivity|].
  assert (E : forall l, l = tr -> run_events l = run_events tr)
    by (intros l ->; reflexivity).
  rewrite <- (E _ (f_equal (fun o => match o with Some l => l | None => tr end) H)).
  rewrite !run_events_app, run_events_map.
  destruct (Z.of_nat (List.length (res_mediaPosts res))
            <? clamp_limit (limitInput inp)); simpl; apply app_nil_r.
Qed.

Lemma fetchPosts_media_bound (env : Env)
    (clientId clientSecret subreddit sort : string) (limit : Z)
    (timeFilter : option string) (res : Result) :
  0 <= limit ->
  fetchPosts env clientId clientSecret subreddit sort limit timeFilter = Some res ->
  Z.of_nat (List.length (res_mediaPosts res)) <= limit.
Proof.
  intros Hl H. apply fetchPosts_fuel_cases in H as (c & T & Hres).
  apply try_block_reachable in T.
  apply path_media_bound in T; [|simpl; exact Hl].
  destruct Hres as [(st & -> & ->) | (e & st & -> & ->)]; simpl.
  - exact T.
  - exact Hl.
Qed.

Lemma token_phase_one_token (env : Env) (clientId clientSecret : string) :
  count is_token (token_phase env clientId clientSecret)
  = if btoa_defined (clientId ++ ":" ++ clientSecret)%string
    then 1%nat else 0%nat.
Proof.
  destruct (token_phase_shape env clientId clientSecret) as (s & b & -> & _).
  destruct (btoa_defined (clientId ++ ":" ++ clientSecret)%string);
    reflexivity.
Qed.

Lemma fetchPosts_bounds (env : Env)
    (clientId clientSecret subreddit sort : string) (limit : Z)
    (timeFilter : option string) (res : Result) :
  fetchPosts env clientId clientSecret subreddit sort limit timeFilter = Some res ->
  Z.of_nat (fetch_count (res_trace res)) <= maxRequests limit
  /\ slept (res_trace res) <= 1000 * maxRequests limit
  /\ count is_token (res_trace res)
     = if btoa_defined (clientId ++ ":" ++ clientSecret)%string
       then 1%nat else 0%nat.
Proof.
  intros H.
  destruct (token_phase_quiet env clientId clientSecret) as (NF & _ & S0).
  pose proof (token_phase_one_token env clientId clientSecret) as TK.
  pose proof (maxRequests_min limit) as M3.
  apply fetchPosts_log in H
    as [[_ ->] | (ch & t & c & evs & fin & _ & _ & _ & Tr & Hfin & NT & _ & _ & _ & _ & SL & FB)].
  - cbn [res_trace]. unfold fetch_count. rewrite (count_none _ _ NF), S0, TK.
    split; [lia|]. split; [lia | reflexivity].
  - assert (Q : exists s' b', fin = EvStatus s' b').
    { destruct Hfin as [(st & _ & -> & _) | (e & st & _ & -> & _)];
        do 2 eexists; reflexivity. }
    destruct Q as (s' & b' & Q).
    destruct (final_status_quiet fin s' b' Q) as (F1 & _ & F3).
    assert (F4 : count is_token [fin] = 0%nat) by (rewrite Q; reflexivity).
    rewrite Tr. unfold fetch_count in *.
    rewrite !count_app, !slept_app, (count_none _ _ NT), (count_none _ _ NF),
      (count_none _ _ F1), S0, F3, TK, F4.
    split; [lia|]. split; [lia|]. rewrite !Nat.add_0_r. reflexivity.
Qed.

(** [displayMedia] asks for nothing while a field is empty: it reports
    which one and leaves the page as it is; and once the three fields are
    filled in, it empties the page and shows the spinner, and asks for a
    token once, unless [btoa] throws on the credentials, in which case it
    asks for none (lines 14 and 152-167). *)
Theorem displayMedia_validates_inputs :
  forall (env : Env) (inp : Inputs),
    exists tr,
      displayMedia env inp = Some tr
      /\ (client_id inp = "" \/ client_secret inp = "" ->
          tr = [UiStatus EnterCredentials true])
      /\ (client_id inp <> "" -> client_secret inp <> "" ->
          subreddit_input inp = "" ->
          tr = [UiStatus EnterSubreddit true])
      /\ (client_id inp <> "" -> client_secret inp <> "" ->
          subreddit_input inp <> "" ->
          count is_token (run_events tr)
          = (if btoa_defined (client_id inp ++ ":" ++ client_secret inp)%string
             then 1%nat else 0%nat)
          /\ exists rest, tr = UiClear :: UiSpinner true :: rest).
Proof.
  intros env inp.
  destruct (truthy (Some (client_id inp))) eqn:T1.
  2:{ exists [UiStatus EnterCredentials true].
      unfold displayMedia. cbv zeta. rewrite T1. simpl.
      apply truthy_string in T1.
      repeat split; auto; intros; contradiction. }
  destruct (truthy (Some (client_secret inp))) eqn:T2.
  2:{ exists [UiStatus EnterCredentials true].
      unfold displayMedia. cbv zeta. rewrite T1, T2. simpl.
      apply truthy_string in T2.
      repeat split; auto; intros; contradiction. }
  assert (N1 : client_id inp <> "").
  { intros E. apply truthy_string in E. congruence. }
  assert (N2 : client_secret inp <> "").
  { intros E. apply truthy_string in E. congruence. }
  destruct (truthy (Some (subreddit_input inp))) eqn:T3.
  2:{ exists [UiStatus EnterSubreddit true].
      unfold displayMedia. cbv zeta. rewrite T1, T2, T3. simpl.
      apply truthy_string in T3.
      split; [reflexivity|]. split; [intros [E | E]; contradiction|].
      split; [reflexivity|]. intros _ _ E. contradiction. }
  assert (N3 : subreddit_input inp <> "").
  { intros E. apply truthy_string in E. congruence. }
  rewrite (displayMedia_filled env inp N1 N2 N3).
  destruct (fetchPosts_total env (client_id inp) (client_secret inp)
              (subreddit_input inp) (chosen_sort inp)
              (clamp_limit (limitInput inp)) (chosen_timeFilter inp))
    as [res R].
  rewrite R. eexists. split; [reflexivity|].
  split; [intros [E | E]; contradiction|].
  split; [intros _ _ E; contradiction|].
  intros _ _ _. split; [|eexists; reflexivity].
  apply fetchPosts_bounds in R as (_ & _ & Tk).
  rewrite !run_events_app, run_events_map.
  destruct (Z.of_nat (List.length (res_mediaPosts res)) <? clamp_limit (limitInput inp));
    simpl; rewrite app_nil_r; exact Tk.
Qed.

Lemma maxRequests_clamped (limit : Z) :
  1 <= limit <= 100 -> maxRequests limit <= 300.
Proof. unfold maxRequests. destruct (limit =? 1); lia. Qed.

(** Whatever stands in the limit field, [displayMedia] asks for between 1
    and 100 posts: an empty field, one that is no number and a zero count
    as 5, a negative number as 1, a larger one as 100. So one call asks
    for at most one token and 300 pages, of 100 posts at most each, and
    sleeps five minutes at most (lines 40-41, 147 and 160). *)
Theorem displayMedia_limit_and_budget :
  forall (env : Env) (inp : Inputs) (tr : list UiEvent),
    displayMedia env inp = Some tr ->
    1 <= clamp_limit (limitInput inp) <= 100
    /\ (limit_input inp = None \/ limit_input inp = Some 0 ->
        clamp_limit (limitInput inp) = 5)
    /\ (forall n, limit_input inp = Some n ->
          (n < 0 -> clamp_limit (limitInput inp) = 1)
          /\ (1 <= n <= 100 -> clamp_limit (limitInput inp) = n)
          /\ (100 < n -> clamp_limit (limitInput inp) = 100))
    /\ 6 <= batchSize (clamp_limit (limitInput inp)) <= 100
    /\ Z.of_nat (fetch_count (run_events tr)) <= 300
    /\ slept (run_events tr) <= 300000
    /\ (count is_token (run_events tr) <= 1)%nat.
Proof.
  intros env inp tr H.
  pose proof (clamp_limit_range (limitInput inp)) as R.
  split; [exact R|]. split; [|split; [|split]].
  - unfold limitInput, clamp_limit. intros [-> | ->]; reflexivity.
  - intros n E. unfold limitInput, clamp_limit. rewrite E.
    destruct (Z.eqb_spec n 0); repeat split; intros; lia.
  - unfold batchSize. lia.
  - pose proof (maxRequests_clamped _ R) as M.
    destruct (displayMedia_cases env inp) as [E | [E | (N1 & N2 & N3)]].
    { rewrite E in H. injection H as <-. cbn. repeat split; lia. }
    { rewrite E in H. injection H as <-. cbn. repeat split; lia. }
    destruct (displayMedia_run_events env inp tr N1 N2 N3 H) as (res & F & ->).
    apply fetchPosts_bounds in F as (FB & SB & TK).
    split; [lia|]. split; [lia|]. rewrite TK.
    destruct (btoa_defined (client_id inp ++ ":" ++ client_secret inp)%string);
      lia.
Qed.

Lemma displayMedia_limit_and_budget_witness :
  exists tr,
    displayMedia Examples.rich MoreExamples.filled = Some tr
    /\ clamp_limit (limitInput MoreExamples.filled) = 5
    /\ Z.of_nat (fetch_count (run_events tr)) <= 300.
Proof.
  eexists. split; [vm_compute; reflexivity|].
  match goal with
  | |- context [run_events ?t] =>
      pose proof (displayMedia_limit_and_budget Examples.rich MoreExamples.filled t)
        as H
  end.
  destruct H as (_ & H5 & _ & _ & HF & _); [vm_compute; reflexivity|].
  split; [apply H5; left; reflexivity | exact HF].
Defined.

(** When [displayMedia] has run [fetchPosts], the status bar tells how many
    image posts were found: in red [Only n image posts found] when they
    are fewer than the limit, else [Successfully fetched n image posts]
    with [n] the limit. Whatever [fetchPosts] reported, a failed token
    exchange ([btoa] threw, or the token endpoint gave no token), a failed
    page request or the stall, is overwritten (lines 134, 137 and
    211-214). *)
Theorem displayMedia_final_status :
  forall (env : Env) (inp : Inputs) (tr : list UiEvent),
    client_id inp <> "" -> client_secret inp <> "" ->
    subreddit_input inp <> "" ->
    displayMedia env inp = Some tr ->
    exists res,
      fetchPosts env (client_id inp) (client_secret inp) (subreddit_input inp)
                 (chosen_sort inp) (clamp_limit (limitInput inp))
                 (chosen_timeFilter inp) = Some res
      /\ (Z.of_nat (List.length (res_mediaPosts res)) < clamp_limit (limitInput inp) ->
          status_bar tr
            = Some (BarPage (OnlyFound (List.length (res_mediaPosts res))), true))
      /\ (clamp_limit (limitInput inp) <= Z.of_nat (List.length (res_mediaPosts res)) ->
          Z.of_nat (List.length (res_mediaPosts res)) = clamp_limit (limitInput inp)
          /\ status_bar tr
             = Some (BarRun (Success (List.length (res_mediaPosts res))), false))
      /\ (reports_error (res_trace res) = true ->
          status_bar tr = Some (BarPage (OnlyFound 0), true))
      /\ (btoa_defined (client_id inp ++ ":" ++ client_secret inp)%string = false
          \/ (forall c t, token_endpoint env (client_id inp) (client_secret inp)
                          <> TokenData (Some (String c t))) ->
          status_bar tr = Some (BarPage (OnlyFound 0), true)).
Proof.
  intros env inp tr N1 N2 N3 H.
  rewrite (displayMedia_filled env inp N1 N2 N3) in H.
  pose proof (clamp_limit_range (limitInput inp)) as R.
  set (limit := clamp_limit (limitInput inp)) in *.
  destruct (fetchPosts env (client_id inp) (client_secret inp)
              (subreddit_input inp) (chosen_sort inp) limit
              (chosen_timeFilter inp)) as [res|] eqn:F; [|discriminate].
  injection H as <-. exists res. split; [reflexivity|].
  assert (Short : Z.of_nat (List.length (res_mediaPosts res)) < limit ->
            status_bar
              ([UiClear; UiSpinner true] ++ map UiRun (res_trace res)
               ++ [UiSpinner false;
                   UiRender (res_mediaPosts res) (res_nonMediaPosts res)]
               ++ (if Z.of_nat (List.length (res_mediaPosts res)) <? limit
                   then [UiStatus (OnlyFound (List.length (res_mediaPosts res))) true]
                   else []))
            = Some (BarPage (OnlyFound (List.length (res_mediaPosts res))), true)).
  { intros Hs. apply Z.ltb_lt in Hs. rewrite Hs.
    rewrite !app_assoc. apply status_bar_last_page. }
  assert (Empty : res_mediaPosts res = [] ->
            status_bar
              ([UiClear; UiSpinner true] ++ map UiRun (res_trace res)
               ++ [UiSpinner false;
                   UiRender (res_mediaPosts res) (res_nonMediaPosts res)]
               ++ (if Z.of_nat (List.length (res_mediaPosts res)) <? limit
                   then [UiStatus (OnlyFound (List.length (res_mediaPosts res))) true]
                   else []))
            = Some (BarPage (OnlyFound 0), true)).
  { intros E. rewrite E in Short. simpl in Short. rewrite E. apply Short. lia. }
  split; [exact Short|]. split; [|split].
  - intros Hfull.
    assert (L0 : 0 <= limit) by lia.
    pose proof (fetchPosts_media_bound _ _ _ _ _ _ _ _ L0 F) as B.
    split; [lia|].
    destruct (Z.ltb_spec (Z.of_nat (List.length (res_mediaPosts res))) limit);
      [lia|].
    apply fetchPosts_log in F
      as [[_ ->] | (ch & t & c & evs & fin & _ & _ & _ & Tr & Hfin & _)].
    + simpl in Hfull. lia.
    + destruct Hfin as [(st & _ & -> & M & _) | (e & st & _ & _ & M & _)].
      * rewrite Tr, M.
        rewrite (app_assoc (token_phase env (client_id inp) (client_secret inp))
                   evs).
        exact (status_bar_last_run [UiClear; UiSpinner true]
                 (token_phase env (client_id inp) (client_secret inp) ++ evs)
                 _ _ (mediaPosts st) (res_nonMediaPosts res)).
      * rewrite M in Hfull. simpl in Hfull. lia.
  - intros Hbad. apply Empty.
    apply (fetchPosts_reports_error env (client_id inp) (client_secret inp)
             (subreddit_input inp) (chosen_sort inp) limit
             (chosen_timeFilter inp) _ res F) in Hbad.
    apply Hbad.
  - intros NT. apply Empty.
    destruct (token_phase_shape env (client_id inp) (client_secret inp))
      as (s & b & _ & Tk).
    apply fetchPosts_log in F
      as [[_ ->] | (ch & t & c & evs & fin & E & _)]; [reflexivity|].
    exfalso. destruct Tk as (B & c' & t' & Q); [rewrite E; reflexivity|].
    destruct NT as [NB | NT]; [congruence|].
    eapply NT. exact Q.
Qed.

Lemma displayMedia_final_status_witness :
  exists tr res,
    displayMedia Examples.failing MoreExamples.filled = Some tr
    /\ fetchPosts Examples.failing "id" "secret" "pics" "top" 5 (Some "day")
       = Some res
    /\ reports_error (res_trace res) = true
    /\ status_bar tr = Some (BarPage (OnlyFound 0), true).
Proof.
  do 2 eexists. split; [vm_compute; reflexivity|].
  split; [vm_compute; reflexivity|].
  split; [reflexivity|].
  match goal with
  | |- status_bar ?t = _ =>
      destruct (displayMedia_final_status Examples.failing MoreExamples.filled t)
        as (res & F & _ & _ & H & _)
  end.
  - simpl. discriminate.
  - simpl. discriminate.
  - simpl. discriminate.
  - vm_compute. reflexivity.
  - apply H. vm_compute in F. injection F as <-. reflexivity.
Defined.

(** ** Why a run ends *)

Section Ending.

Variable env : Env.
Variable token : string.
Variable base : string.
Variable limit : Z.

Local Abbreviation body := (while_body env token base limit).
Local Abbreviation loop := (while_loop env token base limit).

(** A turn of the loop ends in a [break] when the list is full, when the
    page was empty or came without a next cursor, or when the operator
    declined. *)
Lemma while_body_break_reason (st st1 : RunState) :
  body st = Break st1 ->
  limit <= media_length st1
  \/ page_goes_on (page_response env token base st) = false
  \/ In (EvConfirm false) (trace st1).
Proof.
  intros H.
  destruct (while_body_cases env token base limit st)
    as [(e & F & B) | (children & next & R & [[C B] | [(e & st2 & F & B) | (st2 & F & C & [[L B] | [L B]])]])];
    cbv zeta in *; rewrite B in H; try discriminate.
  - right. left. rewrite R, C. reflexivity.
  - injection H as <-. left. exact L.
  - destruct (stall_check_cases env limit st2) as [E | [[_ E] | [_ E]]];
      rewrite E in H.
    + destruct (advance_cases limit next st2) as [[T A] | [T A]];
        cbv zeta in A; rewrite A in H; [|discriminate].
      right. left. rewrite R. destruct children; [reflexivity | exact T].
    + destruct (advance_cases limit next (emit (EvConfirm true) st2))
        as [[T A] | [T A]]; cbv zeta in A; rewrite A in H; [|discriminate].
      right. left. rewrite R. destruct children; [reflexivity | exact T].
    + injection H as <-. right. right. simpl.
      apply in_or_app. left. apply in_or_app. right. left. reflexivity.
Qed.

(** The loop ends normally without a turn, or with the list full, or with
    the budget spent, or after a page that was empty or had no next
    cursor, or after the operator declined. *)
Lemma while_loop_ends (fuel : nat) :
  forall st st',
    loop fuel st = Some (Normal st') ->
    Z.of_nat (fetch_count (trace st)) = requestCount st ->
    requestCount st <= maxRequests limit ->
    (st' = st /\ loop_condition limit st = false)
    \/ limit <= media_length st'
    \/ Z.of_nat (fetch_count (trace st')) = maxRequests limit
    \/ (exists mid u r fin,
          trace st' = trace st ++ mid ++ EvFetch u r :: fin
          /\ existsb is_fetch fin = false
          /\ page_goes_on r = false)
    \/ In (EvConfirm false) (trace st').
Proof.
  induction fuel as [|fuel IH]; intros st st' H Inv Hle; simpl in H.
  - destruct (loop_condition limit st) eqn:C; [discriminate|].
    injection H as <-. left. split; reflexivity.
  - destruct (loop_condition limit st) eqn:C;
      [|injection H as <-; left; split; reflexivity].
    right.
    assert (Hb : requestCount st < maxRequests limit).
    { unfold loop_condition in C. apply andb_true_iff in C as [_ C].
      apply Z.ltb_lt in C. exact C. }
    destruct (while_body_log env token base limit st) as (evs & T & NF & _).
    pose proof (while_body_fetch_count env token base limit st) as FC.
    destruct (body st) as [st1|st1|e st1] eqn:B; simpl in T, FC.
    + pose proof (while_body_normal env token base limit st st1 B) as (Q & M & A).
      assert (Inv1 : Z.of_nat (fetch_count (trace st1)) = requestCount st1) by lia.
      assert (Hle1 : requestCount st1 <= maxRequests limit) by lia.
      destruct (IH _ _ H Inv1 Hle1)
        as [[-> C1] | [Hf | [Hm | [(mid & u & r & fin & T' & NF' & PG) | Hd]]]].
      * right. left.
        unfold loop_condition in C1. apply andb_false_iff in C1 as [C1 | C1];
          apply Z.ltb_ge in C1; lia.
      * left. exact Hf.
      * right. left. exact Hm.
      * right. right. left.
        exists (EvFetch (page_url base st) (page_response env token base st)
                  :: evs ++ mid), u, r, fin.
        split; [|split; assumption].
        rewrite T', T, <- !app_assoc. simpl. rewrite <- app_assoc. reflexivity.
      * right. right. right. exact Hd.
    + injection H as <-.
      destruct (while_body_break_reason _ _ B) as [Hf | [PG | Hd]].
      * left. exact Hf.
      * right. right. left.
        exists [], (page_url base st), (page_response env token base st), evs.
        simpl. split; [exact T|]. split; [exact NF | exact PG].
      * right. right. right. exact Hd.
    + discriminate.
Qed.

End Ending.

(** A run that has asked for a page and does not end in the [catch] block
    has not given up early: it ends with the list full, or with the whole
    budget of [maxRequests] pages asked for, or after a last page that was
    empty or came without a next cursor, or because the operator
    declined. *)
Theorem run_ends_for_a_reason :
  forall (env : Env) (clientId clientSecret subreddit sort : string)
         (limit : Z) (timeFilter : option string) (res : Result),
    fetchPosts env clientId clientSecret subreddit sort limit timeFilter
      = Some res ->
    reports_error (res_trace res) = false ->
    existsb is_fetch (res_trace res) = true ->
    limit <= Z.of_nat (List.length (res_mediaPosts res))
    \/ Z.of_nat (fetch_count (res_trace res)) = maxRequests limit
    \/ (exists pre u r post,
          res_trace res = pre ++ EvFetch u r :: post
          /\ existsb is_fetch post = false
          /\ page_goes_on r = false)
    \/ In (EvConfirm false) (res_trace res).
Proof.
  intros env clientId clientSecret subreddit sort limit timeFilter res H NE HF.
  destruct (token_phase_quiet env clientId clientSecret) as (NF & _).
  pose proof (maxRequests_min limit) as M3.
  apply fetchPosts_log in H
    as [[_ ->] | (ch & t & c & evs & fin & _ & W & T & Tr & Hfin & _)].
  - simpl in HF. congruence.
  - destruct Hfin as [(st & -> & -> & M & _) | (e & st & _ & -> & _)].
    2:{ rewrite Tr, !reports_error_app in NE. simpl in NE.
        rewrite !orb_true_r in NE. discriminate. }
    simpl in T.
    apply while_loop_ends in W;
      [|simpl; unfold fetch_count; rewrite (count_none _ _ NF); reflexivity
       |simpl; lia].
    destruct W as [[-> _] | [Hf | [Hm | [(mid & u & r & post & T' & NF' & PG) | Hd]]]].
    + exfalso. simpl in T.
      assert (evs = []).
      { apply (app_inv_head (token_phase env clientId clientSecret)).
        rewrite app_nil_r. symmetry. exact T. }
      subst evs. rewrite Tr, !existsb_app, NF in HF. simpl in HF. discriminate.
    + left. rewrite M. exact Hf.
    + right. left. rewrite Tr, app_assoc, <- T. unfold fetch_count in *.
      rewrite count_app. unfold count at 2. simpl. lia.
    + right. right. left. simpl in T'.
      exists (token_phase env clientId clientSecret ++ mid), u, r,
        (post ++ [EvStatus (Success (List.length (mediaPosts st))) false]).
      split; [|split; [|exact PG]].
      * rewrite Tr, app_assoc, <- T, T', <- !app_assoc. reflexivity.
      * rewrite existsb_app, NF'. reflexivity.
    + right. right. right. rewrite Tr, app_assoc, <- T.
      apply in_or_app. left. exact Hd.
Qed.

Lemma run_ends_for_a_reason_witness :
  exists res,
    fetchPosts Examples.declining "id" "secret" "pics" "best" 1 None = Some res
    /\ (1 <= Z.of_nat (List.length (res_mediaPosts res))
        \/ Z.of_nat (fetch_count (res_trace res)) = maxRequests 1
        \/ (exists pre u r post,
              res_trace res = pre ++ EvFetch u r :: post
              /\ existsb is_fetch post = false
              /\ page_goes_on r = false)
        \/ In (EvConfirm false) (res_trace res)).
Proof.
  eexists. split; [vm_compute; reflexivity|].
  apply (run_ends_for_a_reason Examples.declining "id" "secret" "pics" "best"
           1 None).
  - vm_compute. reflexivity.
  - reflexivity.
  - reflexivity.
Defined.

(** ** The further properties on the example worlds *)

Lemma one_token_request_first_witness :
  exists res rest,
    Cases.rich_run = Some res
    /\ res_trace res
       = [EvStatus FetchingPosts false; EvStatus FetchingToken false;
          EvToken (TokenData (Some "tok"))] ++ rest
    /\ existsb is_token rest = false
    /\ count is_token (res_trace res) = 1%nat.
Proof.
  eexists.
  destruct (one_token_request_first Examples.rich "id" "secret" "pics" "top" 2
              (Some "day") _ ltac:(vm_compute; reflexivity)) as ((rest & H) & _).
  exists rest. split; [vm_compute; reflexivity | exact H].
Defined.

Lemma page_addresses_are_chained_witness :
  exists res,
    Cases.barren_run = Some res
    /\ chained (baseUrl "pics" "best" 1 None) (Some "") (res_trace res).
Proof.
  eexists. split; [vm_compute; reflexivity|].
  apply (page_addresses_are_chained Examples.barren "id" "secret" "pics" "best"
           1 None).
  vm_compute. reflexivity.
Defined.

Lemma only_last_page_may_end_listing_witness :
  exists res,
    Cases.barren_run = Some res
    /\ pages_go_on (res_trace res)
    /\ (forall pre u r post,
          res_trace res = pre ++ EvFetch u r :: post ->
          page_goes_on r = false ->
          existsb is_fetch post = false).
Proof.
  eexists. split; [vm_compute; reflexivity|].
  apply (only_last_page_may_end_listing Examples.barren "id" "secret" "pics"
           "best" 1 None).
  vm_compute. reflexivity.
Defined.

Lemma prompt_once_after_three_barren_pages_witness :
  exists res,
    Cases.barren_run = Some res
    /\ (count is_confirm (res_trace res) <= 1)%nat
    /\ (existsb is_confirm (res_trace res) = true ->
        1 = 1 /\ res_mediaPosts res = []
        /\ fetch_count (res_trace res) = 3%nat).
Proof.
  eexists. split; [vm_compute; reflexivity|].
  apply (prompt_once_after_three_barren_pages Examples.barren "id" "secret"
           "pics" "best" 1 None).
  vm_compute. reflexivity.
Defined.

Lemma sleep_is_bounded_witness :
  exists res,
    Cases.barren_run = Some res
    /\ 0 <= slept (res_trace res) <= 1000 * Z.of_nat (fetch_count (res_trace res))
    /\ slept (res_trace res) <= 1000 * maxRequests 1.
Proof.
  eexists. split; [vm_compute; reflexivity|].
  apply (sleep_is_bounded Examples.barren "id" "secret" "pics" "best" 1 None).
  vm_compute. reflexivity.
Defined.

Lemma media_posts_have_image_urls_witness :
  exists res,
    fetchPosts Examples.rich "id" "secret" "pics" "top" 3 (Some "day") = Some res
    /\ res_mediaPosts res
       = [Cases.p1; Cases.p2; set_url Cases.p3 "https://y.com/b.png?w=1"]
    /\ Forall has_image_url (res_mediaPosts res)
    /\ (exists q, In q (delivered (res_trace res))
                  /\ classified q (set_url Cases.p3 "https://y.com/b.png?w=1"))
    /\ (forall p, In p (res_mediaPosts res) -> oid p = oid Cases.p3 ->
          p = set_url Cases.p3 "https://y.com/b.png?w=1"
          /\ url (data p) = Some "https://y.com/b.png?w=1").
Proof.
  eexists. split; [vm_compute; reflexivity|].
  split; [reflexivity|].
  destruct (media_posts_have_image_urls Examples.rich "id" "secret" "pics" "top" 3
              (Some "day") _ ltac:(vm_compute; reflexivity)) as (I & S & P).
  split; [exact I|]. split.
  - apply S. simpl. right. right. left. reflexivity.
  - intros p Hp Eo.
    destruct (P Cases.p3 p "https://x.com/c.html") as (_ & Q).
    + simpl. do 3 right. left. reflexivity.
    + exact Hp.
    + exact Eo.
    + reflexivity.
    + destruct Q as (_ & Q1 & Q2); [reflexivity|]. split; [exact Q1 | exact Q2].
Defined.

Lemma media_posts_in_arrival_order_witness :
  exists res,
    Cases.rich_run = Some res
    /\ Forall2 derived
               (filter (in_media (res_mediaPosts res)) (delivered (res_trace res)))
               (res_mediaPosts res).
Proof.
  eexists. split; [vm_compute; reflexivity|].
  apply (media_posts_in_arrival_order Examples.rich "id" "secret" "pics" "top" 2
           (Some "day")).
  vm_compute. reflexivity.
Defined.

Lemma no_post_listed_twice_witness :
  exists res,
    Cases.rich_run = Some res
    /\ NoDup (map oid (res_mediaPosts res ++ res_nonMediaPosts res)).
Proof.
  eexists. split; [vm_compute; reflexivity|].
  apply (no_post_listed_twice Examples.rich "id" "secret" "pics" "top" 2
           (Some "day")).
  vm_compute. reflexivity.
Defined.

(** ** The first page that [displayMedia] asks for *)

Lemma string_append_assoc (a b c : string) :
  ((a ++ b) ++ c = a ++ (b ++ c))%string.
Proof. induction a as [|x a IH]; simpl; [reflexivity|]. rewrite IH. reflexivity. Qed.

Lemma string_append_nil_r (a : string) : (a ++ "" = a)%string.
Proof. induction a as [|x a IH]; simpl; [reflexivity|]. rewrite IH. reflexivity. Qed.

Lemma chained_first (base : string) (pre post : list Event) (u : string)
    (r : Response) :
  forall cursor,
    chained base cursor (pre ++ EvFetch u r :: post) ->
    existsb is_fetch pre = false ->
    u = url_for base cursor.
Proof.
  induction pre as [|e pre IH]; intros cursor H NF; simpl in *.
  - apply H.
  - apply orb_false_iff in NF as [Ne NF].
    destruct e; simpl in Ne; try discriminate; apply (IH _ H NF).
Qed.

(** The first page is asked for in the listing of the active sort button,
    [best] when there is none, with [limit + 5] posts a page, 100 at
    most; the time filter is sent only for the sort [top], and is [day]
    when no time button is active (lines 41-45 and 148-149). *)
Theorem displayMedia_first_address :
  forall (env : Env) (inp : Inputs) (tr : list UiEvent)
         (pre post : list Event) (u : string) (r : Response),
    displayMedia env inp = Some tr ->
    run_events tr = pre ++ EvFetch u r :: post ->
    existsb is_fetch pre = false ->
    let sort := match active_sort inp with
                | Some (String c s) => String c s
                | _ => "best"
                end in
    let limit := clamp_limit (limitInput inp) in
    u = ("https://oauth.reddit.com/r/" ++ subreddit_input inp ++ "/" ++ sort
         ++ ".json?limit=" ++ of_Z (Z.min (limit + 5) 100)
         ++ (if String.eqb sort "top"
             then "&t=" ++ match active_time inp with
                           | Some (String c t) => String c t
                           | _ => "day"
                           end
             else ""))%string.
Proof.
  intros env inp tr pre post u r H E NF sort limit.
  destruct (displayMedia_cases env inp) as [D | [D | (N1 & N2 & N3)]].
  - rewrite D in H. injection H as <-. destruct pre; discriminate.
  - rewrite D in H. injection H as <-. destruct pre; discriminate.
  - destruct (displayMedia_run_events env inp tr N1 N2 N3 H) as (res & F & R).
    rewrite R in E. clear R H.
    assert (CH : chained (baseUrl (subreddit_input inp) (chosen_sort inp) limit
                                  (chosen_timeFilter inp))
                         (Some "") (res_trace res)).
    { destruct (token_phase_quiet env (client_id inp) (client_secret inp))
        as (NFp & _).
      apply fetchPosts_log in F
        as [[_ ->] | (ch & t & c & evs & fin & _ & _ & _ & -> & Hfin & _ & CH & _)].
      - simpl. apply chained_no_fetch. exact NFp.
      - apply chained_skip; [exact NFp|].
        apply chained_then; [|exact CH].
        destruct Hfin as [(st & _ & -> & _) | (e & st & _ & -> & _)]; reflexivity. }
    rewrite E in CH. apply chained_first in CH; [|exact NF].
    rewrite CH. unfold url_for.
    assert (S : chosen_sort inp = sort).
    { unfold chosen_sort, sort, or_else.
      destruct (active_sort inp) as [[|c s]|]; reflexivity. }
    unfold baseUrl, chosen_timeFilter, batchSize. rewrite S.
    destruct (String.eqb sort "top").
    + unfold or_else.
      destruct (active_time inp) as [[|c t]|]; cbn [truthy andb];
        rewrite !string_append_assoc; reflexivity.
    + cbn [truthy andb]. rewrite string_append_nil_r. reflexivity.
Qed.

Lemma displayMedia_first_address_witness :
  exists tr pre r post,
    displayMedia Examples.rich MoreExamples.filled = Some tr
    /\ run_events tr
       = pre ++ EvFetch "https://oauth.reddit.com/r/pics/top.json?limit=10&t=day" r
             :: post
    /\ existsb is_fetch pre = false.
Proof.
  eexists.
  exists [EvStatus FetchingPosts false; EvStatus FetchingToken false;
          EvToken (TokenData (Some "tok")); EvStatus TokenRetrieved false].
  do 2 eexists.
  split; [vm_compute; reflexivity|].
  split; [|reflexivity].
  match goal with
  | |- run_events ?t = ?p ++ EvFetch _ ?r :: ?q =>
      assert (E : exists u, run_events t = p ++ EvFetch u r :: q)
  end.
  { eexists. vm_compute. reflexivity. }
  destruct E as [u E]. rewrite E.
  rewrite (displayMedia_first_address Examples.rich MoreExamples.filled _ _ _ u _
             ltac:(vm_compute; reflexivity) E ltac:(reflexivity)).
  reflexivity.
Defined.
